(** * kv_parse.c: a shallow embedding of the key-value scanner

    The repository holds two engines over the same four operations
    (next_line, check_key, get_value, check_section): a stream engine on a
    [FILE*] (kv_parse.c) and a buffer engine on a NUL-terminated [char*]
    (kv_parse_buffer.c), plus the caller loops of test.c.  Two versions of
    each engine are in the sources; they differ in the spelling of the
    feature macros and in the presence of check_section, not in the code of
    the three other operations.

    Conventions of the embedding:
    - [char] is the signed 8-bit type of the platforms the test-suite passes
      on; a character is a [Z] in [-128, 127].  Bytes of a file are [Z] in
      [0, 255]; [to_char] is the conversion done by [char ch = getc(file)].
    - [size_t] is 64 bits; [value_max - 1] wraps as in C.  The loop counter
      [int i] is a [Z]; inputs are assumed shorter than [2^31] bytes so that
      [i] itself never overflows.
    - the two compile-time flags are the fields of [config].
    - the destination buffer is the memory around the pointer that the caller
      passes: [cells] is indexed by the offset from that pointer (offsets
      outside the capacity are the neighbouring memory), and every access of
      the code is appended to [trace]. *)

From Stdlib Require Import String Ascii ZArith List Bool Lia.
Import ListNotations.
Local Open Scope Z_scope.

(** ** Characters and integer conversions *)

Definition EOF : Z := -1.

(** [char ch = getc(file)]: an [int] squeezed into a signed char. *)
Definition to_char (v : Z) : Z := (v + 128) mod 256 - 128.

(** [ungetc] stores its argument converted to [unsigned char]. *)
Definition to_uchar (c : Z) : Z := c mod 256.

Definition size_modulus : Z := 2 ^ 64.

(** Conversion of an [int] to [size_t]. *)
Definition to_size (i : Z) : Z := i mod size_modulus.

(** The callers of test.c return the [size_t] length as an [int]. *)
Definition to_int (n : Z) : Z := (n + 2 ^ 31) mod 2 ^ 32 - 2 ^ 31.

(** The largest value of an [int].  The copy loops count the bytes they have
    stored in an [int i], which the embedding keeps as an integer without
    wrap-around: it follows the source as long as [i] stays within
    [int_max], which is the case for every capacity up to [int_max + 1],
    since [i] never exceeds the capacity minus one. *)
Definition int_max : Z := 2 ^ 31 - 1.

(** [ch == ' ' || ch == '\t'] *)
Definition is_blank (c : Z) : bool := (c =? 32) || (c =? 9).

(** [*str == '\0' || *str == '\r' || *str == '\n'] *)
Definition is_eol (c : Z) : bool := (c =? 0) || (c =? 13) || (c =? 10).

(** [ch == EOF || ch == '\r' || ch == '\n'] *)
Definition is_eol_file (c : Z) : bool := (c =? EOF) || (c =? 13) || (c =? 10).

(** [ch != '=' && ch != ':'] is [negb (is_delim ch)]. *)
Definition is_delim (c : Z) : bool := (c =? 61) || (c =? 58).

(** The two quote characters: apostrophe (39) and double quote (34). *)
Definition is_quote (c : Z) : bool := (c =? 39) || (c =? 34).

Definition backslash : Z := 92.
Definition open_bracket : Z := 91.
Definition close_bracket : Z := 93.
Definition newline : Z := 10.

(** Text literals: the bytes of a Rocq string. *)
Definition txt (s : string) : list Z :=
  map (fun a => Z.of_N (N_of_ascii a)) (list_ascii_of_string s).

(** ** Compile-time configuration *)

Record config : Type := Config {
  whitespace_skip : bool;
    (* KV_PARSE_WHITESPACE_SKIP defined; in the files with check_section,
       KV_PARSE_DISABLE_WHITESPACE_SKIP not defined *)
  quoted_strings : bool
    (* KV_PARSE_QUOTED_STRINGS defined; in the files with check_section,
       KV_PARSE_DISABLE_QUOTED_STRINGS not defined *)
}.

(** ** The destination buffer *)

Inductive access : Type :=
| Rd (i : Z)
| Wr (i : Z).

Record dest : Type := Dest {
  cells : Z -> Z;
  trace : list access   (* most recent access first *)
}.

Definition load (d : dest) (i : Z) : Z * dest :=
  (cells d i, {| cells := cells d; trace := Rd i :: trace d |}).

Definition store (d : dest) (i v : Z) : dest :=
  {| cells := fun j => if j =? i then v else cells d j;
     trace := Wr i :: trace d |}.

(** A destination whose memory holds [init] everywhere and that has not been
    accessed yet. *)
Definition fresh (init : Z -> Z) : dest := {| cells := init; trace := [] |}.

Definition zeroed : dest := fresh (fun _ => 0).

(** The first [n] bytes of the destination. *)
Definition contents (d : dest) (n : nat) : list Z :=
  map (fun k => cells d (Z.of_nat k)) (seq 0 n).

Definition access_index (a : access) : Z :=
  match a with Rd i => i | Wr i => i end.

Definition in_bounds (C : Z) (a : access) : Prop :=
  0 <= access_index a < C.

(** Which [return] statement a call left through.  The C functions return
    only the length; the tag is bookkeeping of the embedding. *)
Inductive value_exit : Type :=
| EndOfLine        (* end of line or of input reached *)
| ClosingQuote     (* closing quote of a quoted string *)
| TooLarge.        (* the for loop ran out of capacity *)

Inductive section_exit : Type :=
| NoOpenBracket    (* first byte is not '[' *)
| MissingBracket   (* no ']' before the end of the line *)
| SectionFound
| SectionTooLarge.

(** [while (i > 0 && (value[i-1] == ' ' || value[i-1] == '\t')) { i--; value[i] = 0; }]
    The loop runs at most [i] times; [trim] supplies exactly that many
    rounds, so the round counter reaches zero only when [i > 0] fails. *)
Fixpoint trim_loop (rounds : nat) (i : Z) (d : dest) : Z * dest :=
  match rounds with
  | O => (i, d)
  | S k =>
      if 0 <? i then
        let (c, d1) := load d (i - 1) in
        if is_blank c then trim_loop k (i - 1) (store d1 (i - 1) 0)
        else (i, d1)
      else (i, d)
  end.

Definition trim (i : Z) (d : dest) : Z * dest := trim_loop (Z.to_nat i) i d.

(** ** Buffer engine (kv_parse_buffer.c)

    A [char *str] is the list of characters from the pointer on; the
    terminating NUL is implicit at the end of the list (a zero inside the
    list terminates too, as in C).  [str++] is the tail. *)

Definition deref (str : list Z) : Z := hd 0 str.

Fixpoint buffer_next_line_loop (str : list Z) : option (list Z) :=
  match str with
  | [] => None
  | ch :: str' =>
      if ch =? 0 then None
      else if ch =? newline then
        (if deref str' =? 0 then None else Some str')
      else buffer_next_line_loop str'
  end.

Definition kv_parse_buffer_next_line (str : list Z) (line_count : Z)
  : option (list Z) :=
  if line_count =? 0 then Some str else buffer_next_line_loop str.

Fixpoint buffer_skip_blank (str : list Z) : list Z :=
  match str with
  | c :: str' => if is_blank c then buffer_skip_blank str' else str
  | [] => []
  end.

(** The key comparison loop: [None] is the [return NULL] on a mismatch,
    [Some str] the pointer when the loop condition fails. *)
Fixpoint buffer_key_loop (str key : list Z) : option (list Z) :=
  match key with
  | [] => Some str
  | k :: key' =>
      if (deref str =? 0) || (k =? 0) then Some str
      else if negb (deref str =? k) then None
      else buffer_key_loop (tl str) key'
  end.

Definition kv_parse_buffer_check_key (cfg : config) (str key : list Z)
  : option (list Z) :=
  let str := if whitespace_skip cfg then buffer_skip_blank str else str in
  match buffer_key_loop str key with
  | None => None
  | Some str =>
      let str := if whitespace_skip cfg then buffer_skip_blank str else str in
      if negb (is_delim (deref str)) then None else Some (tl str)
  end.

Definition value_end_of_line (cfg : config) (i : Z) (d : dest)
  : value_exit * Z * dest :=
  let d1 := store d i 0 in
  let (i', d2) := if whitespace_skip cfg then trim i d1 else (i, d1) in
  (EndOfLine, to_size i', d2).

Definition value_too_large (d : dest) : value_exit * Z * dest :=
  (TooLarge, 0, store d 0 0).

(** The copy loop of get_value.  [i] is the [int i] of the source, kept
    without wrap-around; see [int_max]. *)
Fixpoint buffer_value_loop (cfg : config) (value_max : Z) (str : list Z)
  (i quote prev : Z) (d : dest) : value_exit * Z * dest :=
  if negb (to_size i <? to_size (value_max - 1)) then value_too_large d
  else
    match str with
    | [] => value_end_of_line cfg i d
    | c :: str' =>
        if is_eol c then value_end_of_line cfg i d
        else if quoted_strings cfg && (quote =? 0) && is_quote c then
          buffer_value_loop cfg value_max str' i c prev d
        else if quoted_strings cfg && negb (quote =? 0)
                && negb (prev =? backslash) && (c =? quote) then
          (ClosingQuote, to_size i, store d i 0)
        else if quoted_strings cfg && negb (quote =? 0)
                && (prev =? backslash) && (c =? quote) then
          buffer_value_loop cfg value_max str' i quote prev
            (store d (i - 1) (if c =? 0 then 0 else c))
        else
          buffer_value_loop cfg value_max str' (i + 1) quote
            (if quoted_strings cfg then c else prev)
            (store d i (if c =? 0 then 0 else c))
    end.

Definition kv_parse_buffer_get_value (cfg : config) (str : list Z)
  (value : dest) (value_max : Z) : value_exit * Z * dest :=
  let str := if whitespace_skip cfg then buffer_skip_blank str else str in
  buffer_value_loop cfg value_max str 0 0 0 value.

(** The end-of-line branch of check_section, shared by both engines' source
    text: terminate, trim, test [section[i - 1]] and drop the bracket. *)
Definition section_end_of_line (i : Z) (d : dest) : section_exit * Z * dest :=
  let d1 := store d i 0 in
  let (i1, d2) := trim i d1 in
  let (c, d3) := load d2 (i1 - 1) in
  if negb (c =? close_bracket) then (MissingBracket, 0, store d3 0 0)
  else (SectionFound, to_size (i1 - 1), store d3 (i1 - 1) 0).

Definition section_too_large (d : dest) : section_exit * Z * dest :=
  (SectionTooLarge, 0, store d 0 0).

Fixpoint buffer_section_loop (section_max : Z) (str : list Z) (i : Z)
  (d : dest) : section_exit * Z * dest :=
  if negb (to_size i <? to_size (section_max - 1)) then section_too_large d
  else
    match str with
    | [] => section_end_of_line i d
    | c :: str' =>
        if is_eol c then section_end_of_line i d
        else buffer_section_loop section_max str' (i + 1) (store d i c)
    end.

Definition kv_parse_buffer_check_section (str : list Z) (section : dest)
  (section_max : Z) : section_exit * Z * dest :=
  if negb (deref str =? open_bracket) then (NoOpenBracket, 0, section)
  else buffer_section_loop section_max (tl str) 0 section.

(** ** Stream engine (kv_parse.c)

    A [FILE] is the content of the file, the position [ftell] reports and
    the bytes the next calls of [getc] deliver ([ungetc] puts one in front
    of them).  A stream that was only read and sought has
    [ahead = skipn pos data]. *)

Record FILE : Type := File {
  data : list Z;
  pos : Z;
  ahead : list Z
}.

Definition fopen (bytes : list Z) : FILE :=
  {| data := bytes; pos := 0; ahead := bytes |}.

Definition ftell (f : FILE) : Z := pos f.

(** [fseek(file, p, SEEK_SET)]; a negative offset is refused and leaves the
    stream as it is. *)
Definition fseek (f : FILE) (p : Z) : FILE :=
  if p <? 0 then f
  else {| data := data f; pos := p; ahead := skipn (Z.to_nat p) (data f) |}.

Definition rewind (f : FILE) : FILE := fseek f 0.

Definition getc (f : FILE) : Z * FILE :=
  match ahead f with
  | [] => (EOF, f)
  | b :: rest => (b, {| data := data f; pos := pos f + 1; ahead := rest |})
  end.

Definition ungetc (c : Z) (f : FILE) : FILE :=
  if c =? EOF then f
  else {| data := data f; pos := pos f - 1; ahead := to_uchar c :: ahead f |}.

(** [char ch = getc(file)] *)
Definition getc_char (f : FILE) : Z * FILE :=
  let (v, f') := getc f in (to_char v, f').

(** Every loop of the stream engine reads one byte per round and stops at
    the latest one round after the stream is exhausted; [rounds f] is that
    bound.  A loop that would need more returns [None]. *)
Definition rounds (f : FILE) : nat := S (S (length (ahead f))).

Fixpoint file_next_line_loop (fuel : nat) (ch : Z) (f : FILE)
  : option (bool * FILE) :=
  match fuel with
  | O => None
  | S k =>
      if ch =? EOF then Some (false, f)
      else if ch =? newline then
        let (ch', f') := getc_char f in
        if ch' =? EOF then Some (false, f')
        else Some (true, ungetc ch' f')
      else
        let (ch', f') := getc_char f in file_next_line_loop k ch' f'
  end.

Definition kv_parse_next_line (f : FILE) (line_count : Z)
  : option (bool * FILE) :=
  if line_count =? 0 then Some (true, f)
  else
    let (ch, f') := getc_char f in
    file_next_line_loop (rounds f) ch f'.

Fixpoint file_skip_blank (fuel : nat) (ch : Z) (f : FILE) : option (Z * FILE) :=
  match fuel with
  | O => None
  | S k =>
      if is_blank ch then
        let (ch', f') := getc_char f in file_skip_blank k ch' f'
      else Some (ch, f)
  end.

(** The key comparison loop, with the character and the stream it stops
    at: [false] is the mismatch branch, [true] the end of the loop. *)
Fixpoint file_key_loop (key : list Z) (ch : Z) (f : FILE) : bool * (Z * FILE) :=
  match key with
  | [] => (true, (ch, f))
  | k :: key' =>
      if (ch =? EOF) || (k =? 0) then (true, (ch, f))
      else if negb (ch =? k) then (false, (ch, f))
      else let (ch', f') := getc_char f in file_key_loop key' ch' f'
  end.

Definition kv_parse_check_key (cfg : config) (f : FILE) (key : list Z)
  : option (bool * FILE) :=
  let start_of_line := ftell f in
  let (ch, f1) := getc_char f in
  match (if whitespace_skip cfg then file_skip_blank (rounds f) ch f1
         else Some (ch, f1)) with
  | None => None
  | Some (ch, f2) =>
      match file_key_loop key ch f2 with
      | (false, (_, f3)) => Some (false, fseek f3 start_of_line)
      | (true, (ch, f3)) =>
          match (if whitespace_skip cfg then file_skip_blank (rounds f) ch f3
                 else Some (ch, f3)) with
          | None => None
          | Some (ch, f4) =>
              if negb (is_delim ch) then Some (false, fseek f4 start_of_line)
              else Some (true, f4)
          end
      end
  end.

Definition file_value_end_of_line (cfg : config) (start_of_value ch i : Z)
  (f : FILE) (d : dest) : value_exit * Z * FILE * dest :=
  let f1 := fseek f start_of_value in
  let f2 := if ch =? newline then ungetc newline f1 else f1 in
  let '(e, n, d') := value_end_of_line cfg i d in
  (e, n, f2, d').

Fixpoint file_value_loop (fuel : nat) (cfg : config) (value_max : Z)
  (start_of_value : Z) (ch : Z) (f : FILE) (i quote prev : Z) (d : dest)
  : option (value_exit * Z * FILE * dest) :=
  match fuel with
  | O => None
  | S k =>
      if negb (to_size i <? to_size (value_max - 1)) then
        Some (TooLarge, 0, fseek f start_of_value, store d 0 0)
      else if is_eol_file ch then
        Some (file_value_end_of_line cfg start_of_value ch i f d)
      else if quoted_strings cfg && (quote =? EOF) && is_quote ch then
        let (ch', f') := getc_char f in
        file_value_loop k cfg value_max start_of_value ch' f' i ch prev d
      else if quoted_strings cfg && negb (quote =? EOF)
              && negb (prev =? backslash) && (ch =? quote) then
        Some (ClosingQuote, to_size i, fseek f start_of_value, store d i 0)
      else if quoted_strings cfg && negb (quote =? EOF)
              && (prev =? backslash) && (ch =? quote) then
        let (ch', f') := getc_char f in
        file_value_loop k cfg value_max start_of_value ch' f' i quote prev
          (store d (i - 1) (if ch =? EOF then 0 else ch))
      else
        let (ch', f') := getc_char f in
        file_value_loop k cfg value_max start_of_value ch' f' (i + 1) quote
          (if quoted_strings cfg then ch else prev)
          (store d i (if ch =? EOF then 0 else ch))
  end.

Definition kv_parse_get_value (cfg : config) (f : FILE) (value : dest)
  (value_max : Z) : option (value_exit * Z * FILE * dest) :=
  let start_of_value := ftell f in
  let (ch, f1) := getc_char f in
  match (if whitespace_skip cfg then file_skip_blank (rounds f) ch f1
         else Some (ch, f1)) with
  | None => None
  | Some (ch, f2) =>
      file_value_loop (rounds f) cfg value_max start_of_value ch f2
        0 EOF EOF value
  end.

(** check_section keeps the result of [getc] in an [int]; the byte is
    converted to [char] only when it is stored into [section]. *)
Fixpoint file_section_loop (fuel : nat) (section_max : Z) (start_of_line : Z)
  (ch : Z) (f : FILE) (i : Z) (d : dest)
  : option (section_exit * Z * FILE * dest) :=
  match fuel with
  | O => None
  | S k =>
      if negb (to_size i <? to_size (section_max - 1)) then
        Some (SectionTooLarge, 0, fseek f start_of_line, store d 0 0)
      else if is_eol_file ch then
        let f1 := fseek f start_of_line in
        let '(e, n, d') := section_end_of_line i d in
        Some (e, n,
              match e with MissingBracket => fseek f1 start_of_line | _ => f1 end,
              d')
      else
        let (ch', f') := getc f in
        file_section_loop k section_max start_of_line ch' f' (i + 1)
          (store d i (to_char (if ch =? EOF then 0 else ch)))
  end.

Definition kv_parse_check_section (f : FILE) (section : dest)
  (section_max : Z) : option (section_exit * Z * FILE * dest) :=
  let start_of_line := ftell f in
  let (ch, f1) := getc f in
  if negb (ch =? open_bracket) then
    Some (NoOpenBracket, 0, fseek f1 start_of_line, section)
  else
    let (ch, f2) := getc f1 in
    file_section_loop (rounds f) section_max start_of_line ch f2 0 section.

(** ** The caller loops of test.c *)

Fixpoint kv_parse_buffer_lines (fuel : nat) (cfg : config) (input : list Z)
  (line : Z) (key : list Z) (value : dest) (value_max : Z)
  : option (Z * dest) :=
  match fuel with
  | O => None
  | S k =>
      match kv_parse_buffer_next_line input line with
      | None => Some (0, value)
      | Some input =>
          match kv_parse_buffer_check_key cfg input key with
          | Some input_value =>
              let '(_, n, d) :=
                kv_parse_buffer_get_value cfg input_value value value_max in
              Some (to_int n, d)
          | None =>
              kv_parse_buffer_lines k cfg input (line + 1) key value value_max
          end
      end
  end.

(** One round per line, and every line after the first consumes a byte. *)
Definition kv_parse_buffer (cfg : config) (input key : list Z) (value : dest)
  (value_max : Z) : option (Z * dest) :=
  kv_parse_buffer_lines (S (S (length input))) cfg input 0 key value value_max.

Fixpoint kv_parse_lines (fuel : nat) (cfg : config) (f : FILE) (line : Z)
  (key : list Z) (value : dest) (value_max : Z) : option (Z * dest) :=
  match fuel with
  | O => None
  | S k =>
      match kv_parse_next_line f line with
      | None => None
      | Some (false, _) => Some (0, value)
      | Some (true, f1) =>
          match kv_parse_check_key cfg f1 key with
          | None => None
          | Some (true, f2) =>
              match kv_parse_get_value cfg f2 value value_max with
              | None => None
              | Some (_, n, _, d) => Some (to_int n, d)
              end
          | Some (false, f2) =>
              kv_parse_lines k cfg f2 (line + 1) key value value_max
          end
      end
  end.

Definition kv_parse (cfg : config) (f : FILE) (key : list Z) (value : dest)
  (value_max : Z) : option (Z * dest) :=
  let f := rewind f in
  kv_parse_lines (S (S (length (data f)))) cfg f 0 key value value_max.

(** ** Observations *)

(** What a caller sees of a result: the returned length and the first [n]
    bytes of the destination. *)
Definition observe (n : nat) (r : option (Z * dest)) : option (Z * list Z) :=
  match r with
  | Some (len, d) => Some (len, contents d n)
  | None => None
  end.

(** What a call shows: exit, returned length and the first [n] destination
    bytes (and, for the stream engine, the stream it leaves). *)
Definition view {E : Type} (n : nat) (r : E * Z * dest) : E * Z * list Z :=
  let '(e, len, d) := r in (e, len, contents d n).

Definition file_view {E : Type} (n : nat) (r : option (E * Z * FILE * dest))
  : option (E * Z * FILE * list Z) :=
  match r with
  | Some (e, len, f, d) => Some (e, len, f, contents d n)
  | None => None
  end.

Definition accesses {E : Type} (r : E * Z * dest) : list access :=
  rev (trace (snd r)).

Definition file_accesses {E : Type} (r : option (E * Z * FILE * dest))
  : list access :=
  match r with
  | Some (_, _, _, d) => rev (trace d)
  | None => []
  end.

(** ** Streams and texts *)

(** A stream that has only been read and sought: what [getc] will deliver is
    what the file holds from the current position on. *)
Definition coherent (f : FILE) : Prop :=
  0 <= pos f /\ ahead f = skipn (Z.to_nat (pos f)) (data f).

(** The rounds a stream loop still needs once [ch] has been read: one for
    each byte ahead, one for the EOF that follows them, and one for [ch]
    itself unless it already is EOF. *)
Definition budget (ch : Z) (f : FILE) : nat :=
  (length (ahead f) + (if (ch =? EOF)%Z then 1 else 2))%nat.

(** What [char ch = getc(file)] delivers on the bytes [pending]. *)
Definition peek (pending : list Z) : Z :=
  match pending with
  | [] => EOF
  | b :: _ => to_char b
  end.

(** The character just read and the stream behind it, when the bytes
    [pending] were ahead at position [p] of a file holding [d]. *)
Definition reading (d : list Z) (p : Z) (pending : list Z) : Z * FILE :=
  match pending with
  | [] => (EOF, {| data := d; pos := p; ahead := [] |})
  | b :: rest => (to_char b, {| data := d; pos := p + 1; ahead := rest |})
  end.

(** The same text as a NUL-terminated buffer of [char]. *)
Definition as_buffer (bytes : list Z) : list Z := map to_char bytes.

(** The bytes of a text on which the two engines can be compared: neither
    NUL, which ends a buffer, nor 255, which the stream engine cannot tell
    from EOF. *)
Definition text_byte (b : Z) : Prop := 1 <= b <= 254.

Definition text_bytes (l : list Z) : Prop := Forall text_byte l.

(** How the quote variable of the stream engine (EOF when no quote is open)
    relates to that of the buffer engine (NUL when no quote is open). *)
Definition quote_rel (qs qb : Z) : Prop :=
  (qs = EOF /\ qb = 0) \/ (qs = qb /\ qs <> EOF /\ qb <> 0).

(** ** Lines, keys and values *)

(** Runs of spaces and tabs, in a buffer and among the bytes of a file. *)
Definition blanks (w : list Z) : Prop := Forall (fun c => is_blank c = true) w.

Definition file_blanks (w : list Z) : Prop :=
  Forall (fun b => is_blank (to_char b) = true) w.

(** A key is a C string: it holds no NUL. *)
Definition c_string (key : list Z) : Prop := Forall (fun k => k <> 0) key.

(** The bytes of a line up to its end ([\0], [\r] or [\n]). *)
Fixpoint line_of (str : list Z) : list Z :=
  match str with
  | [] => []
  | c :: str' => if is_eol c then [] else c :: line_of str'
  end.

(** A line made of spaces and tabs only (possibly empty). *)
Definition blank_line (str : list Z) : bool := forallb is_blank (line_of str).

(** The bytes of a line of a file up to its end ([\r], [\n]; the end of
    the file is the end of the list). *)
Fixpoint file_line_of (bytes : list Z) : list Z :=
  match bytes with
  | [] => []
  | b :: rest => if is_eol_file b then [] else b :: file_line_of rest
  end.

(** A file line made of spaces and tabs only (possibly empty). *)
Definition file_blank_line (bytes : list Z) : bool :=
  forallb (fun b => is_blank (to_char b)) (file_line_of bytes).

(** The lines [ls], each closed by a newline, in front of [rest]. *)
Fixpoint lines_before (ls : list (list Z)) (rest : list Z) : list Z :=
  match ls with
  | [] => rest
  | l :: ls' => l ++ newline :: lines_before ls' rest
  end.

(** The body of a line holds neither NUL nor newline. *)
Definition line_body (l : list Z) : Prop :=
  Forall (fun c => c <> 0 /\ c <> newline) l.

(** None of the lines [ls], checked in place in front of [rest], matches
    the key. *)
Fixpoint no_match (cfg : config) (key : list Z) (ls : list (list Z))
  (rest : list Z) : Prop :=
  match ls with
  | [] => True
  | l :: ls' =>
      kv_parse_buffer_check_key cfg (l ++ newline :: lines_before ls' rest) key
        = None
      /\ no_match cfg key ls' rest
  end.

(** A value without surprises: no end-of-line character, no quote character
    when quoted strings are enabled, and no leading blank when whitespace is
    skipped.  Its length is the number of bytes get_value has to copy. *)
Definition plain_char (cfg : config) (c : Z) : Prop :=
  is_eol c = false /\ (quoted_strings cfg = true -> is_quote c = false).

Definition plain (cfg : config) (s : list Z) : Prop :=
  Forall (plain_char cfg) s
  /\ (whitespace_skip cfg = true -> is_blank (deref s) = false).

(** ** Quoted strings, as the specification words them *)

(** Following the words of the specification of quoted strings: the offset in
    [s] of the first occurrence of the quote [q] whose preceding input byte
    ([before] for the head of [s]) is not a backslash. *)
Fixpoint spec_closing_quote (q before : Z) (s : list Z) : option nat :=
  match s with
  | [] => None
  | c :: s' =>
      if (c =? q) && negb (before =? backslash) then Some O
      else option_map S (spec_closing_quote q c s')
  end.

(** Following the words of the specification: a backslash in front of the
    quote character is dropped and the quote becomes a literal byte. *)
Fixpoint spec_unescape (q : Z) (s : list Z) : list Z :=
  match s with
  | [] => []
  | c :: s' =>
      match s' with
      | c' :: s'' =>
          if (c =? backslash) && (c' =? q) then q :: spec_unescape q s''
          else c :: spec_unescape q s'
      | [] => [c]
      end
  end.

(** Following the words of the specification: the value of a quoted string
    whose opening quote [q] has just been read, when a closing quote
    exists. *)
Definition spec_quoted_value (q : Z) (s : list Z) : option (list Z) :=
  match spec_closing_quote q q s with
  | Some n => Some (spec_unescape q (firstn n s))
  | None => None
  end.

(** ** Sample inputs *)

Definition double_quote : Z := 34.

(** The line [path=Q/home/user=dataQ], where Q is the double quote. *)
Definition quoted_line : list Z :=
  txt "path=" ++ [double_quote] ++ txt "/home/user=data" ++ [double_quote].

(** The line [path=Q/home/user=data], without the closing quote. *)
Definition unterminated_line : list Z :=
  txt "path=" ++ [double_quote] ++ txt "/home/user=data".

(** The line [path=Q/home/\Quser=dataQ], with an escaped quote inside. *)
Definition escaped_line : list Z :=
  txt "path=" ++ [double_quote] ++ txt "/home/" ++ [backslash; double_quote]
    ++ txt "user=data" ++ [double_quote].

(** The bytes [a \ q q b q] followed by a blank and [#]: an escaped quote
    directly followed by a quote, then more text and a third quote. *)
Definition after_escaped_quote : list Z :=
  [97; backslash; double_quote; double_quote; 98; double_quote; 32; 35].

(** [k=] followed by the byte 255 and [v]. *)
Definition text_with_byte_255 : list Z := txt "k=" ++ [255] ++ txt "v".

(** [x=1], [x=2], [x=3] on three lines. *)
Definition duplicate_keys : list Z :=
  txt "x=1" ++ [newline] ++ txt "x=2" ++ [newline] ++ txt "x=3".

(** The lines [k=v] and [x=1], and three streams on them: at the value of
    the first line, as a successful get_value leaves it there (the newline
    pushed back in front of the value), and as a failing get_value leaves
    that one in turn. *)
Definition two_lines : list Z := txt "k=v" ++ [newline] ++ txt "x=1".

Definition stream_at_value : FILE :=
  {| data := two_lines; pos := 2; ahead := skipn 2 two_lines |}.

Definition stream_after_value : FILE :=
  {| data := two_lines; pos := 1; ahead := newline :: skipn 2 two_lines |}.

Definition stream_after_failure : FILE :=
  {| data := two_lines; pos := 1; ahead := skipn 1 two_lines |}.

(** ** Notions for the further properties *)

(** A text without its trailing spaces and tabs. *)
Fixpoint without_trailing_blanks (s : list Z) : list Z :=
  match s with
  | [] => []
  | c :: s' =>
      match without_trailing_blanks s' with
      | [] => if is_blank c then [] else [c]
      | r => c :: r
      end
  end.

(** A text in which every occurrence of the quote [q] is written as a
    backslash followed by [q]. *)
Definition escape (q : Z) (s : list Z) : list Z :=
  flat_map (fun c => if c =? q then [backslash; q] else [c]) s.

(** A text without NUL, carriage return and newline. *)
Definition no_eol (s : list Z) : Prop := Forall (fun c => is_eol c = false) s.

(** The destination starts with the bytes [s]. *)
Definition stored (d : dest) (s : list Z) : Prop :=
  forall k : nat, (k < length s)%nat -> cells d (Z.of_nat k) = nth k s 0.

(** The destination holds the C string [s]: its bytes and then a NUL. *)
Definition holds_string (d : dest) (s : list Z) : Prop :=
  contents d (length s) = s /\ cells d (Z.of_nat (length s)) = 0.

(** What [prev] is after the escaped text of [s] has been scanned inside a
    quoted string: the last byte, or the backslash in front of it when that
    byte is the quote. *)
Definition prev_after (q p : Z) (s : list Z) : Z :=
  fold_left (fun (p c : Z) => if c =? q then backslash else c) s p.

(** A byte as [getc] delivers it. *)
Definition byte (b : Z) : Prop := 0 <= b <= 255.

(** The character that ends the line ahead in a stream: the first of the
    pending bytes that reads, as a [char], as EOF, carriage return or
    newline, and EOF when there is none. *)
Fixpoint line_end (pending : list Z) : Z :=
  match pending with
  | [] => EOF
  | b :: rest => if is_eol_file (to_char b) then to_char b else line_end rest
  end.

(** The same, when the character [ch] has been read already. *)
Definition line_end_from (ch : Z) (pending : list Z) : Z :=
  if is_eol_file ch then ch else line_end pending.

(** The destination holds a C string of length [n] that is free of
    end-of-line characters: a NUL at index [n], and neither NUL nor carriage
    return nor newline in front of it. *)
Definition string_of_length (d : dest) (n : Z) : Prop :=
  cells d n = 0 /\ forall k, 0 <= k < n -> is_eol (cells d k) = false.

(** * Theorems *)

Ltac both_flags cfg := destruct cfg as [[|] [|]].

(** ** C3: the two engines on the same text *)

(** C3 (defect of the code).  On a text that holds the byte 255 the engines
    disagree: the stream engine keeps the result of getc in a char, takes
    the byte for EOF and returns the empty value, while the buffer engine
    returns the two bytes of the value. *)
Theorem engines_disagree_on_byte_255 :
  forall (cfg : config) (init : Z -> Z),
    observe 3 (kv_parse cfg (fopen text_with_byte_255) (txt "k")
                 (fresh init) 100)
      = Some (0, [0; init 1; init 2])
    /\ observe 3 (kv_parse_buffer cfg (as_buffer text_with_byte_255) (txt "k")
                    (fresh init) 100)
      = Some (2, [-1; 118; 0]).
Proof.
  intros cfg init; both_flags cfg; split; reflexivity.
Qed.

(** ** C6: quoted strings on the lines of the test-suite *)

(** C6.  With quoted strings enabled (and either setting of the whitespace
    flag), looking up [path] in a 100-byte destination gives, in both
    engines: [/home/user=data] with length 15 on the quoted line and on the
    line without closing quote, and [/home/Quser=data] (Q the double quote)
    with length 16 on the line with an escaped quote; the destination is
    NUL-terminated. *)
Theorem quoted_values_of_the_tests :
  forall (ws : bool) (init : Z -> Z),
    let cfg := Config ws true in
    observe 16 (kv_parse_buffer cfg quoted_line (txt "path") (fresh init) 100)
      = Some (15, txt "/home/user=data" ++ [0])
    /\ observe 16 (kv_parse cfg (fopen quoted_line) (txt "path") (fresh init) 100)
      = Some (15, txt "/home/user=data" ++ [0])
    /\ observe 16 (kv_parse_buffer cfg unterminated_line (txt "path")
                    (fresh init) 100)
      = Some (15, txt "/home/user=data" ++ [0])
    /\ observe 16 (kv_parse cfg (fopen unterminated_line) (txt "path")
                    (fresh init) 100)
      = Some (15, txt "/home/user=data" ++ [0])
    /\ observe 17 (kv_parse_buffer cfg escaped_line (txt "path") (fresh init) 100)
      = Some (16, txt "/home/" ++ [double_quote] ++ txt "user=data" ++ [0])
    /\ observe 17 (kv_parse cfg (fopen escaped_line) (txt "path") (fresh init) 100)
      = Some (16, txt "/home/" ++ [double_quote] ++ txt "user=data" ++ [0]).
Proof.
  intros ws init; destruct ws; repeat split; reflexivity.
Qed.

(** ** C8: where a quoted value closes *)

(** C8 (defect of the code).  In [q a \ q q b q ...] the second quote after
    the backslash is preceded by a quote, not by a backslash, so the words
    of the specification close the value there and give [a q]; both engines
    still have the backslash in [prev], treat that quote as escaped too and
    return [a q b], closing only at the third quote. *)
Theorem quote_after_escaped_quote_is_not_closing :
  forall (ws : bool) (init : Z -> Z),
    let cfg := Config ws true in
    spec_closing_quote double_quote double_quote after_escaped_quote = Some 3%nat
    /\ spec_quoted_value double_quote after_escaped_quote
      = Some [97; double_quote]
    /\ view 4 (kv_parse_buffer_get_value cfg
                 (double_quote :: after_escaped_quote) (fresh init) 100)
      = (ClosingQuote, 3, [97; double_quote; 98; 0])
    /\ file_view 4 (kv_parse_get_value cfg
                      (fopen (double_quote :: after_escaped_quote))
                      (fresh init) 100)
      = Some (ClosingQuote, 3, fopen (double_quote :: after_escaped_quote),
              [97; double_quote; 98; 0]).
Proof.
  intros ws init; destruct ws; repeat split; reflexivity.
Qed.

(** ** Basic facts about the embedding *)

Lemma to_size_small (i : Z) : 0 <= i < size_modulus -> to_size i = i.
Proof. unfold to_size; intros H; apply Z.mod_small; exact H. Qed.

Lemma loop_guard (C i : Z) :
  1 <= C < size_modulus -> 0 <= i <= C - 1 ->
  (to_size i <? to_size (C - 1)) = (i <? C - 1).
Proof.
  intros HC Hi; rewrite !to_size_small by lia; reflexivity.
Qed.

Lemma cells_store_same (d : dest) (i v : Z) : cells (store d i v) i = v.
Proof. simpl; rewrite Z.eqb_refl; reflexivity. Qed.

Lemma cells_store_other (d : dest) (i j v : Z) :
  j <> i -> cells (store d i v) j = cells d j.
Proof. intros H; simpl; apply Z.eqb_neq in H; rewrite H; reflexivity. Qed.

Lemma buffer_value_loop_eq cfg C str i q p d :
  buffer_value_loop cfg C str i q p d =
  if negb (to_size i <? to_size (C - 1)) then value_too_large d
  else
    match str with
    | [] => value_end_of_line cfg i d
    | c :: str' =>
        if is_eol c then value_end_of_line cfg i d
        else if quoted_strings cfg && (q =? 0) && is_quote c then
          buffer_value_loop cfg C str' i c p d
        else if quoted_strings cfg && negb (q =? 0)
                && negb (p =? backslash) && (c =? q) then
          (ClosingQuote, to_size i, store d i 0)
        else if quoted_strings cfg && negb (q =? 0)
                && (p =? backslash) && (c =? q) then
          buffer_value_loop cfg C str' i q p
            (store d (i - 1) (if c =? 0 then 0 else c))
        else
          buffer_value_loop cfg C str' (i + 1) q
            (if quoted_strings cfg then c else p)
            (store d i (if c =? 0 then 0 else c))
    end.
Proof. destruct str; reflexivity. Qed.

Lemma buffer_section_loop_eq C str i d :
  buffer_section_loop C str i d =
  if negb (to_size i <? to_size (C - 1)) then section_too_large d
  else
    match str with
    | [] => section_end_of_line i d
    | c :: str' =>
        if is_eol c then section_end_of_line i d
        else buffer_section_loop C str' (i + 1) (store d i c)
    end.
Proof. destruct str; reflexivity. Qed.

Lemma value_end_of_line_exit cfg i d :
  fst (fst (value_end_of_line cfg i d)) = EndOfLine.
Proof.
  unfold value_end_of_line.
  destruct (if whitespace_skip cfg then trim i (store d i 0)
            else (i, store d i 0)); reflexivity.
Qed.

(** ** Failing extractions (C2) *)

Lemma buffer_value_loop_too_large cfg C :
  forall str i q p d n d',
    buffer_value_loop cfg C str i q p d = (TooLarge, n, d') ->
    n = 0 /\ cells d' 0 = 0.
Proof.
  induction str as [|c str IH]; intros i q p d n d';
    rewrite buffer_value_loop_eq;
    destruct (negb (to_size i <? to_size (C - 1))).
  - intros H; inversion H; subst; split; reflexivity.
  - intros H; pose proof (value_end_of_line_exit cfg i d) as E;
      rewrite H in E; discriminate E.
  - intros H; inversion H; subst; split; reflexivity.
  - destruct (is_eol c).
    + intros H; pose proof (value_end_of_line_exit cfg i d) as E;
        rewrite H in E; discriminate E.
    + destruct (quoted_strings cfg && (q =? 0) && is_quote c); [apply IH|].
      destruct (quoted_strings cfg && negb (q =? 0)
                && negb (p =? backslash) && (c =? q)); [discriminate|].
      destruct (quoted_strings cfg && negb (q =? 0)
                && (p =? backslash) && (c =? q)); apply IH.
Qed.

Lemma section_end_of_line_outcome i d :
  forall e n d',
    section_end_of_line i d = (e, n, d') ->
    (e = MissingBracket /\ n = 0 /\ cells d' 0 = 0) \/ e = SectionFound.
Proof.
  intros e n d'; unfold section_end_of_line.
  destruct (trim i (store d i 0)) as [i1 d2].
  destruct (load d2 (i1 - 1)) as [c d3].
  destruct (negb (c =? close_bracket)); intros H; inversion H; subst.
  - left; repeat split; reflexivity.
  - right; reflexivity.
Qed.

Lemma buffer_section_loop_failure C :
  forall str i d e n d',
    buffer_section_loop C str i d = (e, n, d') ->
    e <> NoOpenBracket /\
    (e = MissingBracket \/ e = SectionTooLarge -> n = 0 /\ cells d' 0 = 0).
Proof.
  induction str as [|c str IH]; intros i d e n d';
    rewrite buffer_section_loop_eq;
    destruct (negb (to_size i <? to_size (C - 1))).
  - intros H; inversion H; subst; split; [discriminate|]; intros _; split; reflexivity.
  - intros H; apply section_end_of_line_outcome in H.
    destruct H as [(-> & -> & H0) | ->]; (split; [discriminate|]).
    + intros _; split; [reflexivity|exact H0].
    + intros [H|H]; discriminate H.
  - intros H; inversion H; subst; split; [discriminate|]; intros _; split; reflexivity.
  - destruct (is_eol c); [|apply IH].
    intros H; apply section_end_of_line_outcome in H.
    destruct H as [(-> & -> & H0) | ->]; (split; [discriminate|]).
    + intros _; split; [reflexivity|exact H0].
    + intros [H|H]; discriminate H.
Qed.

(** *** The stream primitives *)

Lemma getc_data f : data (snd (getc f)) = data f.
Proof. unfold getc; destruct (ahead f); reflexivity. Qed.

Lemma getc_char_data f ch f' : getc_char f = (ch, f') -> data f' = data f.
Proof.
  unfold getc_char; pose proof (getc_data f) as H.
  destruct (getc f) as [v g]; intros E; inversion E; subst; exact H.
Qed.

Lemma fseek_same_data f g p : data g = data f -> 0 <= p -> fseek g p = fseek f p.
Proof.
  intros Hd Hp; unfold fseek.
  assert (E : (p <? 0) = false) by (apply Z.ltb_ge; exact Hp).
  rewrite E, Hd; reflexivity.
Qed.

Lemma fseek_coherent f : coherent f -> fseek f (pos f) = f.
Proof.
  intros [Hp Ha]; unfold fseek.
  assert (E : (pos f <? 0) = false) by (apply Z.ltb_ge; exact Hp).
  rewrite E, <- Ha; destruct f; reflexivity.
Qed.

Lemma fseek_restores f g : coherent f -> data g = data f -> fseek g (pos f) = f.
Proof.
  intros Hc Hd; rewrite (fseek_same_data f g) by (exact Hd || apply Hc).
  apply fseek_coherent; exact Hc.
Qed.

Lemma fseek_data f p : data (fseek f p) = data f.
Proof. unfold fseek; destruct (p <? 0); reflexivity. Qed.

Lemma fopen_coherent bytes : coherent (fopen bytes).
Proof. split; simpl; [lia|reflexivity]. Qed.

(** *** Termination of the stream loops *)

Lemma getc_budget f v f' :
  getc f = (v, f') ->
  (budget v f' <= S (length (ahead f)))%nat.
Proof.
  unfold budget, getc; destruct (ahead f) as [|b rest] eqn:E;
    intros H; inversion H; subst.
  - rewrite E; simpl; lia.
  - simpl; destruct (_ =? EOF); lia.
Qed.

Lemma getc_char_budget f ch f' :
  getc_char f = (ch, f') ->
  (budget ch f' <= S (length (ahead f)))%nat.
Proof.
  unfold budget, getc_char, getc; destruct (ahead f) as [|b rest] eqn:E;
    intros H; inversion H; subst.
  - rewrite E; simpl; lia.
  - simpl; destruct (_ =? EOF); lia.
Qed.

Lemma is_blank_not_eof ch : is_blank ch = true -> (ch =? EOF) = false.
Proof.
  unfold is_blank, EOF; intros H; apply orb_true_iff in H.
  destruct H as [H|H]; apply Z.eqb_eq in H; subst; reflexivity.
Qed.

Lemma not_eol_file_not_eof ch : is_eol_file ch = false -> (ch =? EOF) = false.
Proof.
  unfold is_eol_file; intros H.
  apply orb_false_iff in H; destruct H as [H _].
  apply orb_false_iff in H; destruct H as [H _]; exact H.
Qed.

Lemma file_skip_blank_total :
  forall fuel ch f,
    (budget ch f <= fuel)%nat ->
    exists ch' f',
      file_skip_blank fuel ch f = Some (ch', f') /\
      is_blank ch' = false /\
      data f' = data f /\
      (budget ch' f' <= budget ch f)%nat.
Proof.
  unfold budget; induction fuel as [|k IH]; intros ch f Hb.
  - destruct (ch =? EOF); lia.
  - simpl; destruct (is_blank ch) eqn:B.
    + destruct (getc_char f) as [ch1 f1] eqn:G.
      pose proof (getc_char_budget _ _ _ G) as Hg; unfold budget in Hg.
      rewrite (is_blank_not_eof _ B) in Hb |- *.
      destruct (IH ch1 f1) as (ch' & f' & E & B' & D & L); [lia|].
      exists ch', f'; repeat split; try assumption.
      * rewrite D; eapply getc_char_data; exact G.
      * lia.
    + exists ch, f; repeat split; try assumption; lia.
Qed.

Lemma file_value_loop_total cfg C start :
  forall fuel ch f i q p d,
    (budget ch f <= fuel)%nat ->
    exists r, file_value_loop fuel cfg C start ch f i q p d = Some r.
Proof.
  unfold budget; induction fuel as [|k IH]; intros ch f i q p d Hb.
  - destruct (ch =? EOF); lia.
  - simpl.
    destruct (negb (to_size i <? to_size (C - 1))); [eexists; reflexivity|].
    destruct (is_eol_file ch) eqn:El; [eexists; reflexivity|].
    rewrite (not_eol_file_not_eof _ El) in Hb.
    destruct (getc_char f) as [ch1 f1] eqn:G.
    pose proof (getc_char_budget _ _ _ G) as Hg; unfold budget in Hg.
    destruct (quoted_strings cfg && (q =? EOF) && is_quote ch); [apply IH; lia|].
    destruct (quoted_strings cfg && negb (q =? EOF)
              && negb (p =? backslash) && (ch =? q)); [eexists; reflexivity|].
    destruct (quoted_strings cfg && negb (q =? EOF)
              && (p =? backslash) && (ch =? q)); apply IH; lia.
Qed.

Lemma file_section_loop_total C start :
  forall fuel ch f i d,
    (budget ch f <= fuel)%nat ->
    exists r, file_section_loop fuel C start ch f i d = Some r.
Proof.
  unfold budget; induction fuel as [|k IH]; intros ch f i d Hb.
  - destruct (ch =? EOF); lia.
  - simpl.
    destruct (negb (to_size i <? to_size (C - 1))); [eexists; reflexivity|].
    destruct (is_eol_file ch) eqn:El.
    + destruct (section_end_of_line i d) as [[e n] d']; eexists; reflexivity.
    + rewrite (not_eol_file_not_eof _ El) in Hb.
      destruct (getc f) as [ch1 f1] eqn:G.
      pose proof (getc_budget _ _ _ G) as Hg; unfold budget in Hg.
      apply IH; lia.
Qed.

Lemma file_next_line_loop_total :
  forall fuel ch f,
    (budget ch f <= fuel)%nat ->
    exists r, file_next_line_loop fuel ch f = Some r.
Proof.
  unfold budget; induction fuel as [|k IH]; intros ch f Hb.
  - destruct (ch =? EOF); lia.
  - simpl. destruct (ch =? EOF) eqn:E; [eexists; reflexivity|].
    destruct (getc_char f) as [ch1 f1] eqn:G.
    pose proof (getc_char_budget _ _ _ G) as Hg; unfold budget in Hg.
    destruct (ch =? newline).
    + destruct (ch1 =? EOF); eexists; reflexivity.
    + apply IH; lia.
Qed.

(** Every operation of the stream engine returns: the rounds granted to
    its loops are enough. *)
Lemma kv_parse_next_line_total f line :
  exists r, kv_parse_next_line f line = Some r.
Proof.
  unfold kv_parse_next_line.
  destruct (line =? 0); [eexists; reflexivity|].
  destruct (getc_char f) as [ch f1] eqn:G.
  pose proof (getc_char_budget _ _ _ G) as Hg; unfold budget in Hg.
  apply file_next_line_loop_total; unfold budget, rounds in *; lia.
Qed.

Lemma skip_if_total (b : bool) f ch f1 :
  (budget ch f1 <= S (length (ahead f)))%nat ->
  exists ch' f',
    (if b then file_skip_blank (rounds f) ch f1 else Some (ch, f1))
      = Some (ch', f') /\
    (b = true -> is_blank ch' = false) /\
    data f' = data f1 /\
    (budget ch' f' <= S (length (ahead f)))%nat.
Proof.
  unfold budget; intros Hb; destruct b.
  - destruct (file_skip_blank_total (rounds f) ch f1) as (ch' & f' & E & B & D & L);
      [unfold budget, rounds in *; lia|].
    unfold budget in L.
    exists ch', f'; repeat split; try assumption; try lia. intros _; exact B.
  - exists ch, f1; repeat split; try assumption. discriminate.
Qed.

Lemma kv_parse_get_value_total cfg f d C :
  exists r, kv_parse_get_value cfg f d C = Some r.
Proof.
  unfold kv_parse_get_value.
  destruct (getc_char f) as [ch f1] eqn:G.
  pose proof (getc_char_budget _ _ _ G) as Hg; unfold budget in Hg.
  destruct (skip_if_total (whitespace_skip cfg) f ch f1 Hg)
    as (ch' & f' & -> & _ & _ & L).
  apply file_value_loop_total; unfold budget, rounds in *; lia.
Qed.

Lemma kv_parse_check_section_total f d C :
  exists r, kv_parse_check_section f d C = Some r.
Proof.
  unfold kv_parse_check_section.
  destruct (getc f) as [ch f1] eqn:G.
  pose proof (getc_budget _ _ _ G) as Hg; unfold budget in Hg.
  destruct (negb (ch =? open_bracket)); [eexists; reflexivity|].
  destruct (getc f1) as [ch2 f2] eqn:G2.
  pose proof (getc_budget _ _ _ G2) as Hg2; unfold budget in Hg2.
  apply file_section_loop_total; unfold budget, rounds in *.
  destruct (ch =? EOF); lia.
Qed.

Lemma file_key_loop_budget :
  forall key ch f b ch' f',
    file_key_loop key ch f = (b, (ch', f')) ->
    data f' = data f /\
    (budget ch' f' <= budget ch f)%nat.
Proof.
  unfold budget; induction key as [|k key IH]; intros ch f b ch' f'; simpl.
  - intros H; inversion H; subst; split; [reflexivity|lia].
  - destruct ((ch =? EOF) || (k =? 0)) eqn:E.
    + intros H; inversion H; subst; split; [reflexivity|lia].
    + destruct (negb (ch =? k));
        [intros H; inversion H; subst; split; [reflexivity|lia]|].
      destruct (getc_char f) as [ch1 f1] eqn:G.
      pose proof (getc_char_budget _ _ _ G) as Hg; unfold budget in Hg.
      intros H; apply IH in H; destruct H as [D L].
      apply orb_false_iff in E; destruct E as [E _]; rewrite E.
      split; [rewrite D; eapply getc_char_data; exact G|lia].
Qed.

Lemma kv_parse_check_key_total cfg f key :
  exists r, kv_parse_check_key cfg f key = Some r.
Proof.
  unfold budget.
  unfold kv_parse_check_key.
  destruct (getc_char f) as [ch f1] eqn:G.
  pose proof (getc_char_budget _ _ _ G) as Hg; unfold budget in Hg.
  destruct (skip_if_total (whitespace_skip cfg) f ch f1 Hg)
    as (ch2 & f2 & -> & _ & _ & L2).
  destruct (file_key_loop key ch2 f2) as [[|] [ch3 f3]] eqn:K;
    [|eexists; reflexivity].
  apply file_key_loop_budget in K; destruct K as [_ L3].
  destruct (skip_if_total (whitespace_skip cfg) f ch3 f3)
    as (ch4 & f4 & -> & _ & _ & L4); [lia|].
  destruct (negb (is_delim ch4)); eexists; reflexivity.
Qed.

(** *** Failing extractions of the stream engine *)

Lemma file_value_loop_too_large cfg C start :
  forall fuel ch f i q p d n f' d',
    file_value_loop fuel cfg C start ch f i q p d = Some (TooLarge, n, f', d') ->
    n = 0 /\ cells d' 0 = 0 /\ exists g, data g = data f /\ f' = fseek g start.
Proof.
  induction fuel as [|k IH]; intros ch f i q p d n f' d'; simpl; [discriminate|].
  destruct (negb (to_size i <? to_size (C - 1))).
  { intros H; inversion H; subst; repeat split; exists f; split; reflexivity. }
  destruct (is_eol_file ch).
  { unfold file_value_end_of_line.
    pose proof (value_end_of_line_exit cfg i d) as E.
    destruct (value_end_of_line cfg i d) as [[e n0] d0]; simpl in E; subst e.
    discriminate. }
  destruct (getc_char f) as [ch1 f1] eqn:G.
  pose proof (getc_char_data _ _ _ G) as D.
  assert (Step : forall i q p d,
             file_value_loop k cfg C start ch1 f1 i q p d
               = Some (TooLarge, n, f', d') ->
             n = 0 /\ cells d' 0 = 0 /\
             exists g, data g = data f /\ f' = fseek g start).
  { intros i0 q0 p0 d0 H; apply IH in H.
    destruct H as (Hn & Hc & g & Hg & Hf); repeat split; try assumption.
    exists g; split; [congruence|exact Hf]. }
  destruct (quoted_strings cfg && (q =? EOF) && is_quote ch); [apply Step|].
  destruct (quoted_strings cfg && negb (q =? EOF)
            && negb (p =? backslash) && (ch =? q)); [discriminate|].
  destruct (quoted_strings cfg && negb (q =? EOF)
            && (p =? backslash) && (ch =? q)); apply Step.
Qed.

Lemma file_section_loop_outcome C start :
  forall fuel ch f i d e n f' d',
    file_section_loop fuel C start ch f i d = Some (e, n, f', d') ->
    e <> NoOpenBracket /\
    (exists g, data g = data f /\ f' = fseek g start) /\
    (e = MissingBracket \/ e = SectionTooLarge -> n = 0 /\ cells d' 0 = 0).
Proof.
  induction fuel as [|k IH]; intros ch f i d e n f' d'; simpl; [discriminate|].
  destruct (negb (to_size i <? to_size (C - 1))).
  { intros H; inversion H; subst; split; [discriminate|]; split.
    - exists f; split; reflexivity.
    - intros _; split; reflexivity. }
  destruct (is_eol_file ch).
  { destruct (section_end_of_line i d) as [[e0 n0] d0] eqn:S.
    apply section_end_of_line_outcome in S.
    intros H; inversion H; subst.
    destruct S as [(-> & -> & H0) | ->]; (split; [discriminate|]); split.
    - exists (fseek f start); split; [apply fseek_data|reflexivity].
    - intros _; split; [reflexivity|exact H0].
    - exists f; split; reflexivity.
    - intros [E|E]; discriminate E. }
  destruct (getc f) as [ch1 f1] eqn:G.
  pose proof (getc_data f) as D; rewrite G in D; simpl in D.
  intros H; apply IH in H; destruct H as (H1 & (g & Hg & Hf) & H3).
  split; [exact H1|]; split; [|exact H3].
  exists g; split; [congruence|exact Hf].
Qed.

Lemma file_skip_if_data (b : bool) fuel ch f ch' f' :
  (if b then file_skip_blank fuel ch f else Some (ch, f)) = Some (ch', f') ->
  data f' = data f.
Proof.
  destruct b; [|intros H; inversion H; reflexivity].
  revert ch f; induction fuel as [|k IH]; intros ch f; simpl; [discriminate|].
  destruct (is_blank ch); [|intros H; inversion H; reflexivity].
  destruct (getc_char f) as [ch1 f1] eqn:G.
  intros H; apply IH in H; rewrite H; eapply getc_char_data; exact G.
Qed.

Lemma kv_parse_get_value_too_large cfg f d C n f' d' :
  coherent f ->
  kv_parse_get_value cfg f d C = Some (TooLarge, n, f', d') ->
  n = 0 /\ cells d' 0 = 0 /\ f' = f.
Proof.
  intros Hc; unfold kv_parse_get_value, ftell.
  destruct (getc_char f) as [ch f1] eqn:G.
  pose proof (getc_char_data _ _ _ G) as D1.
  destruct (if whitespace_skip cfg then file_skip_blank (rounds f) ch f1
            else Some (ch, f1)) as [[ch2 f2]|] eqn:S; [|discriminate].
  apply file_skip_if_data in S.
  intros H; apply file_value_loop_too_large in H.
  destruct H as (Hn & H0 & g & Hg & Hf); repeat split; try assumption.
  subst f'; apply fseek_restores; [exact Hc|congruence].
Qed.

Lemma kv_parse_check_section_outcome f d C e n f' d' :
  coherent f ->
  kv_parse_check_section f d C = Some (e, n, f', d') ->
  f' = f /\
  (e = MissingBracket \/ e = SectionTooLarge -> n = 0 /\ cells d' 0 = 0) /\
  (e = NoOpenBracket -> n = 0 /\ d' = d).
Proof.
  intros Hc; unfold kv_parse_check_section, ftell.
  destruct (getc f) as [ch f1] eqn:G.
  pose proof (getc_data f) as D1; rewrite G in D1; simpl in D1.
  destruct (negb (ch =? open_bracket)).
  - intros H; inversion H; subst; split; [|split].
    + apply fseek_restores; assumption.
    + intros [E|E]; discriminate E.
    + intros _; split; reflexivity.
  - destruct (getc f1) as [ch2 f2] eqn:G2.
    pose proof (getc_data f1) as D2; rewrite G2 in D2; simpl in D2.
    intros H; apply file_section_loop_outcome in H.
    destruct H as (H1 & (g & Hg & Hf) & H3); split; [|split].
    + subst f'; apply fseek_restores; [exact Hc|congruence].
    + exact H3.
    + intros E; contradiction.
Qed.

(** C2, as the code has it.  get_value that leaves through the too-large
    exit, and check_section that finds no closing bracket or a section too
    large, return 0 with the first destination byte zero; check_section on a
    line that does not start with an opening bracket returns 0 and leaves
    the destination as it was.  The buffer engine receives its pointer by
    value, so the caller's cursor cannot move; the stream engine always
    returns, and on a coherent stream each of these exits leaves the stream
    exactly as it was before the call. *)
Theorem failed_extraction_clears_and_restores :
  forall (cfg : config) (str : list Z) (f : FILE) (d : dest) (C : Z),
    (forall n d',
        kv_parse_buffer_get_value cfg str d C = (TooLarge, n, d') ->
        n = 0 /\ cells d' 0 = 0)
    /\ (forall e n d',
          kv_parse_buffer_check_section str d C = (e, n, d') ->
          (e = MissingBracket \/ e = SectionTooLarge -> n = 0 /\ cells d' 0 = 0)
          /\ (e = NoOpenBracket -> n = 0 /\ d' = d))
    /\ (exists r, kv_parse_get_value cfg f d C = Some r)
    /\ (exists r, kv_parse_check_section f d C = Some r)
    /\ (coherent f ->
        forall n f' d',
          kv_parse_get_value cfg f d C = Some (TooLarge, n, f', d') ->
          n = 0 /\ cells d' 0 = 0 /\ f' = f)
    /\ (coherent f ->
        forall e n f' d',
          kv_parse_check_section f d C = Some (e, n, f', d') ->
          f' = f
          /\ (e = MissingBracket \/ e = SectionTooLarge -> n = 0 /\ cells d' 0 = 0)
          /\ (e = NoOpenBracket -> n = 0 /\ d' = d)).
Proof.
  intros cfg str f d C.
  split; [|split; [|split; [|split; [|split]]]].
  - intros n d' H; eapply buffer_value_loop_too_large; exact H.
  - intros e n d'; unfold kv_parse_buffer_check_section.
    destruct (negb (deref str =? open_bracket)); intros H.
    + inversion H; subst; split; [intros [E|E]; discriminate E|].
      intros _; split; reflexivity.
    + apply buffer_section_loop_failure in H; destruct H as [H1 H2].
      split; [exact H2|intros E; contradiction].
  - apply kv_parse_get_value_total.
  - apply kv_parse_check_section_total.
  - intros Hc n f' d' H; eapply kv_parse_get_value_too_large; eassumption.
  - intros Hc e n f' d' H; eapply kv_parse_check_section_outcome; eassumption.
Qed.

(** The theorem at work: a nine-byte value in a nine-byte destination, in
    the buffer and in the stream engine. *)
Lemma failed_extraction_witness :
  coherent (fopen (txt "longvalue"))
  /\ (exists d',
        kv_parse_buffer_get_value (Config true true) (txt "longvalue") zeroed 9
          = (TooLarge, 0, d') /\ cells d' 0 = 0)
  /\ (exists d',
        kv_parse_get_value (Config true true) (fopen (txt "longvalue")) zeroed 9
          = Some (TooLarge, 0, fopen (txt "longvalue"), d') /\ cells d' 0 = 0).
Proof.
  pose proof (failed_extraction_clears_and_restores
                (Config true true) (txt "longvalue")
                (fopen (txt "longvalue")) zeroed 9) as (Hb & _ & _ & _ & Hf & _).
  split; [apply fopen_coherent|]; split.
  - eexists; split; [reflexivity|].
    eapply Hb; reflexivity.
  - eexists; split; [reflexivity|].
    eapply (Hf (fopen_coherent _)); reflexivity.
Defined.

(** C2 as stated fails.  On a line that does not start with an opening
    bracket check_section fails (returns 0, stream back at the line start)
    without touching the destination, whose first byte keeps the value 65 it
    had before the call.  And a stream with a pushed-back byte - as a
    successful get_value leaves it - is not where it was after a failing
    get_value: the seek drops the pushed-back newline. *)
Lemma check_section_without_bracket_keeps_destination :
  (let '(e, n, d') :=
     kv_parse_buffer_check_section (txt "key=value") (fresh (fun _ => 65)) 100 in
   e = NoOpenBracket /\ n = 0 /\ cells d' 0 = 65 /\ cells d' 0 <> 0)
  /\ file_view 1 (kv_parse_check_section (fopen (txt "key=value"))
                    (fresh (fun _ => 65)) 100)
     = Some (NoOpenBracket, 0, fopen (txt "key=value"), [65])
  /\ kv_parse_check_key (Config true true) (fopen two_lines) (txt "k")
     = Some (true, stream_at_value)
  /\ file_view 2 (kv_parse_get_value (Config true true) stream_at_value zeroed 100)
     = Some (EndOfLine, 1, stream_after_value, txt "v" ++ [0])
  /\ file_view 1 (kv_parse_get_value (Config true true) stream_after_value
                    zeroed 1)
     = Some (TooLarge, 0, stream_after_failure, [0])
  /\ stream_after_failure <> stream_after_value.
Proof.
  split; [simpl; repeat split; discriminate|].
  repeat split; try reflexivity.
  discriminate.
Qed.

(** ** Accesses to the destination (C4) *)

Ltac bounds := unfold in_bounds; simpl; lia.

Section Bounds.

(** A destination of at least one byte, of a size a [size_t] can hold. *)
Variable C : Z.
Hypothesis HC : 1 <= C < size_modulus.

Lemma trim_loop_bounds :
  forall fuel i d,
    i <= C -> Forall (in_bounds C) (trace d) ->
    Forall (in_bounds C) (trace (snd (trim_loop fuel i d)))
    /\ fst (trim_loop fuel i d) <= i
    /\ (0 <= i -> 0 <= fst (trim_loop fuel i d)).
Proof.
  induction fuel as [|k IH]; intros i d Hi Ht; simpl.
  - repeat split; [exact Ht|lia|tauto].
  - destruct (0 <? i) eqn:P; [|simpl; repeat split; [exact Ht|lia|tauto]].
    apply Z.ltb_lt in P.
    destruct (is_blank (cells d (i - 1))).
    + destruct (IH (i - 1)
                  (store {| cells := cells d; trace := Rd (i - 1) :: trace d |}
                     (i - 1) 0)) as (H1 & H2 & H3).
      * lia.
      * simpl; repeat constructor; try bounds; exact Ht.
      * repeat split; [exact H1|lia|intros _; apply H3; lia].
    + simpl; repeat split; [|lia|tauto].
      constructor; [bounds|exact Ht].
Qed.

Lemma value_end_of_line_bounds cfg i d :
  0 <= i <= C - 2 ->
  Forall (in_bounds C) (trace d) ->
  Forall (in_bounds C) (trace (snd (value_end_of_line cfg i d)))
  /\ 0 <= snd (fst (value_end_of_line cfg i d)) <= C - 2.
Proof.
  intros Hi Ht; unfold value_end_of_line.
  assert (Hs : Forall (in_bounds C) (trace (store d i 0)))
    by (simpl; constructor; [bounds|exact Ht]).
  destruct (whitespace_skip cfg).
  - unfold trim.
    destruct (trim_loop_bounds (Z.to_nat i) i (store d i 0)) as (H1 & H2 & H3);
      [lia|exact Hs|].
    destruct (trim_loop (Z.to_nat i) i (store d i 0)) as [i' d2]; simpl in *.
    split; [exact H1|]. rewrite to_size_small; lia.
  - simpl; split; [exact Hs|]. rewrite to_size_small; lia.
Qed.

Lemma guard_passed i :
  0 <= i <= C - 1 ->
  negb (to_size i <? to_size (C - 1)) = false -> i <= C - 2.
Proof.
  intros Hi H; rewrite loop_guard in H by assumption.
  apply negb_false_iff, Z.ltb_lt in H; lia.
Qed.

Lemma escape_branch (b : bool) (q p c z : Z) :
  b && negb (q =? z) && (p =? backslash) && (c =? q) = true ->
  b = true /\ p = backslash.
Proof.
  intros H; repeat (apply andb_true_iff in H; destruct H as [H ?]).
  split; [assumption|]; apply Z.eqb_eq; assumption.
Qed.

Lemma buffer_value_loop_bounds cfg :
  forall str i q p d,
    0 <= i <= C - 1 ->
    (quoted_strings cfg = true -> p = backslash -> 1 <= i) ->
    Forall (in_bounds C) (trace d) ->
    Forall (in_bounds C) (trace (snd (buffer_value_loop cfg C str i q p d)))
    /\ 0 <= snd (fst (buffer_value_loop cfg C str i q p d)) <= Z.max 0 (C - 2).
Proof.
  induction str as [|c str IH]; intros i q p d Hi Hp Ht;
    rewrite buffer_value_loop_eq;
    destruct (negb (to_size i <? to_size (C - 1))) eqn:G;
    try (simpl; split; [constructor; [bounds|exact Ht]|lia]);
    apply guard_passed in G; try assumption.
  - destruct (value_end_of_line_bounds cfg i d) as [H1 H2]; [lia|exact Ht|].
    split; [exact H1|lia].
  - destruct (is_eol c).
    { destruct (value_end_of_line_bounds cfg i d) as [H1 H2]; [lia|exact Ht|].
      split; [exact H1|lia]. }
    destruct (quoted_strings cfg && (q =? 0) && is_quote c).
    { apply IH; assumption. }
    destruct (quoted_strings cfg && negb (q =? 0)
              && negb (p =? backslash) && (c =? q)).
    { simpl; split; [constructor; [bounds|exact Ht]|].
      rewrite to_size_small; lia. }
    destruct (quoted_strings cfg && negb (q =? 0)
              && (p =? backslash) && (c =? q)) eqn:E.
    { apply escape_branch in E; destruct E as [Eq Ep].
      specialize (Hp Eq Ep).
      apply IH; [lia|intros _ _; exact Hp|].
      simpl; constructor; [bounds|exact Ht]. }
    apply IH; [lia|intros _ _; lia|].
    simpl; constructor; [bounds|exact Ht].
Qed.

Lemma file_value_loop_bounds cfg start :
  forall fuel ch f i q p d e n f' d',
    0 <= i <= C - 1 ->
    (quoted_strings cfg = true -> p = backslash -> 1 <= i) ->
    Forall (in_bounds C) (trace d) ->
    file_value_loop fuel cfg C start ch f i q p d = Some (e, n, f', d') ->
    Forall (in_bounds C) (trace d') /\ 0 <= n <= Z.max 0 (C - 2).
Proof.
  induction fuel as [|k IH]; intros ch f i q p d e n f' d' Hi Hp Ht;
    simpl; [discriminate|].
  destruct (negb (to_size i <? to_size (C - 1))) eqn:G.
  { intros H; inversion H; subst; simpl.
    split; [constructor; [bounds|exact Ht]|lia]. }
  apply guard_passed in G; try assumption.
  destruct (is_eol_file ch).
  { unfold file_value_end_of_line.
    destruct (value_end_of_line_bounds cfg i d) as [H1 H2]; [lia|exact Ht|].
    destruct (value_end_of_line cfg i d) as [[e0 n0] d0]; simpl in *.
    intros H; inversion H; subst; split; [exact H1|lia]. }
  destruct (getc_char f) as [ch1 f1].
  destruct (quoted_strings cfg && (q =? EOF) && is_quote ch).
  { apply IH; assumption. }
  destruct (quoted_strings cfg && negb (q =? EOF)
            && negb (p =? backslash) && (ch =? q)).
  { intros H; inversion H; subst; simpl.
    split; [constructor; [bounds|exact Ht]|].
    rewrite to_size_small; lia. }
  destruct (quoted_strings cfg && negb (q =? EOF)
            && (p =? backslash) && (ch =? q)) eqn:E.
  { apply escape_branch in E; destruct E as [Eq Ep].
    specialize (Hp Eq Ep).
    apply IH; [lia|intros _ _; exact Hp|].
    simpl; constructor; [bounds|exact Ht]. }
  apply IH; [lia|intros _ _; lia|].
  simpl; constructor; [bounds|exact Ht].
Qed.

Lemma trim_loop_stops :
  forall fuel i d k,
    0 <= k < i -> is_blank (cells d k) = false ->
    k < fst (trim_loop fuel i d).
Proof.
  induction fuel as [|n IH]; intros i d k Hk Hb; simpl; [lia|].
  destruct (0 <? i); [|simpl; lia].
  destruct (is_blank (cells d (i - 1))) eqn:B; [|simpl; lia].
  assert (Hne : k <> i - 1) by (intros ->; congruence).
  apply IH; [lia|].
  simpl. apply Z.eqb_neq in Hne; rewrite Hne; exact Hb.
Qed.

Lemma section_end_of_line_bounds i d k :
  0 <= k < i -> i <= C - 1 -> is_blank (cells d k) = false ->
  Forall (in_bounds C) (trace d) ->
  Forall (in_bounds C) (trace (snd (section_end_of_line i d))).
Proof.
  intros Hk Hi Hb Ht; unfold section_end_of_line, trim.
  assert (Hs : Forall (in_bounds C) (trace (store d i 0)))
    by (simpl; constructor; [bounds|exact Ht]).
  assert (Hb' : is_blank (cells (store d i 0) k) = false).
  { rewrite cells_store_other by lia; exact Hb. }
  pose proof (trim_loop_stops (Z.to_nat i) i (store d i 0) k Hk Hb') as Hstop.
  destruct (trim_loop_bounds (Z.to_nat i) i (store d i 0)) as (H1 & H2 & _);
    [lia|exact Hs|].
  destruct (trim_loop (Z.to_nat i) i (store d i 0)) as [i1 d2]; simpl in *.
  destruct (negb (cells d2 (i1 - 1) =? close_bracket)); simpl;
    repeat (constructor; [bounds|]); exact H1.
Qed.

Lemma buffer_section_loop_bounds :
  forall str i d,
    0 <= i <= C - 1 ->
    Forall (in_bounds C) (trace d) ->
    (exists k, 0 <= k < i /\ is_blank (cells d k) = false)
    \/ blank_line str = false ->
    Forall (in_bounds C) (trace (snd (buffer_section_loop C str i d))).
Proof.
  induction str as [|c str IH]; intros i d Hi Ht Hinv;
    rewrite buffer_section_loop_eq;
    destruct (negb (to_size i <? to_size (C - 1))) eqn:G;
    try (simpl; constructor; [bounds|exact Ht]);
    apply guard_passed in G; try assumption.
  - destruct Hinv as [(k & Hk & Hb)|Hbl]; [|discriminate Hbl].
    apply (section_end_of_line_bounds i d k); try assumption; lia.
  - unfold blank_line in Hinv; simpl in Hinv.
    destruct (is_eol c).
    + destruct Hinv as [(k & Hk & Hb)|Hbl]; [|discriminate Hbl].
      apply (section_end_of_line_bounds i d k); try assumption; lia.
    + apply IH; [lia|simpl; constructor; [bounds|exact Ht]|].
      destruct Hinv as [(k & Hk & Hb)|Hbl].
      * left; exists k; split; [lia|].
        rewrite cells_store_other by lia; exact Hb.
      * simpl in Hbl; apply andb_false_iff in Hbl; destruct Hbl as [Hc|Hr].
        -- left; exists i; split; [lia|].
           rewrite cells_store_same; exact Hc.
        -- right; exact Hr.
Qed.

Lemma file_section_loop_bounds start :
  forall fuel ch f i d e n f' d',
    0 <= i <= C - 1 ->
    Forall (in_bounds C) (trace d) ->
    (exists k, 0 <= k < i /\ is_blank (cells d k) = false)
    \/ file_blank_line (ch :: ahead f) = false ->
    file_section_loop fuel C start ch f i d = Some (e, n, f', d') ->
    Forall (in_bounds C) (trace d').
Proof.
  induction fuel as [|m IH]; intros ch f i d e n f' d' Hi Ht Hinv;
    simpl; [discriminate|].
  destruct (negb (to_size i <? to_size (C - 1))) eqn:G.
  { intros H; inversion H; subst; simpl; constructor; [bounds|exact Ht]. }
  apply guard_passed in G; try assumption.
  unfold file_blank_line in Hinv; simpl in Hinv.
  destruct (is_eol_file ch) eqn:El.
  { destruct Hinv as [(k & Hk & Hb)|Hbl]; [|discriminate Hbl].
    pose proof (section_end_of_line_bounds i d k) as Hs.
    destruct (section_end_of_line i d) as [[e0 n0] d0]; simpl in Hs.
    intros H; inversion H; subst; apply Hs; try assumption; lia. }
  rewrite (not_eol_file_not_eof _ El).
  destruct (getc f) as [ch1 f1] eqn:Gc.
  apply IH; [lia|simpl; constructor; [bounds|exact Ht]|].
  destruct Hinv as [(k & Hk & Hb)|Hbl].
  - left; exists k; split; [lia|].
    rewrite cells_store_other by lia; exact Hb.
  - simpl in Hbl; apply andb_false_iff in Hbl; destruct Hbl as [Hc|Hr].
    + left; exists i; split; [lia|].
      rewrite cells_store_same; exact Hc.
    + right; unfold file_blank_line.
      revert Gc; unfold getc; destruct (ahead f) as [|b rest];
        intros Gc; inversion Gc; subst; simpl in *; [discriminate Hr|exact Hr].
Qed.

End Bounds.

(** C4, as the code has it.  For every capacity C from 1 up to
    [int_max + 1], the range in which the [int] index of the copy loops
    cannot overflow, get_value touches the destination only at offsets
    0..C-1 and returns a length of at most C-1, in both engines; so at most
    C-1 bytes of content and a terminator are written.  check_section
    touches the destination only at offsets 0..C-1 on every line whose text
    after the opening bracket is not blank.  (What check_section does on a
    blank interior is the subject of C9.) *)
Theorem accesses_stay_within_capacity :
  forall (cfg : config) (str : list Z) (f : FILE) (init : Z -> Z) (C : Z),
    1 <= C <= int_max + 1 ->
    (Forall (in_bounds C)
       (trace (snd (kv_parse_buffer_get_value cfg str (fresh init) C)))
     /\ 0 <= snd (fst (kv_parse_buffer_get_value cfg str (fresh init) C))
          <= C - 1)
    /\ (exists e n f' d',
           kv_parse_get_value cfg f (fresh init) C = Some (e, n, f', d')
           /\ Forall (in_bounds C) (trace d') /\ 0 <= n <= C - 1)
    /\ (blank_line (tl str) = false ->
        Forall (in_bounds C)
          (trace (snd (kv_parse_buffer_check_section str (fresh init) C))))
    /\ (file_blank_line (tl (ahead f)) = false ->
        exists e n f' d',
          kv_parse_check_section f (fresh init) C = Some (e, n, f', d')
          /\ Forall (in_bounds C) (trace d')).
Proof.
  intros cfg str f init C Hint.
  assert (HC : 1 <= C < size_modulus)
    by (unfold int_max, size_modulus in *; lia).
  split; [|split; [|split]].
  - unfold kv_parse_buffer_get_value.
    destruct (buffer_value_loop_bounds C HC cfg
                (if whitespace_skip cfg then buffer_skip_blank str else str)
                0 0 0 (fresh init)) as [Ht Hn].
    + lia.
    + intros _ E; discriminate E.
    + constructor.
    + split; [exact Ht|lia].
  - destruct (kv_parse_get_value_total cfg f (fresh init) C) as [[[[e n] f'] d'] E].
    exists e, n, f', d'; split; [exact E|].
    revert E; unfold kv_parse_get_value.
    destruct (getc_char f) as [ch f1].
    destruct (if whitespace_skip cfg then file_skip_blank (rounds f) ch f1
              else Some (ch, f1)) as [[ch2 f2]|]; [|discriminate].
    intros E.
    assert (B : Forall (in_bounds C) (trace d') /\ 0 <= n <= Z.max 0 (C - 2)).
    { revert E; apply file_value_loop_bounds; try assumption; try lia.
      - intros _ E0; discriminate E0.
      - constructor. }
    destruct B as [Ht Hn]; split; [exact Ht|lia].
  - intros Hbl; unfold kv_parse_buffer_check_section.
    destruct (negb (deref str =? open_bracket)); [constructor|].
    apply buffer_section_loop_bounds; try assumption; try lia.
    + constructor.
    + right; exact Hbl.
  - intros Hbl.
    destruct (kv_parse_check_section_total f (fresh init) C) as [[[[e n] f'] d'] E].
    exists e, n, f', d'; split; [exact E|].
    revert E; unfold kv_parse_check_section.
    destruct (getc f) as [ch f1] eqn:G1.
    destruct (negb (ch =? open_bracket)).
    { intros H; inversion H; subst; constructor. }
    destruct (getc f1) as [ch2 f2] eqn:G2.
    apply file_section_loop_bounds; try assumption; try lia.
    + constructor.
    + right; revert Hbl G1 G2; unfold getc, file_blank_line.
      destruct (ahead f) as [|b rest]; intros Hbl G1; inversion G1; subst; simpl.
      * discriminate Hbl.
      * simpl in Hbl. destruct rest as [|b2 rest2]; intros G2; inversion G2; subst.
        -- discriminate Hbl.
        -- exact Hbl.
Qed.

(** The theorem at work on the section line of the tests and an
    eleven-byte destination. *)
Lemma accesses_within_capacity_witness :
  Forall (in_bounds 11)
    (trace (snd (kv_parse_buffer_get_value (Config true true) (txt "[section1]")
                   zeroed 11)))
  /\ Forall (in_bounds 11)
       (trace (snd (kv_parse_buffer_check_section (txt "[section1]") zeroed 11))).
Proof.
  pose proof (accesses_stay_within_capacity (Config true true)
                (txt "[section1]") (fopen (txt "[section1]")) (fun _ => 0) 11)
    as H.
  destruct H as ((H1 & _) & _ & H3 & _); [unfold int_max; lia|].
  split; [exact H1|apply H3; reflexivity].
Defined.

(** C4 as stated fails at capacity 0: [value_max - 1] wraps around, the
    loop runs and both functions write the destination, whose range of
    valid offsets is empty. *)
Lemma zero_capacity_is_written :
  accesses (kv_parse_buffer_get_value (Config true true) (txt "a") zeroed 0)
    = [Wr 0; Wr 1; Rd 0]
  /\ file_accesses (kv_parse_get_value (Config true true) (fopen (txt "a"))
                      zeroed 0)
    = [Wr 0; Wr 1; Rd 0]
  /\ accesses (kv_parse_buffer_check_section (txt "[a]") zeroed 0)
    = [Wr 0; Wr 1; Wr 2; Rd 1; Rd 1; Wr 1]
  /\ file_accesses (kv_parse_check_section (fopen (txt "[a]")) zeroed 0)
    = [Wr 0; Wr 1; Wr 2; Rd 1; Rd 1; Wr 1]
  /\ ~ in_bounds 0 (Wr 0).
Proof.
  repeat split; try reflexivity.
  unfold in_bounds; simpl; lia.
Qed.

(** ** Key matching in the buffer engine (C7, C10) *)

Lemma is_delim_not_blank c : is_delim c = true -> is_blank c = false.
Proof.
  unfold is_delim, is_blank; intros H; apply orb_true_iff in H.
  destruct H as [H|H]; apply Z.eqb_eq in H; subst; reflexivity.
Qed.

Lemma is_blank_not_nul c : is_blank c = true -> c <> 0.
Proof.
  unfold is_blank; intros H; apply orb_true_iff in H.
  destruct H as [H|H]; apply Z.eqb_eq in H; subst; discriminate.
Qed.

Lemma buffer_skip_blank_app w s :
  blanks w -> buffer_skip_blank (w ++ s) = buffer_skip_blank s.
Proof.
  induction 1 as [|c w Hc _ IH]; [reflexivity|].
  simpl; rewrite Hc; exact IH.
Qed.

Lemma buffer_skip_blank_stable s :
  is_blank (deref s) = false -> buffer_skip_blank s = s.
Proof.
  destruct s as [|c s]; simpl; [reflexivity|]; intros ->; reflexivity.
Qed.

Lemma buffer_skip_blank_head s : is_blank (deref (buffer_skip_blank s)) = false.
Proof.
  induction s as [|c s IH]; simpl; [reflexivity|].
  destruct (is_blank c) eqn:B; [exact IH|exact B].
Qed.

Lemma buffer_skip_blank_split s :
  exists w, s = w ++ buffer_skip_blank s /\ blanks w.
Proof.
  induction s as [|c s (w & E & Hw)]; simpl.
  - exists []; split; [reflexivity|constructor].
  - destruct (is_blank c) eqn:B.
    + exists (c :: w); split; [simpl; congruence|constructor; assumption].
    + exists []; split; [reflexivity|constructor].
Qed.

Lemma buffer_key_loop_app key s :
  c_string key -> buffer_key_loop (key ++ s) key = Some s.
Proof.
  induction 1 as [|k key Hk _ IH]; [reflexivity|].
  simpl. apply Z.eqb_neq in Hk; rewrite Hk, Z.eqb_refl; simpl; exact IH.
Qed.

(** The buffer half of C7. *)
Lemma buffer_key_needs_delimiter cfg key w1 w2 t :
  c_string key -> blanks w1 -> blanks w2 ->
  (whitespace_skip cfg = false -> w1 = [] /\ w2 = []) ->
  is_delim (deref t) = false ->
  (whitespace_skip cfg = true -> is_blank (deref t) = false) ->
  kv_parse_buffer_check_key cfg (w1 ++ key ++ w2 ++ t) key = None.
Proof.
  intros Hkey Hw1 Hw2 Hoff Hd Hb; unfold kv_parse_buffer_check_key.
  destruct (whitespace_skip cfg) eqn:W.
  - specialize (Hb eq_refl).
    rewrite buffer_skip_blank_app by exact Hw1.
    destruct key as [|k key].
    + simpl. rewrite buffer_skip_blank_app by exact Hw2.
      rewrite !(buffer_skip_blank_stable t Hb).
      rewrite Hd; reflexivity.
    + destruct (is_blank k) eqn:Bk.
      * (* the key starts with a blank that the leading skip has eaten *)
        pose proof (buffer_skip_blank_head ((k :: key) ++ w2 ++ t)) as Hh.
        remember (buffer_skip_blank ((k :: key) ++ w2 ++ t)) as s eqn:Es.
        simpl. destruct (deref s =? 0) eqn:Z0.
        -- simpl. apply Z.eqb_eq in Z0.
           rewrite buffer_skip_blank_stable by exact Hh.
           rewrite Z0; reflexivity.
        -- assert (Hk0 : (k =? 0) = false)
             by (apply Z.eqb_neq, is_blank_not_nul; exact Bk).
           rewrite Hk0; simpl.
           assert (Hne : (deref s =? k) = false).
           { apply Z.eqb_neq; intros E; rewrite E in Hh; congruence. }
           rewrite Hne; reflexivity.
      * rewrite buffer_skip_blank_stable by exact Bk.
        rewrite buffer_key_loop_app by exact Hkey.
        rewrite buffer_skip_blank_app by exact Hw2.
        rewrite (buffer_skip_blank_stable t Hb).
        rewrite Hd; reflexivity.
  - destruct (Hoff eq_refl) as [-> ->]; simpl.
    rewrite buffer_key_loop_app by exact Hkey.
    rewrite Hd; reflexivity.
Qed.

(** The buffer half of C10. *)
Lemma buffer_check_key_empty cfg line rest :
  kv_parse_buffer_check_key cfg line [] = Some rest <->
  exists w c,
    line = w ++ c :: rest /\ blanks w /\
    (whitespace_skip cfg = false -> w = []) /\ is_delim c = true.
Proof.
  unfold kv_parse_buffer_check_key; simpl; split.
  - destruct (whitespace_skip cfg) eqn:W.
    + rewrite buffer_skip_blank_stable by apply buffer_skip_blank_head.
      destruct (buffer_skip_blank_split line) as (w & E & Hw).
      destruct (buffer_skip_blank line) as [|c s]; simpl; [discriminate|].
      destruct (is_delim c) eqn:D; [|discriminate].
      intros H; inversion H; subst s.
      exists w, c; repeat split; try assumption. discriminate.
    + destruct line as [|c s]; simpl; [discriminate|].
      destruct (is_delim c) eqn:D; [|discriminate].
      intros H; inversion H; subst s.
      exists [], c; repeat split; try assumption. constructor.
  - intros (w & c & -> & Hw & Hoff & D).
    destruct (whitespace_skip cfg).
    + rewrite buffer_skip_blank_app by exact Hw.
      assert (Hc : is_blank (deref (c :: rest)) = false)
        by (simpl; apply is_delim_not_blank; exact D).
      rewrite !(buffer_skip_blank_stable (c :: rest) Hc).
      simpl; rewrite D; reflexivity.
    + rewrite (Hoff eq_refl); simpl; rewrite D; reflexivity.
Qed.

(** ** Key matching in the stream engine (C7, C10) *)

Lemma getc_char_reading d p l :
  getc_char {| data := d; pos := p; ahead := l |} = reading d p l.
Proof. destruct l; reflexivity. Qed.

Lemma reading_peek d p l ch f : reading d p l = (ch, f) -> ch = peek l.
Proof. destruct l; intros H; inversion H; reflexivity. Qed.

Lemma reading_data d p l ch f : reading d p l = (ch, f) -> data f = d.
Proof. destruct l; intros H; inversion H; reflexivity. Qed.

Lemma file_skip_blank_stable fuel ch f :
  is_blank ch = false -> file_skip_blank (S fuel) ch f = Some (ch, f).
Proof. intros H; simpl; rewrite H; reflexivity. Qed.

Lemma file_skip_run :
  forall w fuel d p s ch f,
    reading d p (w ++ s) = (ch, f) ->
    file_blanks w -> is_blank (peek s) = false ->
    (length w + 1 <= fuel)%nat ->
    file_skip_blank fuel ch f = Some (reading d (p + Z.of_nat (length w)) s).
Proof.
  induction w as [|b w IH]; intros fuel d p s ch f R Hw Hs Hf.
  - destruct fuel as [|k]; [simpl in Hf; lia|].
    simpl in R |- *. rewrite Z.add_0_r, R.
    rewrite (reading_peek _ _ _ _ _ R), Hs; reflexivity.
  - destruct fuel as [|k]; [simpl in Hf; lia|].
    inversion Hw as [|? ? Hb Hw']; subst.
    simpl in R; inversion R; subst; clear R.
    simpl file_skip_blank; rewrite Hb, getc_char_reading.
    destruct (reading d (p + 1) (w ++ s)) as [ch1 f1] eqn:R1.
    rewrite (IH k d (p + 1) s ch1 f1 R1 Hw' Hs) by (simpl in Hf; lia).
    f_equal; f_equal. simpl length; rewrite Nat2Z.inj_succ; lia.
Qed.

Lemma file_split_blanks l :
  exists w s, l = w ++ s /\ file_blanks w /\ is_blank (peek s) = false.
Proof.
  induction l as [|b l (w & s & E & Hw & Hs)].
  - exists [], []; repeat split; constructor.
  - destruct (is_blank (to_char b)) eqn:B.
    + exists (b :: w), s; repeat split; [simpl; congruence| |exact Hs].
      constructor; assumption.
    + exists [], (b :: l); repeat split; [constructor|exact B].
Qed.

Lemma file_key_run :
  forall kb d p s ch f,
    reading d p (kb ++ s) = (ch, f) ->
    c_string (map to_char kb) ->
    exists ch' f',
      file_key_loop (map to_char kb) ch f = (true, (ch', f')) /\
      data f' = d /\
      ((ch', f') = reading d (p + Z.of_nat (length kb)) s \/ ch' = EOF).
Proof.
  induction kb as [|b kb IH]; intros d p s ch f R Hk.
  - simpl in *. exists ch, f; repeat split.
    + eapply reading_data; exact R.
    + left; rewrite Z.add_0_r, R; reflexivity.
  - inversion Hk as [|? ? Hb Hk']; subst.
    simpl in R; inversion R; subst; clear R.
    simpl file_key_loop.
    apply Z.eqb_neq in Hb; rewrite Hb, orb_false_r.
    destruct (to_char b =? EOF) eqn:E.
    + eexists _, _; repeat split.
      right; apply Z.eqb_eq; exact E.
    + rewrite Z.eqb_refl; simpl negb; cbv iota.
      rewrite getc_char_reading.
      destruct (reading d (p + 1) (kb ++ s)) as [ch1 f1] eqn:R1.
      destruct (IH d (p + 1) s ch1 f1 R1 Hk') as (ch' & f' & K & D & Hr).
      exists ch', f'; repeat split; try assumption.
      destruct Hr as [Hr|Hr]; [left|right; exact Hr].
      rewrite Hr; f_equal; simpl length; rewrite Nat2Z.inj_succ; lia.
Qed.

(** A failed key check hands the stream back as it was. *)
Lemma kv_parse_check_key_no_match cfg f key f' :
  coherent f ->
  kv_parse_check_key cfg f key = Some (false, f') -> f' = f.
Proof.
  intros Hc; unfold kv_parse_check_key, ftell.
  destruct (getc_char f) as [ch f1] eqn:G.
  pose proof (getc_char_data _ _ _ G) as D1.
  destruct (if whitespace_skip cfg then file_skip_blank (rounds f) ch f1
            else Some (ch, f1)) as [[ch2 f2]|] eqn:S1; [|discriminate].
  apply file_skip_if_data in S1.
  destruct (file_key_loop key ch2 f2) as [[|] [ch3 f3]] eqn:K;
    apply file_key_loop_budget in K; destruct K as [D3 _].
  - destruct (if whitespace_skip cfg then file_skip_blank (rounds f) ch3 f3
              else Some (ch3, f3)) as [[ch4 f4]|] eqn:S2; [|discriminate].
    apply file_skip_if_data in S2.
    destruct (negb (is_delim ch4)); intros H; inversion H; subst.
    apply fseek_restores; [exact Hc|congruence].
  - intros H; inversion H; subst.
    apply fseek_restores; [exact Hc|congruence].
Qed.

(** The last step of check_key once the key loop is over. *)
Lemma file_check_delimiter (b : bool) fuel d p w t ch f :
  reading d p (w ++ t) = (ch, f) ->
  file_blanks w -> (b = false -> w = []) ->
  (b = true -> is_blank (peek t) = false) ->
  (length w + 1 <= fuel)%nat ->
  (if b then file_skip_blank fuel ch f else Some (ch, f))
    = Some (reading d (p + Z.of_nat (length w)) t).
Proof.
  intros R Hw Hoff Hb Hf; destruct b.
  - eapply file_skip_run; try eassumption. apply Hb; reflexivity.
  - rewrite (Hoff eq_refl) in *; simpl in *. rewrite Z.add_0_r, R; reflexivity.
Qed.

Lemma rounds_enough d p w s :
  (length w + 1 <= rounds {| data := d; pos := p; ahead := w ++ s |})%nat.
Proof. unfold rounds; simpl; rewrite length_app; lia. Qed.

(** The stream half of C7, up to the stream that is handed back. *)
Lemma file_check_key_no_delimiter cfg d p kb w1 w2 t :
  c_string (map to_char kb) -> file_blanks w1 -> file_blanks w2 ->
  (whitespace_skip cfg = false -> w1 = [] /\ w2 = []) ->
  is_delim (peek t) = false ->
  (whitespace_skip cfg = true -> is_blank (peek t) = false) ->
  exists f',
    kv_parse_check_key cfg
      {| data := d; pos := p; ahead := w1 ++ kb ++ w2 ++ t |} (map to_char kb)
    = Some (false, f').
Proof.
  intros Hkey Hw1 Hw2 Hoff Hd Hb.
  unfold kv_parse_check_key, ftell; rewrite getc_char_reading; cbn [pos].
  remember {| data := d; pos := p; ahead := w1 ++ kb ++ w2 ++ t |} as f0 eqn:Ef.
  assert (Hr : forall w s, w1 ++ kb ++ w2 ++ t = w ++ s ->
                 (length w + 1 <= rounds f0)%nat).
  { intros w s E; subst f0; rewrite E; apply rounds_enough. }
  destruct (whitespace_skip cfg) eqn:W.
  - specialize (Hb eq_refl).
    assert (Hblank_key :
              forall b kb', kb = b :: kb' -> is_blank (to_char b) = true ->
              exists f',
                (let (ch, f1) := reading d p (w1 ++ kb ++ w2 ++ t) in
                 match file_skip_blank (rounds f0) ch f1 with
                 | None => None
                 | Some (ch, f2) =>
                   match file_key_loop (map to_char kb) ch f2 with
                   | (false, (_, f3)) => Some (false, fseek f3 p)
                   | (true, (ch3, f3)) =>
                     match file_skip_blank (rounds f0) ch3 f3 with
                     | None => None
                     | Some (ch4, f4) =>
                       if negb (is_delim ch4) then Some (false, fseek f4 p)
                       else Some (true, f4)
                     end
                   end
                 end) = Some (false, f')).
    { intros b kb' -> Bb.
      destruct (file_split_blanks (w1 ++ (b :: kb') ++ w2 ++ t))
        as (w & s & E & Hw & Hs).
      specialize (Hr w s E); rewrite E.
      destruct (reading d p (w ++ s)) as [ch f1] eqn:R.
      rewrite (file_skip_run w (rounds f0) d p s ch f1 R Hw Hs Hr).
      destruct (reading d (p + Z.of_nat (length w)) s) as [ch2 f2] eqn:R2.
      pose proof (reading_peek _ _ _ _ _ R2) as P2; rewrite <- P2 in Hs.
      simpl map; simpl file_key_loop.
      assert (Hb0 : (to_char b =? 0) = false)
        by (apply Z.eqb_neq, is_blank_not_nul; exact Bb).
      rewrite Hb0, orb_false_r.
      destruct (ch2 =? EOF) eqn:E2.
      - apply Z.eqb_eq in E2; rewrite E2.
        unfold rounds; simpl; eexists; reflexivity.
      - assert (Hne : (ch2 =? to_char b) = false).
        { apply Z.eqb_neq; intros X; rewrite X in Hs; congruence. }
        rewrite Hne; simpl; eexists; reflexivity. }
    destruct kb as [|b kb'].
    + (* empty key: both runs of blanks are skipped at once *)
      simpl app; simpl map; simpl file_key_loop.
      assert (Hw12 : file_blanks (w1 ++ w2)) by (apply Forall_app; split; assumption).
      destruct (reading d p (w1 ++ w2 ++ t)) as [ch f1] eqn:R.
      rewrite app_assoc in R.
      rewrite (file_skip_run (w1 ++ w2) (rounds f0) d p t ch f1 R Hw12 Hb)
        by (apply (Hr (w1 ++ w2) t); simpl; rewrite app_assoc; reflexivity).
      destruct (reading d (p + Z.of_nat (length (w1 ++ w2))) t) as [ch2 f2] eqn:R2.
      pose proof (reading_peek _ _ _ _ _ R2) as P2.
      unfold rounds; rewrite file_skip_blank_stable by (rewrite P2; exact Hb).
      rewrite P2, Hd; simpl; eexists; reflexivity.
    + destruct (is_blank (to_char b)) eqn:Bb; [eapply Hblank_key; eauto|].
      destruct (reading d p (w1 ++ (b :: kb') ++ w2 ++ t)) as [ch f1] eqn:R.
      rewrite (file_skip_run w1 (rounds f0) d p _ ch f1 R Hw1 Bb)
        by (eapply Hr; reflexivity).
      destruct (reading d (p + Z.of_nat (length w1)) ((b :: kb') ++ w2 ++ t))
        as [ch2 f2] eqn:R2.
      destruct (file_key_run (b :: kb') d _ (w2 ++ t) ch2 f2 R2 Hkey)
        as (ch3 & f3 & K & D3 & [Hfull|Heof]); rewrite K.
      * symmetry in Hfull.
        rewrite (file_skip_run w2 (rounds f0) d _ t ch3 f3 Hfull Hw2 Hb)
          by (subst f0; unfold rounds; cbn [ahead];
              rewrite !length_app; lia).
        destruct (reading d
                    (p + Z.of_nat (length w1) + Z.of_nat (length (b :: kb'))
                     + Z.of_nat (length w2)) t) as [ch4 f4] eqn:R4.
        rewrite (reading_peek _ _ _ _ _ R4), Hd; simpl; eexists; reflexivity.
      * subst ch3; unfold rounds; simpl; eexists; reflexivity.
  - destruct (Hoff eq_refl) as [-> ->]; simpl app.
    destruct (reading d p (kb ++ t)) as [ch f1] eqn:R.
    destruct (file_key_run kb d p t ch f1 R Hkey)
      as (ch3 & f3 & K & D3 & [Hfull|Heof]); rewrite K.
    + symmetry in Hfull.
      rewrite (reading_peek _ _ _ _ _ Hfull), Hd; simpl; eexists; reflexivity.
    + subst ch3; simpl; eexists; reflexivity.
Qed.

(** check_key with the empty key, on a stream whose bytes ahead are blanks
    [w] followed by [t]. *)
Lemma file_check_key_empty_eq cfg d p w t :
  file_blanks w -> (whitespace_skip cfg = false -> w = []) ->
  (whitespace_skip cfg = true -> is_blank (peek t) = false) ->
  kv_parse_check_key cfg {| data := d; pos := p; ahead := w ++ t |} []
  = (if is_delim (peek t)
     then Some (true, snd (reading d (p + Z.of_nat (length w)) t))
     else Some (false, fseek (snd (reading d (p + Z.of_nat (length w)) t)) p)).
Proof.
  intros Hw Hoff Hb.
  unfold kv_parse_check_key, ftell; rewrite getc_char_reading; cbn [pos].
  destruct (reading d p (w ++ t)) as [ch f1] eqn:R.
  rewrite (file_check_delimiter (whitespace_skip cfg) _ d p w t ch f1 R Hw Hoff Hb)
    by apply rounds_enough.
  destruct (reading d (p + Z.of_nat (length w)) t) as [ch2 f2] eqn:R2.
  pose proof (reading_peek _ _ _ _ _ R2) as P2.
  cbn [file_key_loop snd].
  assert (S2 : (if whitespace_skip cfg
                then file_skip_blank
                       (rounds {| data := d; pos := p; ahead := w ++ t |}) ch2 f2
                else Some (ch2, f2)) = Some (ch2, f2)).
  { destruct (whitespace_skip cfg); [|reflexivity].
    unfold rounds; apply file_skip_blank_stable.
    rewrite P2; apply Hb; reflexivity. }
  rewrite S2, P2. destruct (is_delim (peek t)); reflexivity.
Qed.

(** The stream half of C10. *)
Lemma file_check_key_empty cfg f f' :
  kv_parse_check_key cfg f [] = Some (true, f') <->
  exists w c rest,
    ahead f = w ++ c :: rest /\ file_blanks w /\
    (whitespace_skip cfg = false -> w = []) /\
    is_delim (to_char c) = true /\
    f' = {| data := data f; pos := pos f + Z.of_nat (length w) + 1;
            ahead := rest |}.
Proof.
  destruct f as [d p l]; cbn [data pos ahead]; split.
  - assert (Hsplit : exists w t,
               l = w ++ t /\ file_blanks w /\
               (whitespace_skip cfg = false -> w = []) /\
               (whitespace_skip cfg = true -> is_blank (peek t) = false)).
    { destruct (whitespace_skip cfg).
      - destruct (file_split_blanks l) as (w & t & E & Hw & Ht).
        exists w, t; repeat split; try assumption; try discriminate.
        intros _; exact Ht.
      - exists [], l; repeat split; try constructor; try discriminate. }
    destruct Hsplit as (w & t & -> & Hw & Hoff & Hb).
    rewrite (file_check_key_empty_eq cfg d p w t Hw Hoff Hb).
    destruct (is_delim (peek t)) eqn:D; [|discriminate].
    destruct t as [|c rest]; [discriminate D|].
    intros H; inversion H; subst.
    exists w, c, rest; repeat split; assumption.
  - intros (w & c & rest & -> & Hw & Hoff & D & ->).
    rewrite (file_check_key_empty_eq cfg d p w (c :: rest) Hw Hoff)
      by (intros _; apply is_delim_not_blank; exact D).
    cbn [peek]; rewrite D; reflexivity.
Qed.

(** C7.  Whenever the line is the key - after blanks, when whitespace
    skipping is enabled - followed, possibly after blanks again, by
    something that is not a delimiter (another key character as in
    [username] for the key [user], or the end of the line), check_key
    reports no match: the buffer engine returns NULL, the stream engine
    returns false, and a coherent stream is handed back exactly as it was
    on entry. *)
Theorem check_key_requires_delimiter :
  (forall (cfg : config) (key w1 w2 t : list Z),
      c_string key -> blanks w1 -> blanks w2 ->
      (whitespace_skip cfg = false -> w1 = [] /\ w2 = []) ->
      is_delim (deref t) = false ->
      (whitespace_skip cfg = true -> is_blank (deref t) = false) ->
      kv_parse_buffer_check_key cfg (w1 ++ key ++ w2 ++ t) key = None)
  /\ (forall (cfg : config) (f : FILE) (kb w1 w2 t : list Z),
        ahead f = w1 ++ kb ++ w2 ++ t ->
        c_string (map to_char kb) -> file_blanks w1 -> file_blanks w2 ->
        (whitespace_skip cfg = false -> w1 = [] /\ w2 = []) ->
        is_delim (peek t) = false ->
        (whitespace_skip cfg = true -> is_blank (peek t) = false) ->
        exists f',
          kv_parse_check_key cfg f (map to_char kb) = Some (false, f')
          /\ (coherent f -> f' = f)).
Proof.
  split.
  - intros; apply buffer_key_needs_delimiter; assumption.
  - intros cfg f kb w1 w2 t Ha Hkey Hw1 Hw2 Hoff Hd Hb.
    destruct (file_check_key_no_delimiter cfg (data f) (pos f) kb w1 w2 t
                Hkey Hw1 Hw2 Hoff Hd Hb) as [f' E].
    rewrite <- Ha in E.
    assert (Ef : {| data := data f; pos := pos f; ahead := ahead f |} = f)
      by (destruct f; reflexivity).
    rewrite Ef in E.
    exists f'; split; [exact E|].
    intros Hc; eapply kv_parse_check_key_no_match; eassumption.
Qed.

(** The theorem at work: the key [user] on the line [username=admin], and
    the key [key] on the line [ key  x=1] with whitespace skipping. *)
Lemma check_key_requires_delimiter_witness :
  kv_parse_buffer_check_key (Config false true) (txt "username=admin") (txt "user")
    = None
  /\ kv_parse_check_key (Config false true) (fopen (txt "username=admin"))
       (txt "user")
     = Some (false, fopen (txt "username=admin"))
  /\ kv_parse_buffer_check_key (Config true true) (txt " key  x=1") (txt "key")
     = None
  /\ kv_parse_check_key (Config true true) (fopen (txt " key  x=1")) (txt "key")
     = Some (false, fopen (txt " key  x=1")).
Proof.
  destruct check_key_requires_delimiter as [Hb Hf].
  split; [|split; [|split]].
  - apply (Hb (Config false true) (txt "user") [] [] (txt "name=admin")).
    + repeat (constructor; [discriminate|]); constructor.
    + constructor.
    + constructor.
    + intros _; split; reflexivity.
    + reflexivity.
    + discriminate.
  - destruct (Hf (Config false true) (fopen (txt "username=admin"))
                (txt "user") [] [] (txt "name=admin")) as (f' & E & Hc).
    + reflexivity.
    + repeat (constructor; [discriminate|]); constructor.
    + constructor.
    + constructor.
    + intros _; split; reflexivity.
    + reflexivity.
    + discriminate.
    + rewrite <- (Hc (fopen_coherent _)) at 2; exact E.
  - apply (Hb (Config true true) (txt "key") (txt " ") (txt "  ") (txt "x=1")).
    + repeat (constructor; [discriminate|]); constructor.
    + repeat (constructor; [reflexivity|]); constructor.
    + repeat (constructor; [reflexivity|]); constructor.
    + discriminate.
    + reflexivity.
    + reflexivity.
  - destruct (Hf (Config true true) (fopen (txt " key  x=1"))
                (txt "key") (txt " ") (txt "  ") (txt "x=1")) as (f' & E & Hc).
    + reflexivity.
    + repeat (constructor; [discriminate|]); constructor.
    + repeat (constructor; [reflexivity|]); constructor.
    + repeat (constructor; [reflexivity|]); constructor.
    + discriminate.
    + reflexivity.
    + reflexivity.
    + rewrite <- (Hc (fopen_coherent _)) at 2; exact E.
Defined.

(** C10.  With the empty key check_key matches exactly when the first byte
    of the line - the first byte after the blanks, when whitespace skipping
    is enabled - is [=] or [:], and the cursor it hands back is the byte
    after that delimiter.  The stream engine always returns, and a no-match
    leaves a coherent stream as it was.  Nothing rejects the empty key. *)
Theorem empty_key_matches_delimiter :
  forall cfg : config,
    (forall line rest : list Z,
        kv_parse_buffer_check_key cfg line [] = Some rest <->
        exists w c,
          line = w ++ c :: rest /\ blanks w /\
          (whitespace_skip cfg = false -> w = []) /\ is_delim c = true)
    /\ (forall f f' : FILE,
          kv_parse_check_key cfg f [] = Some (true, f') <->
          exists w c rest,
            ahead f = w ++ c :: rest /\ file_blanks w /\
            (whitespace_skip cfg = false -> w = []) /\
            is_delim (to_char c) = true /\
            f' = {| data := data f; pos := pos f + Z.of_nat (length w) + 1;
                    ahead := rest |})
    /\ (forall f : FILE, exists r, kv_parse_check_key cfg f [] = Some r)
    /\ (forall f f' : FILE,
          coherent f -> kv_parse_check_key cfg f [] = Some (false, f') -> f' = f).
Proof.
  intros cfg; split; [|split; [|split]].
  - apply buffer_check_key_empty.
  - apply file_check_key_empty.
  - intros f; apply kv_parse_check_key_total.
  - intros f f'; apply kv_parse_check_key_no_match.
Qed.

(** The theorem at work on the line [  : x] (match, cursor after the colon)
    and on the line [x=1] (no match, stream untouched). *)
Lemma empty_key_witness :
  kv_parse_buffer_check_key (Config true true) (txt "  : x") [] = Some (txt " x")
  /\ kv_parse_check_key (Config true true) (fopen (txt "  : x")) []
     = Some (true, {| data := txt "  : x"; pos := 3; ahead := txt " x" |})
  /\ kv_parse_check_key (Config true true) (fopen (txt "x=1")) []
     = Some (false, fopen (txt "x=1")).
Proof.
  destruct (empty_key_matches_delimiter (Config true true)) as (Hb & Hf & _ & Hn).
  split; [|split].
  - apply Hb. exists (txt "  "), 58; repeat split.
    + repeat (constructor; [reflexivity|]); constructor.
    + discriminate.
  - apply Hf. exists (txt "  "), 58, (txt " x"); repeat split.
    + repeat (constructor; [reflexivity|]); constructor.
    + discriminate.
  - assert (E : kv_parse_check_key (Config true true) (fopen (txt "x=1")) []
                = Some (false, fseek (snd (getc_char (fopen (txt "x=1")))) 0))
      by reflexivity.
    pose proof (Hn _ _ (fopen_coherent (txt "x=1")) E) as X.
    rewrite X in E; exact E.
Defined.

(** ** The caller loop (C5) *)

Lemma buffer_next_line_loop_body l X :
  line_body l ->
  buffer_next_line_loop (l ++ newline :: X)
  = if deref X =? 0 then None else Some X.
Proof.
  induction 1 as [|c l [Hc0 Hcn] _ IH]; [reflexivity|].
  simpl. apply Z.eqb_neq in Hc0, Hcn; rewrite Hc0, Hcn; exact IH.
Qed.

Lemma buffer_check_key_some_nonempty cfg s key v :
  kv_parse_buffer_check_key cfg s key = Some v -> deref s <> 0.
Proof.
  intros H E.
  assert (Hs : buffer_skip_blank s = s)
    by (apply buffer_skip_blank_stable; rewrite E; reflexivity).
  assert (Hk : buffer_key_loop s key = Some s)
    by (destruct key; simpl; [|rewrite E]; reflexivity).
  revert H; unfold kv_parse_buffer_check_key.
  destruct (whitespace_skip cfg); rewrite ?Hs, Hk, ?Hs, E; discriminate.
Qed.

Lemma deref_lines_before ls rest :
  Forall line_body ls -> deref rest <> 0 -> deref (lines_before ls rest) <> 0.
Proof.
  intros Hls Hr; destruct ls as [|l ls]; [exact Hr|].
  inversion Hls as [|? ? Hl _]; subst.
  destruct l as [|c l]; simpl; [discriminate|].
  inversion Hl as [|? ? [Hc _] _]; exact Hc.
Qed.

Lemma length_lines_before ls rest :
  (length ls <= length (lines_before ls rest))%nat.
Proof.
  induction ls as [|l ls IH]; simpl; [lia|].
  rewrite length_app; simpl; lia.
Qed.

Lemma kv_parse_buffer_lines_eq k cfg input line key value value_max :
  kv_parse_buffer_lines (S k) cfg input line key value value_max =
  match kv_parse_buffer_next_line input line with
  | None => Some (0, value)
  | Some input =>
      match kv_parse_buffer_check_key cfg input key with
      | Some input_value =>
          let '(_, n, d) :=
            kv_parse_buffer_get_value cfg input_value value value_max in
          Some (to_int n, d)
      | None => kv_parse_buffer_lines k cfg input (line + 1) key value value_max
      end
  end.
Proof. reflexivity. Qed.

Lemma kv_parse_buffer_lines_first_match cfg key rest v d C :
  kv_parse_buffer_check_key cfg rest key = Some v ->
  forall ls fuel l0 line,
    line_body l0 -> Forall line_body ls -> no_match cfg key ls rest ->
    0 < line -> (length ls < fuel)%nat ->
    kv_parse_buffer_lines fuel cfg (l0 ++ newline :: lines_before ls rest)
      line key d C
    = Some (let '(_, n, d') := kv_parse_buffer_get_value cfg v d C in
            (to_int n, d')).
Proof.
  intros Hv; pose proof (buffer_check_key_some_nonempty _ _ _ _ Hv) as Hr.
  induction ls as [|l ls IH]; intros fuel l0 line Hl0 Hls Hno Hline Hfuel;
    (destruct fuel as [|k]; [simpl in Hfuel; lia|]);
    rewrite kv_parse_buffer_lines_eq; unfold kv_parse_buffer_next_line;
    assert (Hz : (line =? 0) = false) by (apply Z.eqb_neq; lia);
    rewrite Hz, (buffer_next_line_loop_body l0 _ Hl0).
  - simpl lines_before. apply Z.eqb_neq in Hr; rewrite Hr, Hv.
    destruct (kv_parse_buffer_get_value cfg v d C) as [[e n] d']; reflexivity.
  - pose proof (deref_lines_before (l :: ls) rest Hls Hr) as Hd.
    apply Z.eqb_neq in Hd; rewrite Hd. destruct Hno as [Hn Hno].
    simpl lines_before; rewrite Hn.
    inversion Hls; subst.
    apply IH; try assumption; [lia|simpl in Hfuel; lia].
Qed.

(** ** The capacity boundary of get_value (C1) *)

Lemma is_eol_not_blank c : is_eol c = true -> is_blank c = false.
Proof.
  unfold is_eol, is_blank; intros H.
  apply orb_true_iff in H; destruct H as [H|H];
    [apply orb_true_iff in H; destruct H as [H|H]|];
    apply Z.eqb_eq in H; subst; reflexivity.
Qed.

Lemma plain_branches cfg c p :
  plain_char cfg c ->
  is_eol c = false
  /\ quoted_strings cfg && (0 =? 0) && is_quote c = false
  /\ quoted_strings cfg && negb (0 =? 0) && negb (p =? backslash) && (c =? 0)
     = false
  /\ quoted_strings cfg && negb (0 =? 0) && (p =? backslash) && (c =? 0) = false.
Proof.
  intros [He Hq]; repeat split; try exact He;
    destruct (quoted_strings cfg); try reflexivity.
  simpl; apply Hq; reflexivity.
Qed.

(** Copying a plain value: the loop gives up exactly when the value has
    C - 1 - i bytes or more. *)
Lemma buffer_value_loop_plain cfg C :
  1 <= C < size_modulus ->
  forall s t i p d,
    Forall (plain_char cfg) s -> is_eol (deref t) = true ->
    0 <= i <= C - 1 ->
    fst (fst (buffer_value_loop cfg C (s ++ t) i 0 p d))
    = if C - 1 <=? i + Z.of_nat (length s) then TooLarge else EndOfLine.
Proof.
  intros HC; induction s as [|c s IH]; intros t i p d Hs Ht Hi;
    rewrite buffer_value_loop_eq, loop_guard by assumption.
  - simpl app; simpl length; rewrite Z.add_0_r.
    destruct (i <? C - 1) eqn:G; simpl negb; cbv iota.
    + apply Z.ltb_lt in G.
      assert (E : (C - 1 <=? i) = false) by (apply Z.leb_gt; lia).
      rewrite E. destruct t as [|c t']; [apply value_end_of_line_exit|].
      simpl in Ht; rewrite Ht; apply value_end_of_line_exit.
    + apply Z.ltb_ge in G.
      assert (E : (C - 1 <=? i) = true) by (apply Z.leb_le; lia).
      rewrite E; reflexivity.
  - inversion Hs as [|? ? Hc Hs']; subst.
    destruct (plain_branches cfg c p Hc) as (B0 & B1 & B2 & B3).
    simpl negb in B2, B3.
    simpl app; simpl length.
    destruct (i <? C - 1) eqn:G; simpl negb; cbv iota.
    + apply Z.ltb_lt in G.
      rewrite B0, B1, B2, B3, IH by (assumption || lia).
      replace (i + 1 + Z.of_nat (length s)) with (i + Z.of_nat (S (length s)))
        by lia.
      reflexivity.
    + apply Z.ltb_ge in G.
      assert (E : (C - 1 <=? i + Z.of_nat (S (length s))) = true)
        by (apply Z.leb_le; lia).
      rewrite E; reflexivity.
Qed.

(** ** The two engines on a text without NUL and without the byte 255 *)

Lemma to_char_text b :
  text_byte b ->
  (to_char b = b /\ b < 128) \/ (to_char b = b - 256 /\ 128 <= b).
Proof.
  unfold text_byte, to_char; intros Hb.
  destruct (Z_lt_ge_dec b 128) as [Hlt|Hge].
  - left; split; [|exact Hlt]. rewrite Z.mod_small; lia.
  - right; split; [|lia].
    replace (b + 128) with (b - 128 + 1 * 256) by lia.
    rewrite Z_mod_plus_full, Z.mod_small; lia.
Qed.

Lemma to_char_text_not_nul b : text_byte b -> (to_char b =? 0) = false.
Proof.
  intros Hb; apply Z.eqb_neq.
  destruct (to_char_text b Hb) as [[E H]|[E H]]; unfold text_byte in Hb; lia.
Qed.

Lemma to_char_text_not_eof b : text_byte b -> (to_char b =? EOF) = false.
Proof.
  intros Hb; apply Z.eqb_neq; unfold EOF.
  destruct (to_char_text b Hb) as [[E H]|[E H]]; unfold text_byte in Hb; lia.
Qed.

Lemma text_byte_not_eof b : text_byte b -> (b =? EOF) = false.
Proof. unfold text_byte, EOF; intros Hb; apply Z.eqb_neq; lia. Qed.

Lemma to_char_text_eqb b k :
  text_byte b -> 0 <= k < 128 -> (b =? k) = (to_char b =? k).
Proof.
  intros Hb Hk.
  destruct (to_char_text b Hb) as [[E H]|[E H]]; rewrite E; [reflexivity|].
  unfold text_byte in Hb.
  transitivity false; [|symmetry]; apply Z.eqb_neq; lia.
Qed.

Lemma to_uchar_to_char b : text_byte b -> to_uchar (to_char b) = b.
Proof.
  intros Hb; unfold to_uchar.
  destruct (to_char_text b Hb) as [[E H]|[E H]]; rewrite E;
    unfold text_byte in Hb.
  - apply Z.mod_small; lia.
  - replace (b - 256) with (b + (-1) * 256) by lia.
    rewrite Z_mod_plus_full; apply Z.mod_small; lia.
Qed.

Lemma is_eol_text b :
  text_byte b -> is_eol_file (to_char b) = is_eol (to_char b).
Proof.
  intros Hb; unfold is_eol_file, is_eol.
  rewrite to_char_text_not_nul, to_char_text_not_eof by exact Hb; reflexivity.
Qed.

Lemma is_eol_text_raw b : text_byte b -> is_eol_file b = is_eol (to_char b).
Proof.
  intros Hb; unfold is_eol_file, is_eol.
  rewrite text_byte_not_eof, to_char_text_not_nul by exact Hb.
  rewrite !(to_char_text_eqb b) by (exact Hb || lia); reflexivity.
Qed.

Lemma coherent_advance d p pre l :
  coherent {| data := d; pos := p; ahead := pre ++ l |} ->
  coherent {| data := d; pos := p + Z.of_nat (length pre); ahead := l |}.
Proof.
  unfold coherent; cbn [data pos ahead]; intros [Hp Ha]; split; [lia|].
  rewrite Z2Nat.inj_add, Nat2Z.id by lia.
  rewrite Nat.add_comm, <- skipn_skipn, <- Ha.
  rewrite skipn_app, skipn_all, Nat.sub_diag; reflexivity.
Qed.

Lemma text_bytes_suffix pre l : text_bytes (pre ++ l) -> text_bytes l.
Proof. intros H; apply Forall_app in H; apply H. Qed.

(** *** next_line *)

Lemma sim_next_line_loop :
  forall l fuel d p ch f,
    text_bytes l -> reading d p l = (ch, f) ->
    (length l + 2 <= fuel)%nat ->
    match buffer_next_line_loop (as_buffer l) with
    | None => exists f', file_next_line_loop fuel ch f = Some (false, f')
    | Some str' =>
        exists pre l',
          l = pre ++ l' /\ str' = as_buffer l' /\ (length l' < length l)%nat /\
          file_next_line_loop fuel ch f
          = Some (true, {| data := d; pos := p + Z.of_nat (length pre);
                           ahead := l' |})
    end.
Proof.
  induction l as [|b r IH]; intros fuel d p ch f Ht R Hf;
    (destruct fuel as [|k]; [simpl in Hf; lia|]);
    simpl in R; inversion R; subst; clear R.
  - simpl; eexists; reflexivity.
  - inversion Ht as [|? ? Hb Hr]; subst.
    simpl as_buffer; simpl buffer_next_line_loop; simpl file_next_line_loop.
    rewrite to_char_text_not_nul, to_char_text_not_eof by exact Hb.
    rewrite getc_char_reading.
    destruct (to_char b =? newline).
    + destruct r as [|b2 r2]; simpl.
      * eexists; reflexivity.
      * inversion Hr as [|? ? Hb2 _]; subst.
        rewrite to_char_text_not_nul, to_char_text_not_eof by exact Hb2.
        exists [b], (b2 :: r2); repeat split; [simpl; lia|].
        unfold ungetc; rewrite to_char_text_not_eof by exact Hb2.
        rewrite to_uchar_to_char by exact Hb2.
        cbn [data pos ahead length]. do 3 f_equal. lia.
    + destruct (reading d (p + 1) r) as [ch1 f1] eqn:R1.
      specialize (IH k d (p + 1) ch1 f1 Hr R1).
      destruct (buffer_next_line_loop (as_buffer r)) as [str'|].
      * destruct IH as (pre & l' & E & Es & Hlen & El); [simpl in Hf; lia|].
        exists (b :: pre), l'; repeat split;
          [simpl; congruence|exact Es|simpl; lia|].
        rewrite El; do 3 f_equal. simpl length; rewrite Nat2Z.inj_succ; lia.
      * apply IH; simpl in Hf; lia.
Qed.

(** *** check_key *)

Lemma deref_as_buffer s :
  deref (as_buffer s) = match s with [] => 0 | b :: _ => to_char b end.
Proof. destruct s; reflexivity. Qed.

Lemma as_buffer_blanks w : file_blanks w -> blanks (as_buffer w).
Proof.
  induction 1 as [|b w Hb _ IH]; [constructor|].
  constructor; assumption.
Qed.

Lemma sim_skip d p l ch f fuel :
  reading d p l = (ch, f) -> (length l + 2 <= fuel)%nat ->
  exists pre l',
    l = pre ++ l' /\
    file_skip_blank fuel ch f = Some (reading d (p + Z.of_nat (length pre)) l') /\
    as_buffer l' = buffer_skip_blank (as_buffer l).
Proof.
  intros R Hf.
  destruct (file_split_blanks l) as (w & s & -> & Hw & Hs).
  exists w, s; split; [reflexivity|]; split.
  - apply (file_skip_run w fuel d p s ch f R Hw Hs).
    rewrite length_app in Hf; lia.
  - unfold as_buffer; rewrite map_app.
    rewrite buffer_skip_blank_app by (apply as_buffer_blanks; exact Hw).
    symmetry; apply buffer_skip_blank_stable.
    fold (as_buffer s); rewrite deref_as_buffer.
    destruct s; [reflexivity|exact Hs].
Qed.

Lemma sim_skip_if (b : bool) d p l ch f fuel :
  reading d p l = (ch, f) -> (length l + 2 <= fuel)%nat ->
  exists pre l',
    l = pre ++ l' /\
    (if b then file_skip_blank fuel ch f else Some (ch, f))
    = Some (reading d (p + Z.of_nat (length pre)) l') /\
    as_buffer l' = (if b then buffer_skip_blank (as_buffer l) else as_buffer l).
Proof.
  intros R Hf; destruct b; [apply sim_skip; assumption|].
  exists [], l; repeat split.
  simpl; rewrite Z.add_0_r, R; reflexivity.
Qed.

Lemma sim_key_loop :
  forall key l d p ch f,
    text_bytes l -> reading d p l = (ch, f) ->
    match buffer_key_loop (as_buffer l) key with
    | None => exists r, file_key_loop key ch f = (false, r)
    | Some str' =>
        exists pre l',
          l = pre ++ l' /\ str' = as_buffer l' /\
          file_key_loop key ch f
          = (true, reading d (p + Z.of_nat (length pre)) l')
    end.
Proof.
  induction key as [|k key IH]; intros l d p ch f Ht R.
  - simpl. exists [], l; repeat split.
    simpl; rewrite Z.add_0_r, R; reflexivity.
  - simpl buffer_key_loop; simpl file_key_loop.
    destruct l as [|b r]; simpl in R; inversion R; subst; clear R.
    + simpl. exists [], []; repeat split.
      simpl; rewrite Z.add_0_r; reflexivity.
    + inversion Ht as [|? ? Hb Hr]; subst.
      simpl as_buffer; cbn [deref hd tl].
      rewrite to_char_text_not_nul, to_char_text_not_eof by exact Hb.
      cbn [orb].
      destruct (k =? 0).
      * exists [], (b :: r); repeat split.
        simpl; rewrite Z.add_0_r; reflexivity.
      * destruct (to_char b =? k); cbn [negb]; [|eexists; reflexivity].
        rewrite getc_char_reading.
        destruct (reading d (p + 1) r) as [ch1 f1] eqn:R1.
        specialize (IH r d (p + 1) ch1 f1 Hr R1).
        fold (as_buffer r).
        destruct (buffer_key_loop (as_buffer r) key) as [str'|]; [|exact IH].
        destruct IH as (pre & l' & E & Es & El).
        exists (b :: pre), l'; repeat split; [simpl; congruence|exact Es|].
        rewrite El; do 2 f_equal. simpl length; rewrite Nat2Z.inj_succ; lia.
Qed.

Lemma sim_check_key cfg key d p l :
  text_bytes l ->
  match kv_parse_buffer_check_key cfg (as_buffer l) key with
  | Some v =>
      exists pre l',
        l = pre ++ l' /\ v = as_buffer l' /\
        kv_parse_check_key cfg {| data := d; pos := p; ahead := l |} key
        = Some (true, {| data := d; pos := p + Z.of_nat (length pre);
                         ahead := l' |})
  | None =>
      exists f',
        kv_parse_check_key cfg {| data := d; pos := p; ahead := l |} key
        = Some (false, f')
  end.
Proof.
  intros Ht.
  unfold kv_parse_buffer_check_key, kv_parse_check_key, ftell.
  rewrite getc_char_reading; cbn [pos].
  set (f0 := {| data := d; pos := p; ahead := l |}).
  assert (Hfuel : forall pre s, l = pre ++ s -> (length s + 2 <= rounds f0)%nat).
  { intros pre s ->; unfold rounds, f0; cbn [ahead]; rewrite length_app; lia. }
  destruct (reading d p l) as [ch f1] eqn:R.
  destruct (sim_skip_if (whitespace_skip cfg) d p l ch f1 (rounds f0) R)
    as (pre1 & l1 & E1 & S1 & B1); [apply (Hfuel [] l); reflexivity|].
  rewrite S1, <- B1.
  destruct (reading d (p + Z.of_nat (length pre1)) l1) as [ch2 f2] eqn:R2.
  assert (Ht1 : text_bytes l1) by (rewrite E1 in Ht; eapply text_bytes_suffix; eauto).
  pose proof (sim_key_loop key l1 d _ ch2 f2 Ht1 R2) as K.
  destruct (buffer_key_loop (as_buffer l1) key) as [str2|].
  - destruct K as (pre2 & l2 & E2 & Es2 & K); rewrite K; subst str2.
    destruct (reading d (p + Z.of_nat (length pre1) + Z.of_nat (length pre2)) l2)
      as [ch3 f3] eqn:R3.
    destruct (sim_skip_if (whitespace_skip cfg) d _ l2 ch3 f3 (rounds f0) R3)
      as (pre3 & l3 & E3 & S3 & B3).
    { apply (Hfuel (pre1 ++ pre2) l2); rewrite E1, E2, app_assoc; reflexivity. }
    rewrite S3, <- B3.
    destruct (reading d (p + Z.of_nat (length pre1) + Z.of_nat (length pre2)
                         + Z.of_nat (length pre3)) l3) as [ch4 f4] eqn:R4.
    rewrite (reading_peek _ _ _ _ _ R4), deref_as_buffer.
    destruct l3 as [|c rest]; [simpl; eexists; reflexivity|].
    cbn [peek]. destruct (is_delim (to_char c)); cbn [negb];
      [|eexists; reflexivity].
    exists (pre1 ++ pre2 ++ pre3 ++ [c]), rest; repeat split.
    + rewrite E1, E2, E3, <- !app_assoc; reflexivity.
    + simpl in R4; inversion R4; subst. do 3 f_equal.
      rewrite !length_app, !Nat2Z.inj_add; simpl; lia.
  - destruct K as [[ch3 f3] K]; rewrite K; eexists; reflexivity.
Qed.

(** *** get_value and check_section *)

Lemma quote_rel_open qs qb : quote_rel qs qb -> (qs =? EOF) = (qb =? 0).
Proof.
  intros [[-> ->]|(-> & H1 & H2)]; [reflexivity|].
  apply Z.eqb_neq in H1, H2; rewrite H1, H2; reflexivity.
Qed.

Lemma quote_rel_same qs qb b :
  quote_rel qs qb -> text_byte b -> (to_char b =? qs) = (to_char b =? qb).
Proof.
  intros [[-> ->]|(-> & _ & _)] Hb; [|reflexivity].
  rewrite to_char_text_not_eof, to_char_text_not_nul by exact Hb; reflexivity.
Qed.

Lemma quote_rel_char b : text_byte b -> quote_rel (to_char b) (to_char b).
Proof.
  intros Hb; right; repeat split; apply Z.eqb_neq;
    [apply to_char_text_not_eof|apply to_char_text_not_nul]; exact Hb.
Qed.

Lemma sim_value_loop cfg C start :
  forall l fuel d p ch f i qs qb ps pb dd,
    text_bytes l -> reading d p l = (ch, f) -> (length l + 2 <= fuel)%nat ->
    quote_rel qs qb -> (ps =? backslash) = (pb =? backslash) ->
    exists f',
      file_value_loop fuel cfg C start ch f i qs ps dd
      = Some (let '(e, n, d') := buffer_value_loop cfg C (as_buffer l) i qb pb dd
              in (e, n, f', d')).
Proof.
  induction l as [|b r IH]; intros fuel d p ch f i qs qb ps pb dd Ht R Hf Hq Hp;
    (destruct fuel as [|k]; [simpl in Hf; lia|]);
    simpl in R; inversion R; subst; clear R;
    rewrite buffer_value_loop_eq; simpl file_value_loop;
    (destruct (negb (to_size i <? to_size (C - 1))); [eexists; reflexivity|]).
  - simpl as_buffer; unfold file_value_end_of_line.
    destruct (value_end_of_line cfg i dd) as [[e n] d']; eexists; reflexivity.
  - inversion Ht as [|? ? Hb Hr]; subst.
    simpl as_buffer.
    rewrite (is_eol_text b Hb).
    destruct (is_eol (to_char b)).
    { unfold file_value_end_of_line.
      destruct (value_end_of_line cfg i dd) as [[e n] d']; eexists; reflexivity. }
    rewrite (quote_rel_open qs qb Hq), (quote_rel_same qs qb b Hq Hb), Hp.
    rewrite to_char_text_not_eof, to_char_text_not_nul by exact Hb.
    rewrite getc_char_reading.
    destruct (reading d (p + 1) r) as [ch1 f1] eqn:R1.
    assert (Hk : (length r + 2 <= k)%nat) by (simpl in Hf; lia).
    destruct (quoted_strings cfg && (qb =? 0) && is_quote (to_char b)).
    { apply (IH k d (p + 1)); try assumption. apply quote_rel_char; exact Hb. }
    destruct (quoted_strings cfg && negb (qb =? 0)
              && negb (pb =? backslash) && (to_char b =? qb)).
    { eexists; reflexivity. }
    destruct (quoted_strings cfg && negb (qb =? 0)
              && (pb =? backslash) && (to_char b =? qb)).
    { apply (IH k d (p + 1)); assumption. }
    apply (IH k d (p + 1)); try assumption.
    destruct (quoted_strings cfg); [reflexivity|exact Hp].
Qed.

Lemma getc_cons d p b r :
  getc {| data := d; pos := p; ahead := b :: r |}
  = (b, {| data := d; pos := p + 1; ahead := r |}).
Proof. reflexivity. Qed.

Lemma sim_section_loop C start :
  forall l fuel d p i dd,
    text_bytes l -> (length l + 2 <= fuel)%nat ->
    exists f',
      (let (ch, f) := getc {| data := d; pos := p; ahead := l |} in
       file_section_loop fuel C start ch f i dd)
      = Some (let '(e, n, d') := buffer_section_loop C (as_buffer l) i dd
              in (e, n, f', d')).
Proof.
  induction l as [|b r IH]; intros fuel d p i dd Ht Hf;
    (destruct fuel as [|k]; [simpl in Hf; lia|]);
    rewrite buffer_section_loop_eq.
  - simpl. destruct (negb (to_size i <? to_size (C - 1)));
      [eexists; reflexivity|].
    destruct (section_end_of_line i dd) as [[e n] d']; eexists; reflexivity.
  - inversion Ht as [|? ? Hb Hr]; subst.
    rewrite getc_cons; simpl file_section_loop; simpl as_buffer.
    destruct (negb (to_size i <? to_size (C - 1)));
      [eexists; reflexivity|].
    rewrite (is_eol_text_raw b Hb).
    destruct (is_eol (to_char b)).
    { destruct (section_end_of_line i dd) as [[e n] d']; eexists; reflexivity. }
    rewrite (text_byte_not_eof b Hb).
    apply IH; [exact Hr|simpl in Hf; lia].
Qed.

Lemma sim_get_value cfg d p l dd C :
  text_bytes l ->
  exists f',
    kv_parse_get_value cfg {| data := d; pos := p; ahead := l |} dd C
    = Some (let '(e, n, d') :=
              kv_parse_buffer_get_value cfg (as_buffer l) dd C in
            (e, n, f', d')).
Proof.
  intros Ht; unfold kv_parse_get_value, kv_parse_buffer_get_value, ftell.
  rewrite getc_char_reading; cbn [pos].
  set (f0 := {| data := d; pos := p; ahead := l |}).
  destruct (reading d p l) as [ch f1] eqn:R.
  destruct (sim_skip_if (whitespace_skip cfg) d p l ch f1 (rounds f0) R)
    as (pre1 & l1 & E1 & S1 & B1); [unfold rounds, f0; cbn [ahead]; lia|].
  rewrite S1, <- B1.
  destruct (reading d (p + Z.of_nat (length pre1)) l1) as [ch2 f2] eqn:R2.
  apply (sim_value_loop cfg C p l1 (rounds f0) d
           (p + Z.of_nat (length pre1)) ch2 f2); try assumption.
  - rewrite E1 in Ht; eapply text_bytes_suffix; eauto.
  - unfold rounds, f0; cbn [ahead]; rewrite E1, length_app; lia.
  - left; split; reflexivity.
  - reflexivity.
Qed.

Lemma sim_check_section d p l dd C :
  text_bytes l ->
  exists f',
    kv_parse_check_section {| data := d; pos := p; ahead := l |} dd C
    = Some (let '(e, n, d') :=
              kv_parse_buffer_check_section (as_buffer l) dd C in
            (e, n, f', d')).
Proof.
  intros Ht; unfold kv_parse_check_section, kv_parse_buffer_check_section, ftell.
  cbn [pos]. destruct l as [|b r].
  - simpl; eexists; reflexivity.
  - inversion Ht as [|? ? Hb Hr]; subst.
    rewrite getc_cons; simpl as_buffer; cbn [deref hd tl].
    rewrite <- (to_char_text_eqb b open_bracket Hb) by (unfold open_bracket; lia).
    destruct (b =? open_bracket); cbn [negb]; [|eexists; reflexivity].
    apply sim_section_loop; [exact Hr|].
    unfold rounds; cbn [ahead length]; lia.
Qed.

Lemma sim_next_line d p l line :
  text_bytes l ->
  match kv_parse_buffer_next_line (as_buffer l) line with
  | None =>
      exists f',
        kv_parse_next_line {| data := d; pos := p; ahead := l |} line
        = Some (false, f')
  | Some str' =>
      exists pre l',
        l = pre ++ l' /\ str' = as_buffer l' /\
        (line <> 0 -> (length l' < length l)%nat) /\
        kv_parse_next_line {| data := d; pos := p; ahead := l |} line
        = Some (true, {| data := d; pos := p + Z.of_nat (length pre);
                         ahead := l' |})
  end.
Proof.
  intros Ht; unfold kv_parse_buffer_next_line, kv_parse_next_line.
  destruct (line =? 0) eqn:L.
  - exists [], l; repeat split.
    + apply Z.eqb_eq in L; intros X; contradiction.
    + simpl; rewrite Z.add_0_r; reflexivity.
  - rewrite getc_char_reading.
    destruct (reading d p l) as [ch f1] eqn:R.
    pose proof (sim_next_line_loop l
                  (rounds {| data := d; pos := p; ahead := l |}) d p ch f1 Ht R) as H.
    destruct (buffer_next_line_loop (as_buffer l)) as [str'|].
    + destruct H as (pre & l' & E & Es & Hlen & El);
        [unfold rounds; cbn [ahead]; lia|].
      exists pre, l'; repeat split; try assumption. intros _; exact Hlen.
    + apply H; unfold rounds; cbn [ahead]; lia.
Qed.

(** X15 (all four operations, both engines).  On a text without NUL and
    without the byte 255 each operation of the
    stream engine, started with the text ahead, has the outcome of the
    buffer operation on the same text: next_line finds a next line in both
    or in neither, and at the same place; check_key matches in both or in
    neither, with the same value start; get_value and check_section leave
    through the same exit with the same length and the same destination. *)
Theorem engines_agree_on_text :
  forall (cfg : config) (d : list Z) (p : Z) (l key : list Z) (dd : dest)
         (C line : Z),
    text_bytes l ->
    let f := {| data := d; pos := p; ahead := l |} in
    match kv_parse_buffer_next_line (as_buffer l) line with
    | None => exists f', kv_parse_next_line f line = Some (false, f')
    | Some str' =>
        exists pre l',
          l = pre ++ l' /\ str' = as_buffer l' /\
          (line <> 0 -> (length l' < length l)%nat) /\
          kv_parse_next_line f line
          = Some (true, {| data := d; pos := p + Z.of_nat (length pre);
                           ahead := l' |})
    end
    /\ match kv_parse_buffer_check_key cfg (as_buffer l) key with
       | Some v =>
           exists pre l',
             l = pre ++ l' /\ v = as_buffer l' /\
             kv_parse_check_key cfg f key
             = Some (true, {| data := d; pos := p + Z.of_nat (length pre);
                              ahead := l' |})
       | None => exists f', kv_parse_check_key cfg f key = Some (false, f')
       end
    /\ (exists f',
           kv_parse_get_value cfg f dd C
           = Some (let '(e, n, d') :=
                     kv_parse_buffer_get_value cfg (as_buffer l) dd C in
                   (e, n, f', d')))
    /\ (exists f',
           kv_parse_check_section f dd C
           = Some (let '(e, n, d') :=
                     kv_parse_buffer_check_section (as_buffer l) dd C in
                   (e, n, f', d'))).
Proof.
  intros cfg d p l key dd C line Ht f; subst f.
  split; [apply sim_next_line; exact Ht|].
  split; [apply sim_check_key; exact Ht|].
  split; [apply sim_get_value|apply sim_check_section]; exact Ht.
Qed.

(** *** The caller loops *)

Lemma kv_parse_lines_eq k cfg f line key value value_max :
  kv_parse_lines (S k) cfg f line key value value_max =
  match kv_parse_next_line f line with
  | None => None
  | Some (false, _) => Some (0, value)
  | Some (true, f1) =>
      match kv_parse_check_key cfg f1 key with
      | None => None
      | Some (true, f2) =>
          match kv_parse_get_value cfg f2 value value_max with
          | None => None
          | Some (_, n, _, d) => Some (to_int n, d)
          end
      | Some (false, f2) =>
          kv_parse_lines k cfg f2 (line + 1) key value value_max
      end
  end.
Proof. reflexivity. Qed.

Lemma sim_lines cfg key dd C d :
  forall n l p line fuel_s fuel_b,
    coherent {| data := d; pos := p; ahead := l |} -> text_bytes l ->
    0 <= line ->
    (length l + (if (line =? 0)%Z then 2 else 1) <= n)%nat ->
    (n <= fuel_s)%nat -> (n <= fuel_b)%nat ->
    kv_parse_lines fuel_s cfg {| data := d; pos := p; ahead := l |} line
      key dd C
    = kv_parse_buffer_lines fuel_b cfg (as_buffer l) line key dd C.
Proof.
  induction n as [|m IH]; intros l p line fuel_s fuel_b Hc Ht Hl Hn Hs Hb.
  { destruct (line =? 0); lia. }
  destruct fuel_s as [|ks]; [lia|]; destruct fuel_b as [|kb]; [lia|].
  rewrite kv_parse_lines_eq, kv_parse_buffer_lines_eq.
  pose proof (sim_next_line d p l line Ht) as N.
  destruct (kv_parse_buffer_next_line (as_buffer l) line) as [str'|];
    [|destruct N as [f' ->]; reflexivity].
  destruct N as (pre & l' & E & -> & Hlen & ->).
  assert (Ht' : text_bytes l') by (rewrite E in Ht; eapply text_bytes_suffix; eauto).
  assert (Hc' : coherent {| data := d; pos := p + Z.of_nat (length pre);
                            ahead := l' |})
    by (apply coherent_advance; rewrite <- E; exact Hc).
  pose proof (sim_check_key cfg key d (p + Z.of_nat (length pre)) l' Ht') as K.
  destruct (kv_parse_buffer_check_key cfg (as_buffer l') key) as [v|].
  - destruct K as (pre2 & l2 & E2 & -> & ->).
    assert (Ht2 : text_bytes l2)
      by (rewrite E2 in Ht'; eapply text_bytes_suffix; eauto).
    destruct (sim_get_value cfg d (p + Z.of_nat (length pre)
                                   + Z.of_nat (length pre2)) l2 dd C Ht2)
      as [f' ->].
    destruct (kv_parse_buffer_get_value cfg (as_buffer l2) dd C) as [[e n] d'].
    reflexivity.
  - destruct K as [f' K]; rewrite K.
    apply kv_parse_check_key_no_match in K; [subst f'|exact Hc'].
    apply IH; try assumption; try lia.
    assert (L1 : (line + 1 =? 0) = false) by (apply Z.eqb_neq; lia).
    rewrite L1.
    destruct (line =? 0) eqn:L0.
    + assert (length l' <= length l)%nat
        by (rewrite E, length_app; lia).
      lia.
    + assert (length l' < length l)%nat
        by (apply Hlen; apply Z.eqb_neq; exact L0).
      lia.
Qed.

(** The caller loops of test.c give the same result - returned length and
    destination - on every text without NUL and without the byte 255. *)
Theorem kv_parse_agrees_on_text :
  forall (cfg : config) (bytes key : list Z) (dd : dest) (C : Z),
    text_bytes bytes ->
    kv_parse cfg (fopen bytes) key dd C
    = kv_parse_buffer cfg (as_buffer bytes) key dd C.
Proof.
  intros cfg bytes key dd C Ht; unfold kv_parse, kv_parse_buffer.
  assert (E : rewind (fopen bytes) = {| data := bytes; pos := 0; ahead := bytes |})
    by reflexivity.
  rewrite E; cbn [data].
  apply (sim_lines cfg key dd C bytes (S (S (length bytes)))).
  - apply (fopen_coherent bytes).
  - exact Ht.
  - lia.
  - simpl; lia.
  - lia.
  - unfold as_buffer; rewrite length_map; lia.
Qed.

(** ** First occurrence wins (C5) *)

(** C5.  In the caller loops of test.c, when the lines [earlier] do not
    match the key and the text [rest] that follows them starts with a
    matching line, the result is get_value at that first match, whatever
    [rest] holds behind it - later lines with the same key included.  This
    holds for the buffer engine on every buffer and for the stream engine on
    every text without NUL and without the byte 255.  On the three lines
    [x=1], [x=2], [x=3] both engines return the value [1] with length 1. *)
Theorem first_matching_line_wins :
  forall (cfg : config) (key : list Z) (earlier : list (list Z))
         (rest v : list Z) (d : dest) (C : Z) (init : Z -> Z),
    (Forall line_body earlier ->
     no_match cfg key earlier rest ->
     kv_parse_buffer_check_key cfg rest key = Some v ->
     kv_parse_buffer cfg (lines_before earlier rest) key d C
     = Some (let '(_, n, d') := kv_parse_buffer_get_value cfg v d C in
             (to_int n, d'))
     /\ (forall bytes : list Z,
           text_bytes bytes -> as_buffer bytes = lines_before earlier rest ->
           kv_parse cfg (fopen bytes) key d C
           = Some (let '(_, n, d') := kv_parse_buffer_get_value cfg v d C in
                   (to_int n, d'))))
    /\ observe 2 (kv_parse_buffer cfg duplicate_keys (txt "x") (fresh init) 100)
       = Some (1, txt "1" ++ [0])
    /\ observe 2 (kv_parse cfg (fopen duplicate_keys) (txt "x") (fresh init) 100)
       = Some (1, txt "1" ++ [0]).
Proof.
  intros cfg key earlier rest v d C init.
  split; [|both_flags cfg; split; reflexivity].
  intros Hls Hno Hv.
  assert (Hbuf : kv_parse_buffer cfg (lines_before earlier rest) key d C
                 = Some (let '(_, n, d') :=
                           kv_parse_buffer_get_value cfg v d C in
                         (to_int n, d'))).
  { unfold kv_parse_buffer.
    rewrite kv_parse_buffer_lines_eq; unfold kv_parse_buffer_next_line.
    rewrite Z.eqb_refl.
    destruct earlier as [|l ls].
    - simpl lines_before; rewrite Hv.
      destruct (kv_parse_buffer_get_value cfg v d C) as [[e n] d']; reflexivity.
    - destruct Hno as [Hn Hno]; simpl lines_before; rewrite Hn.
      inversion Hls; subst.
      apply kv_parse_buffer_lines_first_match; try assumption; [lia|].
      pose proof (length_lines_before ls rest).
      rewrite length_app; simpl; lia. }
  split; [exact Hbuf|].
  intros bytes Ht Eb.
  rewrite (kv_parse_agrees_on_text cfg bytes key d C Ht), Eb; exact Hbuf.
Qed.

(** The theorem at work: the key [b] is found on the second line of
    [a=0], [b=1], [b=2], and the value is that of the second line, in both
    engines. *)
Lemma first_matching_line_witness :
  observe 2 (kv_parse_buffer (Config true true)
               (lines_before [txt "a=0"] (txt "b=1" ++ [newline] ++ txt "b=2"))
               (txt "b") zeroed 100)
  = Some (1, txt "1" ++ [0])
  /\ observe 2 (kv_parse (Config true true)
                  (fopen (txt "a=0" ++ [newline] ++ txt "b=1" ++ [newline]
                            ++ txt "b=2"))
                  (txt "b") zeroed 100)
     = Some (1, txt "1" ++ [0]).
Proof.
  destruct (first_matching_line_wins (Config true true) (txt "b") [txt "a=0"]
              (txt "b=1" ++ [newline] ++ txt "b=2")
              (txt "1" ++ [newline] ++ txt "b=2") zeroed 100 (fun _ => 0))
    as [H _].
  destruct H as [Hb Hs].
  - repeat constructor; discriminate.
  - split; [reflexivity|exact I].
  - reflexivity.
  - split.
    + rewrite Hb; reflexivity.
    + rewrite Hs; [reflexivity| |reflexivity].
      unfold text_bytes; cbn.
      repeat (constructor; [unfold text_byte, newline; lia|]); constructor.
Defined.

(** ** check_section on an empty bracket interior (C9) *)

Lemma empty_section_accesses init :
  rev (trace (snd (section_end_of_line 0 (fresh init))))
  = [Wr 0; Rd (-1); Wr (if init (-1) =? close_bracket then -1 else 0)].
Proof.
  unfold section_end_of_line; simpl.
  destruct (init (-1) =? close_bracket); reflexivity.
Qed.

Lemma first_round_guard C :
  2 <= C < size_modulus -> negb (to_size 0 <? to_size (C - 1)) = false.
Proof.
  intros HC; rewrite loop_guard by lia.
  apply negb_false_iff, Z.ltb_lt; lia.
Qed.

(** C9 (defect of the code).  On the line made of an opening bracket and a
    newline, with any capacity from 2 on, both engines test
    [section[i - 1]] with [i = 0]: they read the byte in front of the
    destination.  When that byte happens to be a closing bracket they also
    write there and return [(size_t)-1]. *)
Theorem check_section_reads_before_destination :
  forall (init : Z -> Z) (C : Z),
    (2 <= C < size_modulus ->
     accesses (kv_parse_buffer_check_section [open_bracket; newline]
                 (fresh init) C)
     = [Wr 0; Rd (-1); Wr (if init (-1) =? close_bracket then -1 else 0)]
     /\ file_accesses (kv_parse_check_section (fopen [open_bracket; newline])
                         (fresh init) C)
        = [Wr 0; Rd (-1); Wr (if init (-1) =? close_bracket then -1 else 0)])
    /\ ~ in_bounds C (Rd (-1))
    /\ accesses (kv_parse_buffer_check_section [open_bracket; newline]
                   (fresh (fun _ => close_bracket)) 100)
       = [Wr 0; Rd (-1); Wr (-1)]
    /\ file_view 0 (kv_parse_check_section (fopen [open_bracket; newline])
                      (fresh (fun _ => close_bracket)) 100)
       = Some (SectionFound, size_modulus - 1,
               fopen [open_bracket; newline], []).
Proof.
  intros init C; split; [|split; [|split; reflexivity]].
  - intros HC; pose proof (first_round_guard C HC) as G; split.
    + unfold accesses, kv_parse_buffer_check_section; cbn [deref hd tl].
      unfold open_bracket at 1 2; cbn [Z.eqb Pos.eqb negb].
      rewrite buffer_section_loop_eq, G; cbn [is_eol newline Z.eqb Pos.eqb orb].
      apply empty_section_accesses.
    + assert (G' : negb (0 <? to_size (C - 1)) = false) by exact G.
      unfold file_accesses, kv_parse_check_section, fopen, rounds; cbn.
      rewrite G'.
      destruct (init (-1) =? close_bracket); reflexivity.
  - unfold in_bounds; simpl; lia.
Qed.

(** The defect at the capacity of the tests. *)
Lemma check_section_reads_before_destination_witness :
  In (Rd (-1))
     (accesses (kv_parse_buffer_check_section [open_bracket; newline] zeroed 100))
  /\ In (Rd (-1))
       (file_accesses (kv_parse_check_section (fopen [open_bracket; newline])
                         zeroed 100)).
Proof.
  destruct (check_section_reads_before_destination (fun _ => 0) 100) as [H _].
  destruct H as [Hb Hf]; [unfold size_modulus; lia|].
  unfold zeroed; rewrite Hb, Hf; simpl; tauto.
Defined.

(** ** The capacity boundary in both engines (C1) *)

(** C1 (defect of the code).  A value of exactly capacity - 1 bytes does not
    succeed.  With capacity 3 the two-byte value [ab] leaves both engines
    through the too-large exit, with length 0, an empty destination and the
    stream back at the value start; the same value is returned whole only
    with capacity 4.  In general get_value rejects a plain value exactly
    when it has capacity - 1 bytes or more (buffer engine: on every buffer;
    stream engine: on every text without NUL and without the byte 255): the
    for loop gives up as soon as capacity - 1 bytes are copied, before
    looking whether the line ends there. *)
Theorem get_value_rejects_capacity_minus_one :
  forall (cfg : config) (init : Z -> Z),
    view 1 (kv_parse_buffer_get_value cfg (txt "ab") (fresh init) 3)
      = (TooLarge, 0, [0])
    /\ file_view 1 (kv_parse_get_value cfg (fopen (txt "ab")) (fresh init) 3)
      = Some (TooLarge, 0, fopen (txt "ab"), [0])
    /\ view 3 (kv_parse_buffer_get_value cfg (txt "ab") (fresh init) 4)
      = (EndOfLine, 2, txt "ab" ++ [0])
    /\ file_view 3 (kv_parse_get_value cfg (fopen (txt "ab")) (fresh init) 4)
      = Some (EndOfLine, 2, fopen (txt "ab"), txt "ab" ++ [0])
    /\ (forall (C : Z) (s t : list Z) (d : dest),
          1 <= C < size_modulus -> plain cfg s -> is_eol (deref t) = true ->
          (fst (fst (kv_parse_buffer_get_value cfg (s ++ t) d C)) = TooLarge
           <-> C - 1 <= Z.of_nat (length s))
          /\ (forall bytes : list Z,
                text_bytes bytes -> as_buffer bytes = s ++ t ->
                exists e n f' d',
                  kv_parse_get_value cfg (fopen bytes) d C = Some (e, n, f', d')
                  /\ (e = TooLarge <-> C - 1 <= Z.of_nat (length s)))).
Proof.
  intros cfg init.
  split; [|split; [|split; [|split]]];
    try (both_flags cfg; reflexivity).
  intros C s t d HC [Hs Hlead] Ht.
  assert (Hbuf : fst (fst (kv_parse_buffer_get_value cfg (s ++ t) d C)) = TooLarge
                 <-> C - 1 <= Z.of_nat (length s)).
  { unfold kv_parse_buffer_get_value.
    assert (Hskip : (if whitespace_skip cfg then buffer_skip_blank (s ++ t)
                     else s ++ t) = s ++ t).
    { destruct (whitespace_skip cfg); [|reflexivity].
      apply buffer_skip_blank_stable.
      destruct s as [|c s]; [apply is_eol_not_blank; exact Ht|].
      apply Hlead; reflexivity. }
    rewrite Hskip, (buffer_value_loop_plain cfg C HC s t 0 0 d Hs Ht) by lia.
    rewrite Z.add_0_l.
    destruct (C - 1 <=? Z.of_nat (length s)) eqn:E.
    - apply Z.leb_le in E; split; [intros _; exact E|reflexivity].
    - apply Z.leb_gt in E; split; [discriminate|lia]. }
  split; [exact Hbuf|].
  intros bytes Hb Eb.
  destruct (sim_get_value cfg bytes 0 bytes d C Hb) as [f' E].
  rewrite Eb in E.
  destruct (kv_parse_buffer_get_value cfg (s ++ t) d C) as [[e n] d'].
  exists e, n, f', d'; split; [exact E|exact Hbuf].
Qed.

(** The general part at work: nine bytes in a ten-byte destination. *)
Lemma get_value_boundary_witness :
  fst (fst (kv_parse_buffer_get_value (Config true true) (txt "longvalue")
              zeroed 10)) = TooLarge.
Proof.
  destruct (get_value_rejects_capacity_minus_one (Config true true) (fun _ => 0))
    as (_ & _ & _ & _ & H).
  apply (H 10 (txt "longvalue") [] zeroed).
  - unfold size_modulus; lia.
  - split; [|reflexivity].
    repeat (constructor; [split; [reflexivity|intros _; reflexivity]|]).
    constructor.
  - reflexivity.
  - simpl; lia.
Defined.

(** * Further properties of the code *)

(** ** What the destination holds *)

Lemma contents_from d s :
  forall a : nat,
    (forall k, (k < length s)%nat -> cells d (Z.of_nat (a + k)) = nth k s 0) ->
    map (fun k => cells d (Z.of_nat k)) (seq a (length s)) = s.
Proof.
  induction s as [|c s IH]; intros a H; [reflexivity|].
  simpl; f_equal.
  - specialize (H O); rewrite Nat.add_0_r in H; apply H; simpl; lia.
  - apply IH; intros k Hk.
    replace (S a + k)%nat with (a + S k)%nat by lia.
    apply (H (S k)); simpl; lia.
Qed.

Lemma stored_contents d s : stored d s -> contents d (length s) = s.
Proof. intros H; apply (contents_from d s O); exact H. Qed.

Lemma stored_nil d : stored d [].
Proof. intros k Hk; simpl in Hk; lia. Qed.

Lemma stored_snoc d s c :
  stored d s -> stored (store d (Z.of_nat (length s)) c) (s ++ [c]).
Proof.
  intros H k Hk; rewrite length_app in Hk; simpl in Hk.
  destruct (Nat.eq_dec k (length s)) as [->|Hne].
  - rewrite cells_store_same, nth_middle; reflexivity.
  - rewrite cells_store_other by lia.
    rewrite app_nth1 by lia; apply H; lia.
Qed.

Lemma stored_above d s i v :
  stored d s -> Z.of_nat (length s) <= i -> stored (store d i v) s.
Proof.
  intros H Hi k Hk; rewrite cells_store_other by lia; apply H; exact Hk.
Qed.

Lemma stored_prefix d s c : stored d (s ++ [c]) -> stored d s.
Proof.
  intros H k Hk; rewrite (H k) by (rewrite length_app; simpl; lia).
  apply app_nth1; exact Hk.
Qed.

Lemma stored_last d s c :
  stored d (s ++ [c]) -> cells d (Z.of_nat (length s)) = c.
Proof.
  intros H; rewrite (H (length s)) by (rewrite length_app; simpl; lia).
  apply nth_middle.
Qed.

Lemma without_trailing_blanks_snoc s c :
  without_trailing_blanks (s ++ [c])
  = if is_blank c then without_trailing_blanks s else s ++ [c].
Proof.
  induction s as [|a s IH]; simpl.
  - destruct (is_blank c); reflexivity.
  - rewrite IH. destruct (is_blank c); [reflexivity|].
    destruct (s ++ [c]) eqn:E; [|reflexivity].
    destruct s; discriminate E.
Qed.

(** The trim loop on a destination that starts with [s] and a NUL. *)
Lemma trim_loop_spec :
  forall s fuel d,
    stored d s -> cells d (Z.of_nat (length s)) = 0 ->
    (length s <= fuel)%nat ->
    let r := without_trailing_blanks s in
    fst (trim_loop fuel (Z.of_nat (length s)) d) = Z.of_nat (length r)
    /\ stored (snd (trim_loop fuel (Z.of_nat (length s)) d)) r
    /\ cells (snd (trim_loop fuel (Z.of_nat (length s)) d)) (Z.of_nat (length r))
       = 0.
Proof.
  induction s as [|c s IH] using rev_ind; intros fuel d Hs H0 Hf.
  - simpl. destruct fuel; simpl; repeat split; try exact H0; apply stored_nil.
  - rewrite length_app in Hf; simpl in Hf.
    destruct fuel as [|k]; [lia|].
    rewrite without_trailing_blanks_snoc.
    assert (Hlen : Z.of_nat (length (s ++ [c])) = Z.of_nat (length s) + 1)
      by (rewrite length_app; simpl; lia).
    simpl trim_loop. rewrite Hlen.
    assert (Hpos : (0 <? Z.of_nat (length s) + 1) = true)
      by (apply Z.ltb_lt; lia).
    rewrite Hpos.
    replace (Z.of_nat (length s) + 1 - 1) with (Z.of_nat (length s)) by lia.
    cbn [load fst snd]. rewrite (stored_last d s c Hs).
    destruct (is_blank c).
    + apply IH; [| |lia].
      * intros j Hj; rewrite cells_store_other by lia.
        apply (stored_prefix _ _ _ Hs); exact Hj.
      * apply cells_store_same.
    + cbn [fst snd cells]. rewrite <- Hlen.
      repeat split; [exact Hs|exact H0].
Qed.

Lemma nul_guard c : (if c =? 0 then 0 else c) = c.
Proof. destruct (c =? 0) eqn:E; [apply Z.eqb_eq in E; congruence|reflexivity]. Qed.

Lemma value_end_of_line_spec cfg s d :
  stored d s -> Z.of_nat (length s) < size_modulus ->
  let v := if whitespace_skip cfg then without_trailing_blanks s else s in
  exists d',
    value_end_of_line cfg (Z.of_nat (length s)) d
    = (EndOfLine, Z.of_nat (length v), d')
    /\ stored d' v /\ cells d' (Z.of_nat (length v)) = 0.
Proof.
  intros Hs Hlen; unfold value_end_of_line.
  assert (Hs1 : stored (store d (Z.of_nat (length s)) 0) s)
    by (apply stored_above; [exact Hs|lia]).
  destruct (whitespace_skip cfg).
  - unfold trim; rewrite Nat2Z.id.
    destruct (trim_loop_spec s (length s) _ Hs1 (cells_store_same _ _ _))
      as (E & Hst & H0); [lia|].
    destruct (trim_loop (length s) (Z.of_nat (length s))
                (store d (Z.of_nat (length s)) 0)) as [i' d'].
    cbn [fst snd] in *; subst i'.
    exists d'; repeat split; try assumption.
    rewrite to_size_small; [reflexivity|].
    assert (length (without_trailing_blanks s) <= length s)%nat; [|lia].
    clear; induction s as [|c s IH]; simpl; [lia|].
    destruct (without_trailing_blanks s); [destruct (is_blank c)|];
      simpl in *; lia.
  - eexists; repeat split; [|exact Hs1|apply cells_store_same].
    rewrite to_size_small by lia; reflexivity.
Qed.

(** ** Values without quotes *)

(** The copy loop on a value without quote characters that fits: it stores
    the bytes one after the other and leaves through the end-of-line
    branch. *)
Lemma buffer_value_loop_copies cfg C :
  1 <= C < size_modulus ->
  forall s pre t p d,
    Forall (plain_char cfg) s -> is_eol (deref t) = true ->
    stored d pre ->
    Z.of_nat (length pre) + Z.of_nat (length s) <= C - 2 ->
    exists d1,
      buffer_value_loop cfg C (s ++ t) (Z.of_nat (length pre)) 0 p d
      = value_end_of_line cfg (Z.of_nat (length (pre ++ s))) d1
      /\ stored d1 (pre ++ s).
Proof.
  intros HC; induction s as [|c s IH]; intros pre t p d Hs Ht Hd Hlen;
    rewrite buffer_value_loop_eq, loop_guard by (assumption || lia).
  - simpl length in Hlen.
    assert (G : (Z.of_nat (length pre) <? C - 1) = true) by (apply Z.ltb_lt; lia).
    rewrite G; simpl negb; cbv iota.
    rewrite app_nil_r; simpl app.
    exists d; split; [|exact Hd].
    destruct t as [|c t']; [reflexivity|].
    simpl in Ht; rewrite Ht; reflexivity.
  - inversion Hs as [|? ? Hc Hs']; subst.
    destruct (plain_branches cfg c p Hc) as (B0 & B1 & B2 & B3).
    simpl negb in B2, B3.
    simpl length in Hlen.
    assert (G : (Z.of_nat (length pre) <? C - 1) = true) by (apply Z.ltb_lt; lia).
    simpl app; rewrite G; simpl negb; cbv iota.
    rewrite B0, B1, B2, B3, nul_guard.
    replace (Z.of_nat (length pre) + 1) with (Z.of_nat (length (pre ++ [c])))
      by (rewrite length_app; simpl; lia).
    destruct (IH (pre ++ [c]) t (if quoted_strings cfg then c else p)
                (store d (Z.of_nat (length pre)) c) Hs' Ht) as (d1 & E & Hd1).
    + apply stored_snoc; exact Hd.
    + rewrite length_app; simpl; lia.
    + exists d1. rewrite <- app_assoc in E, Hd1. simpl app in E, Hd1.
      split; assumption.
Qed.

Lemma length_without_trailing_blanks s :
  (length (without_trailing_blanks s) <= length s)%nat.
Proof.
  induction s as [|c s IH]; simpl; [lia|].
  destruct (without_trailing_blanks s); [destruct (is_blank c)|];
    simpl in *; lia.
Qed.

Lemma stored_holds d s :
  stored d s -> cells d (Z.of_nat (length s)) = 0 -> holds_string d s.
Proof. intros H H0; split; [apply stored_contents; exact H|exact H0]. Qed.

(** get_value on a value without quote characters, in front of the end of
    the line. *)
Lemma buffer_get_value_plain cfg C w s t d :
  1 <= C < size_modulus ->
  blanks w -> (whitespace_skip cfg = false -> w = []) ->
  plain cfg s -> is_eol (deref t) = true ->
  Z.of_nat (length s) <= C - 2 ->
  let v := if whitespace_skip cfg then without_trailing_blanks s else s in
  exists d',
    kv_parse_buffer_get_value cfg (w ++ s ++ t) d C
    = (EndOfLine, Z.of_nat (length v), d')
    /\ holds_string d' v.
Proof.
  intros HC Hw Hw0 [Hs Hb] Ht Hlen v.
  assert (E0 : (if whitespace_skip cfg then buffer_skip_blank (w ++ s ++ t)
                else w ++ s ++ t) = s ++ t).
  { destruct (whitespace_skip cfg) eqn:W.
    - rewrite buffer_skip_blank_app by exact Hw.
      apply buffer_skip_blank_stable.
      destruct s as [|c s']; [apply is_eol_not_blank; exact Ht|].
      apply Hb; reflexivity.
    - rewrite (Hw0 eq_refl); reflexivity. }
  unfold kv_parse_buffer_get_value; rewrite E0.
  destruct (buffer_value_loop_copies cfg C HC s [] t 0 d Hs Ht (stored_nil d))
    as (d1 & E & Hd1); [simpl; lia|].
  simpl length in E; simpl app in E, Hd1.
  change (Z.of_nat 0) with 0 in E. rewrite E.
  destruct (value_end_of_line_spec cfg s d1 Hd1) as (d' & E' & Hst & H0);
    [lia|].
  exists d'; split; [exact E'|apply stored_holds; assumption].
Qed.

(** X1 (get_value, both engines): an unquoted value that fits the
    destination is copied up to the end of the line; with whitespace
    skipping, the blanks in front of it are skipped and the blanks behind it
    are cut off; the destination then holds the value as a C string and the
    returned length is its length. *)
Theorem plain_value_is_copied_and_trimmed :
  forall (cfg : config) (C : Z) (w s t : list Z) (d : dest),
    1 <= C < size_modulus ->
    blanks w -> (whitespace_skip cfg = false -> w = []) ->
    plain cfg s -> is_eol (deref t) = true ->
    Z.of_nat (length s) <= C - 2 -> Z.of_nat (length s) <= int_max ->
    let v := if whitespace_skip cfg then without_trailing_blanks s else s in
    (exists d',
        kv_parse_buffer_get_value cfg (w ++ s ++ t) d C
        = (EndOfLine, Z.of_nat (length v), d')
        /\ holds_string d' v)
    /\ (forall f : FILE,
          text_bytes (ahead f) -> as_buffer (ahead f) = w ++ s ++ t ->
          exists f' d',
            kv_parse_get_value cfg f d C
            = Some (EndOfLine, Z.of_nat (length v), f', d')
            /\ holds_string d' v).
Proof.
  intros cfg C w s t d HC Hw Hw0 Hs Ht Hlen _ v.
  destruct (buffer_get_value_plain cfg C w s t d HC Hw Hw0 Hs Ht Hlen)
    as (d' & E & Hh).
  split; [exists d'; split; assumption|].
  intros [dt p l] Hl Hb; cbn [ahead] in Hl, Hb.
  destruct (sim_get_value cfg dt p l d C Hl) as (f' & Ef).
  rewrite Hb, E in Ef.
  exists f', d'; split; assumption.
Qed.

Lemma plain_value_is_copied_and_trimmed_witness :
  exists d',
    kv_parse_buffer_get_value (Config true true)
      (txt "  value 1  " ++ newline :: txt "k=v") zeroed 100
    = (EndOfLine, 7, d')
    /\ holds_string d' (txt "value 1").
Proof.
  destruct (plain_value_is_copied_and_trimmed (Config true true) 100
              (txt "  ") (txt "value 1  ") (newline :: txt "k=v") zeroed)
    as [H _].
  - unfold size_modulus; lia.
  - repeat constructor.
  - intros H; discriminate H.
  - split; [|intros _; reflexivity].
    repeat (constructor; [split; [reflexivity|intros _; reflexivity]|]).
    constructor.
  - reflexivity.
  - simpl; lia.
  - unfold int_max; simpl; lia.
  - exact H.
Defined.

(** ** Quoted values *)

Lemma is_quote_facts q :
  is_quote q = true ->
  (q =? 0) = false /\ (backslash =? q) = false /\ is_eol q = false
  /\ is_blank q = false.
Proof.
  unfold is_quote; intros H; apply orb_true_iff in H.
  destruct H as [H|H]; apply Z.eqb_eq in H; subst; repeat split.
Qed.

Lemma prev_after_snoc q p s c :
  prev_after q p (s ++ [c]) = if c =? q then backslash else c.
Proof. unfold prev_after; rewrite fold_left_app; reflexivity. Qed.

Lemma prev_after_last q s :
  is_quote q = true -> last s 0 <> q -> last s 0 <> backslash ->
  (prev_after q 0 s =? backslash) = false.
Proof.
  intros Hq H1 H2; destruct s as [|c s] using rev_ind; [reflexivity|].
  rewrite last_last in H1, H2; rewrite prev_after_snoc.
  apply Z.eqb_neq in H1; rewrite H1; apply Z.eqb_neq; exact H2.
Qed.

(** The copy loop inside a quoted string: the escaped text of [s] leaves
    [s] in the destination. *)
Lemma buffer_value_loop_quoted cfg C q :
  1 <= C < size_modulus -> quoted_strings cfg = true -> is_quote q = true ->
  forall s pre rest p d,
    no_eol s -> stored d pre ->
    Z.of_nat (length pre) + Z.of_nat (length s) <= C - 2 ->
    exists d1,
      buffer_value_loop cfg C (escape q s ++ rest) (Z.of_nat (length pre)) q p d
      = buffer_value_loop cfg C rest (Z.of_nat (length (pre ++ s))) q
          (prev_after q p s) d1
      /\ stored d1 (pre ++ s).
Proof.
  intros HC HQ Hq.
  destruct (is_quote_facts q Hq) as (Q0 & Qb & Qe & _).
  induction s as [|c s IH]; intros pre rest p d Hs Hd Hlen.
  - exists d; rewrite app_nil_r; split; [reflexivity|exact Hd].
  - inversion Hs as [|? ? Hc Hs']; subst.
    simpl length in Hlen.
    assert (G : (Z.of_nat (length pre) <? C - 1) = true) by (apply Z.ltb_lt; lia).
    assert (Hnext : Z.of_nat (length pre) + 1 = Z.of_nat (length (pre ++ [c])))
      by (rewrite length_app; simpl; lia).
    change (prev_after q p (c :: s))
      with (prev_after q (if c =? q then backslash else c) s).
    unfold escape; simpl flat_map; fold (escape q s).
    destruct (c =? q) eqn:Ecq.
    + apply Z.eqb_eq in Ecq; subst c.
      simpl app.
      rewrite buffer_value_loop_eq, loop_guard by (assumption || lia).
      rewrite G, HQ, Q0, Qb; simpl negb; cbv iota.
      change (is_eol backslash) with false; cbv iota.
      change (is_quote backslash) with false.
      rewrite !andb_false_r; cbv iota. rewrite nul_guard.
      rewrite buffer_value_loop_eq, loop_guard by (assumption || lia).
      assert (G1 : (Z.of_nat (length pre) + 1 <? C - 1) = true)
        by (apply Z.ltb_lt; lia).
      rewrite G1, Qe, Q0, HQ, !Z.eqb_refl; simpl negb; simpl andb; cbv iota.
      rewrite Z.add_simpl_r, Hnext.
      destruct (IH (pre ++ [q]) rest backslash
                  (store (store d (Z.of_nat (length pre)) backslash)
                     (Z.of_nat (length pre)) q) Hs') as (d1 & E & Hd1).
      * apply stored_snoc, stored_above; [exact Hd|lia].
      * rewrite length_app; simpl; lia.
      * exists d1; rewrite <- app_assoc in E, Hd1; simpl app in E, Hd1.
        split; assumption.
    + simpl app.
      rewrite buffer_value_loop_eq, loop_guard by (assumption || lia).
      rewrite G, HQ, Q0, Hc, Ecq; simpl negb; simpl andb; cbv iota.
      rewrite !andb_false_r; cbv iota. rewrite nul_guard, Hnext.
      destruct (IH (pre ++ [c]) rest c
                  (store d (Z.of_nat (length pre)) c) Hs') as (d1 & E & Hd1).
      * apply stored_snoc; exact Hd.
      * rewrite length_app; simpl; lia.
      * exists d1; rewrite <- app_assoc in E, Hd1; simpl app in E, Hd1.
        split; assumption.
Qed.

Lemma buffer_get_value_opens_quote cfg C q w X d :
  2 <= C < size_modulus -> quoted_strings cfg = true -> is_quote q = true ->
  blanks w -> (whitespace_skip cfg = false -> w = []) ->
  kv_parse_buffer_get_value cfg (w ++ q :: X) d C
  = buffer_value_loop cfg C X 0 q 0 d.
Proof.
  intros HC HQ Hq Hw Hw0.
  destruct (is_quote_facts q Hq) as (Q0 & Qb & Qe & Qn).
  assert (E0 : (if whitespace_skip cfg then buffer_skip_blank (w ++ q :: X)
                else w ++ q :: X) = q :: X).
  { destruct (whitespace_skip cfg) eqn:W.
    - rewrite buffer_skip_blank_app by exact Hw.
      apply buffer_skip_blank_stable; exact Qn.
    - rewrite (Hw0 eq_refl); reflexivity. }
  unfold kv_parse_buffer_get_value; rewrite E0.
  rewrite buffer_value_loop_eq, loop_guard by lia.
  assert (G : (0 <? C - 1) = true) by (apply Z.ltb_lt; lia).
  rewrite G, Qe, HQ, Hq; reflexivity.
Qed.

Lemma buffer_get_value_quoted cfg C q w s rest d :
  1 <= C < size_modulus -> quoted_strings cfg = true -> is_quote q = true ->
  blanks w -> (whitespace_skip cfg = false -> w = []) ->
  no_eol s -> last s 0 <> q -> last s 0 <> backslash ->
  Z.of_nat (length s) <= C - 2 ->
  exists d',
    kv_parse_buffer_get_value cfg (w ++ q :: escape q s ++ q :: rest) d C
    = (ClosingQuote, Z.of_nat (length s), d')
    /\ holds_string d' s.
Proof.
  intros HC HQ Hq Hw Hw0 Hs Hl1 Hl2 Hlen.
  destruct (is_quote_facts q Hq) as (Q0 & Qb & Qe & Qn).
  rewrite buffer_get_value_opens_quote by (assumption || lia).
  destruct (buffer_value_loop_quoted cfg C q HC HQ Hq s [] (q :: rest) 0 d Hs
              (stored_nil d)) as (d1 & E & Hd1); [simpl; lia|].
  simpl length in E; simpl app in E, Hd1; change (Z.of_nat 0) with 0 in E.
  rewrite E, buffer_value_loop_eq, loop_guard by lia.
  assert (G : (Z.of_nat (length s) <? C - 1) = true) by (apply Z.ltb_lt; lia).
  rewrite G, Qe, HQ, Q0, Z.eqb_refl, (prev_after_last q s Hq Hl1 Hl2).
  simpl negb; simpl andb; cbv iota.
  rewrite to_size_small by lia.
  eexists; split; [reflexivity|].
  apply stored_holds; [apply stored_above; [exact Hd1|lia]|].
  apply cells_store_same.
Qed.

Lemma buffer_get_value_unterminated cfg C q w s t d :
  1 <= C < size_modulus -> quoted_strings cfg = true -> is_quote q = true ->
  blanks w -> (whitespace_skip cfg = false -> w = []) ->
  no_eol s -> is_eol (deref t) = true ->
  Z.of_nat (length s) <= C - 2 ->
  let v := if whitespace_skip cfg then without_trailing_blanks s else s in
  exists d',
    kv_parse_buffer_get_value cfg (w ++ q :: escape q s ++ t) d C
    = (EndOfLine, Z.of_nat (length v), d')
    /\ holds_string d' v.
Proof.
  intros HC HQ Hq Hw Hw0 Hs Ht Hlen v.
  rewrite buffer_get_value_opens_quote by (assumption || lia).
  destruct (buffer_value_loop_quoted cfg C q HC HQ Hq s [] t 0 d Hs
              (stored_nil d)) as (d1 & E & Hd1); [simpl; lia|].
  simpl length in E; simpl app in E, Hd1; change (Z.of_nat 0) with 0 in E.
  rewrite E, buffer_value_loop_eq, loop_guard by lia.
  assert (G : (Z.of_nat (length s) <? C - 1) = true) by (apply Z.ltb_lt; lia).
  rewrite G; simpl negb; cbv iota.
  destruct (value_end_of_line_spec cfg s d1 Hd1) as (d' & E' & Hst & H0);
    [lia|].
  exists d'; split; [|apply stored_holds; assumption].
  destruct t as [|c t']; [exact E'|].
  simpl in Ht; rewrite Ht; exact E'.
Qed.

(** X2 (get_value, both engines): inside quotes, a text in which every
    quote character is written with a backslash in front of it comes out as
    the text itself: blanks at its end are kept and whatever follows the
    closing quote is ignored.  The text must not end in a backslash or in a
    quote character, after which the closing quote is not recognised. *)
Theorem quoted_value_round_trip :
  forall (cfg : config) (C q : Z) (w s rest : list Z) (d : dest),
    1 <= C < size_modulus -> quoted_strings cfg = true -> is_quote q = true ->
    blanks w -> (whitespace_skip cfg = false -> w = []) ->
    no_eol s -> last s 0 <> q -> last s 0 <> backslash ->
    Z.of_nat (length s) <= C - 2 -> Z.of_nat (length s) <= int_max ->
    (exists d',
        kv_parse_buffer_get_value cfg (w ++ q :: escape q s ++ q :: rest) d C
        = (ClosingQuote, Z.of_nat (length s), d')
        /\ holds_string d' s)
    /\ (forall f : FILE,
          text_bytes (ahead f) ->
          as_buffer (ahead f) = w ++ q :: escape q s ++ q :: rest ->
          exists f' d',
            kv_parse_get_value cfg f d C
            = Some (ClosingQuote, Z.of_nat (length s), f', d')
            /\ holds_string d' s).
Proof.
  intros cfg C q w s rest d HC HQ Hq Hw Hw0 Hs Hl1 Hl2 Hlen _.
  destruct (buffer_get_value_quoted cfg C q w s rest d HC HQ Hq Hw Hw0 Hs
              Hl1 Hl2 Hlen) as (d' & E & Hh).
  split; [exists d'; split; assumption|].
  intros [dt p l] Hl Hb; cbn [ahead] in Hl, Hb.
  destruct (sim_get_value cfg dt p l d C Hl) as (f' & Ef).
  rewrite Hb, E in Ef.
  exists f', d'; split; assumption.
Qed.

Lemma quoted_value_round_trip_witness :
  exists d',
    kv_parse_buffer_get_value (Config true true)
      (32 :: double_quote
          :: (txt "say " ++ [backslash; double_quote] ++ txt "hi"
                ++ [backslash; double_quote] ++ txt ", ok  ")
          ++ double_quote :: txt " # note") zeroed 100
    = (ClosingQuote, 14, d')
    /\ holds_string d'
         (txt "say " ++ [double_quote] ++ txt "hi" ++ [double_quote]
            ++ txt ", ok  ").
Proof.
  destruct (quoted_value_round_trip (Config true true) 100 double_quote [32]
              (txt "say " ++ [double_quote] ++ txt "hi" ++ [double_quote]
                 ++ txt ", ok  ")
              (txt " # note") zeroed) as [H _].
  - unfold size_modulus; lia.
  - reflexivity.
  - reflexivity.
  - repeat constructor.
  - intros H; discriminate H.
  - repeat constructor.
  - simpl; unfold double_quote; lia.
  - simpl; unfold backslash; lia.
  - simpl; lia.
  - unfold int_max; simpl; lia.
  - exact H.
Defined.

(** X3 (get_value, both engines): a quoted string whose closing quote is
    missing is read up to the end of the line, and is then trimmed like an
    unquoted value. *)
Theorem unterminated_quote_reads_to_end_of_line :
  forall (cfg : config) (C q : Z) (w s t : list Z) (d : dest),
    1 <= C < size_modulus -> quoted_strings cfg = true -> is_quote q = true ->
    blanks w -> (whitespace_skip cfg = false -> w = []) ->
    no_eol s -> is_eol (deref t) = true ->
    Z.of_nat (length s) <= C - 2 -> Z.of_nat (length s) <= int_max ->
    let v := if whitespace_skip cfg then without_trailing_blanks s else s in
    (exists d',
        kv_parse_buffer_get_value cfg (w ++ q :: escape q s ++ t) d C
        = (EndOfLine, Z.of_nat (length v), d')
        /\ holds_string d' v)
    /\ (forall f : FILE,
          text_bytes (ahead f) ->
          as_buffer (ahead f) = w ++ q :: escape q s ++ t ->
          exists f' d',
            kv_parse_get_value cfg f d C
            = Some (EndOfLine, Z.of_nat (length v), f', d')
            /\ holds_string d' v).
Proof.
  intros cfg C q w s t d HC HQ Hq Hw Hw0 Hs Ht Hlen _ v.
  destruct (buffer_get_value_unterminated cfg C q w s t d HC HQ Hq Hw Hw0 Hs
              Ht Hlen) as (d' & E & Hh).
  split; [exists d'; split; assumption|].
  intros [dt p l] Hl Hb; cbn [ahead] in Hl, Hb.
  destruct (sim_get_value cfg dt p l d C Hl) as (f' & Ef).
  rewrite Hb, E in Ef.
  exists f', d'; split; assumption.
Qed.

Lemma unterminated_quote_witness :
  exists d',
    kv_parse_buffer_get_value (Config true true)
      (39 :: txt "open  " ++ newline :: txt "k=v") zeroed 100
    = (EndOfLine, 4, d')
    /\ holds_string d' (txt "open").
Proof.
  destruct (unterminated_quote_reads_to_end_of_line (Config true true) 100 39
              [] (txt "open  ") (newline :: txt "k=v") zeroed) as [H _].
  - unfold size_modulus; lia.
  - reflexivity.
  - reflexivity.
  - constructor.
  - intros H; discriminate H.
  - repeat constructor.
  - reflexivity.
  - simpl; lia.
  - unfold int_max; simpl; lia.
  - exact H.
Defined.

(** ** Section headers *)

Lemma buffer_section_loop_copies C :
  1 <= C < size_modulus ->
  forall s pre t d,
    no_eol s -> is_eol (deref t) = true -> stored d pre ->
    Z.of_nat (length pre) + Z.of_nat (length s) <= C - 2 ->
    exists d1,
      buffer_section_loop C (s ++ t) (Z.of_nat (length pre)) d
      = section_end_of_line (Z.of_nat (length (pre ++ s))) d1
      /\ stored d1 (pre ++ s).
Proof.
  intros HC; induction s as [|c s IH]; intros pre t d Hs Ht Hd Hlen;
    rewrite buffer_section_loop_eq, loop_guard by (assumption || lia);
    simpl length in Hlen;
    assert (G : (Z.of_nat (length pre) <? C - 1) = true)
      by (apply Z.ltb_lt; lia);
    simpl app; rewrite G; simpl negb; cbv iota.
  - rewrite app_nil_r.
    exists d; split; [|exact Hd].
    destruct t as [|c t']; [reflexivity|].
    simpl in Ht; rewrite Ht; reflexivity.
  - inversion Hs as [|? ? Hc Hs']; subst.
    rewrite Hc.
    replace (Z.of_nat (length pre) + 1) with (Z.of_nat (length (pre ++ [c])))
      by (rewrite length_app; simpl; lia).
    destruct (IH (pre ++ [c]) t (store d (Z.of_nat (length pre)) c) Hs' Ht)
      as (d1 & E & Hd1).
    + apply stored_snoc; exact Hd.
    + rewrite length_app; simpl; lia.
    + exists d1; rewrite <- app_assoc in E, Hd1; simpl app in E, Hd1.
      split; assumption.
Qed.

Lemma without_trailing_blanks_app s w :
  blanks w -> without_trailing_blanks (s ++ w) = without_trailing_blanks s.
Proof.
  induction w as [|c w IH] using rev_ind; intros Hw; [rewrite app_nil_r; reflexivity|].
  apply Forall_app in Hw; destruct Hw as [Hw Hc].
  inversion Hc as [|? ? Hb _]; subst.
  rewrite app_assoc, without_trailing_blanks_snoc, Hb; apply IH; exact Hw.
Qed.

(** The end-of-line branch of check_section when the line holds more than
    blanks behind the opening bracket. *)
Lemma section_end_of_line_spec s d :
  stored d s -> Z.of_nat (length s) < size_modulus ->
  without_trailing_blanks s <> [] ->
  let r := without_trailing_blanks s in
  exists d',
    section_end_of_line (Z.of_nat (length s)) d
    = (if last r 0 =? close_bracket
       then (SectionFound, Z.of_nat (length (removelast r)), d')
       else (MissingBracket, 0, d'))
    /\ (if last r 0 =? close_bracket then holds_string d' (removelast r)
        else cells d' 0 = 0).
Proof.
  intros Hs Hlen Hr r; unfold section_end_of_line, trim.
  rewrite Nat2Z.id.
  assert (Hs1 : stored (store d (Z.of_nat (length s)) 0) s)
    by (apply stored_above; [exact Hs|lia]).
  destruct (trim_loop_spec s (length s) _ Hs1 (cells_store_same _ _ _))
    as (E & Hst & H0); [lia|].
  destruct (trim_loop (length s) (Z.of_nat (length s))
              (store d (Z.of_nat (length s)) 0)) as [i1 d2].
  cbn [fst snd] in E, Hst, H0; subst i1; fold r in Hst, H0 |- *.
  pose proof (length_without_trailing_blanks s) as Hle; fold r in Hle.
  assert (Hsplit : r = removelast r ++ [last r 0])
    by (apply app_removelast_last; exact Hr).
  assert (Hl : Z.of_nat (length r) - 1 = Z.of_nat (length (removelast r))).
  { rewrite Hsplit at 1; rewrite length_app; simpl; lia. }
  rewrite Hl; cbn [load].
  assert (Hc : cells d2 (Z.of_nat (length (removelast r))) = last r 0)
    by (apply stored_last; rewrite <- Hsplit; exact Hst).
  rewrite Hc.
  destruct (last r 0 =? close_bracket); simpl negb; cbv iota.
  - eexists; split; [rewrite to_size_small by lia; reflexivity|].
    apply stored_holds; [|apply cells_store_same].
    apply stored_above; [|lia].
    apply (stored_prefix _ _ (last r 0)); rewrite <- Hsplit.
    intros k Hk; apply Hst; exact Hk.
  - eexists; split; [reflexivity|apply cells_store_same].
Qed.

Lemma buffer_check_section_line C body t d :
  1 <= C < size_modulus -> no_eol body -> is_eol (deref t) = true ->
  Z.of_nat (length body) <= C - 2 ->
  without_trailing_blanks body <> [] ->
  let r := without_trailing_blanks body in
  exists d',
    kv_parse_buffer_check_section (open_bracket :: body ++ t) d C
    = (if last r 0 =? close_bracket
       then (SectionFound, Z.of_nat (length (removelast r)), d')
       else (MissingBracket, 0, d'))
    /\ (if last r 0 =? close_bracket then holds_string d' (removelast r)
        else cells d' 0 = 0).
Proof.
  intros HC Hs Ht Hlen Hr r.
  unfold kv_parse_buffer_check_section; cbn [deref hd tl].
  rewrite Z.eqb_refl; simpl negb; cbv iota.
  destruct (buffer_section_loop_copies C HC body [] t d Hs Ht (stored_nil d))
    as (d1 & E & Hd1); [simpl; lia|].
  simpl length in E; simpl app in E, Hd1; change (Z.of_nat 0) with 0 in E.
  rewrite E.
  apply section_end_of_line_spec; [exact Hd1|lia|exact Hr].
Qed.

Lemma blanks_no_eol w : blanks w -> no_eol w.
Proof.
  intros H; induction H as [|c w Hc _ IH]; constructor; [|exact IH].
  destruct (is_eol c) eqn:E; [|reflexivity].
  apply is_eol_not_blank in E; congruence.
Qed.

(** X4 (check_section, both engines): a line that holds an opening bracket, a
    name, a closing bracket and then only blanks yields the name: the
    destination holds it as a C string and its length is returned.  The
    closing bracket and the blanks behind it count against the capacity. *)
Theorem check_section_extracts_name :
  forall (C : Z) (name w t : list Z) (d : dest),
    1 <= C < size_modulus ->
    no_eol name -> blanks w -> is_eol (deref t) = true ->
    Z.of_nat (length name + 1 + length w) <= C - 2 ->
    Z.of_nat (length name + 1 + length w) <= int_max ->
    (exists d',
        kv_parse_buffer_check_section
          (open_bracket :: name ++ close_bracket :: w ++ t) d C
        = (SectionFound, Z.of_nat (length name), d')
        /\ holds_string d' name)
    /\ (forall f : FILE,
          text_bytes (ahead f) ->
          as_buffer (ahead f) = open_bracket :: name ++ close_bracket :: w ++ t ->
          exists f' d',
            kv_parse_check_section f d C
            = Some (SectionFound, Z.of_nat (length name), f', d')
            /\ holds_string d' name).
Proof.
  intros C name w t d HC Hn Hw Ht Hlen _.
  assert (Hr : without_trailing_blanks ((name ++ [close_bracket]) ++ w)
               = name ++ [close_bracket])
    by (rewrite without_trailing_blanks_app, without_trailing_blanks_snoc
          by exact Hw; reflexivity).
  destruct (buffer_check_section_line C ((name ++ [close_bracket]) ++ w) t d HC)
    as (d' & E & Hh).
  - apply Forall_app; split; [|apply blanks_no_eol; exact Hw].
    apply Forall_app; split; [exact Hn|repeat constructor].
  - exact Ht.
  - rewrite !length_app; simpl length; lia.
  - rewrite Hr; destruct name; discriminate.
  - rewrite Hr, last_last, removelast_last in E, Hh.
    rewrite Z.eqb_refl in E, Hh.
    rewrite <- !app_assoc in E; simpl app in E.
    split; [exists d'; split; assumption|].
    intros [dt p l] Hl Hb; cbn [ahead] in Hl, Hb.
    destruct (sim_check_section dt p l d C Hl) as (f' & Ef).
    rewrite Hb, E in Ef.
    exists f', d'; split; assumption.
Qed.

Lemma check_section_extracts_name_witness :
  exists d',
    kv_parse_buffer_check_section (txt "[my section]  " ++ newline :: txt "k=v")
      zeroed 100
    = (SectionFound, 10, d')
    /\ holds_string d' (txt "my section").
Proof.
  destruct (check_section_extracts_name 100 (txt "my section") (txt "  ")
              (newline :: txt "k=v") zeroed) as [H _].
  - unfold size_modulus; lia.
  - repeat constructor.
  - repeat constructor.
  - reflexivity.
  - simpl; lia.
  - unfold int_max; simpl; lia.
  - exact H.
Defined.

(** X5 (check_section, both engines): the closing bracket has to be the last
    character of the line that is not a blank.  When the last such character
    is another one, no section is reported and the destination is left
    empty, also when a closing bracket occurs earlier in the line. *)
Theorem check_section_needs_bracket_at_end_of_line :
  forall (C : Z) (body t : list Z) (d : dest),
    1 <= C < size_modulus ->
    no_eol body -> is_eol (deref t) = true ->
    Z.of_nat (length body) <= C - 2 -> Z.of_nat (length body) <= int_max ->
    without_trailing_blanks body <> [] ->
    last (without_trailing_blanks body) 0 <> close_bracket ->
    (exists d',
        kv_parse_buffer_check_section (open_bracket :: body ++ t) d C
        = (MissingBracket, 0, d')
        /\ cells d' 0 = 0)
    /\ (forall f : FILE,
          text_bytes (ahead f) ->
          as_buffer (ahead f) = open_bracket :: body ++ t ->
          exists f' d',
            kv_parse_check_section f d C = Some (MissingBracket, 0, f', d')
            /\ cells d' 0 = 0).
Proof.
  intros C body t d HC Hs Ht Hlen _ Hr Hl.
  destruct (buffer_check_section_line C body t d HC Hs Ht Hlen Hr)
    as (d' & E & Hh).
  apply Z.eqb_neq in Hl; rewrite Hl in E, Hh.
  split; [exists d'; split; assumption|].
  intros [dt p l] Hl' Hb; cbn [ahead] in Hl', Hb.
  destruct (sim_check_section dt p l d C Hl') as (f' & Ef).
  rewrite Hb, E in Ef.
  exists f', d'; split; assumption.
Qed.

Lemma check_section_needs_bracket_witness :
  exists d',
    kv_parse_buffer_check_section (txt "[core] # settings") zeroed 100
    = (MissingBracket, 0, d')
    /\ cells d' 0 = 0.
Proof.
  destruct (check_section_needs_bracket_at_end_of_line 100
              (txt "core] # settings") [] zeroed) as [H _].
  - unfold size_modulus; lia.
  - repeat constructor.
  - reflexivity.
  - simpl; lia.
  - unfold int_max; simpl; lia.
  - discriminate.
  - simpl; unfold close_bracket; lia.
  - rewrite app_nil_r in H; exact H.
Defined.

(** ** Lines that match a key *)

Lemma buffer_key_loop_inv :
  forall key str s2,
    c_string key -> buffer_key_loop str key = Some s2 ->
    str = key ++ s2 \/ deref s2 = 0.
Proof.
  induction key as [|k key IH]; intros str s2 Hkey H.
  - inversion H; left; reflexivity.
  - inversion Hkey as [|? ? Hk Hkey']; subst.
    simpl in H. apply Z.eqb_neq in Hk; rewrite Hk, orb_false_r in H.
    destruct (deref str =? 0) eqn:Z0.
    + inversion H; subst; right; apply Z.eqb_eq; exact Z0.
    + destruct (deref str =? k) eqn:Ek; simpl in H; [|discriminate].
      apply Z.eqb_eq in Ek.
      destruct str as [|c str']; [discriminate Z0|].
      simpl in Ek; subst c; simpl in H.
      destruct (IH str' s2 Hkey' H) as [->|E]; [left; reflexivity|right; exact E].
Qed.

Lemma skip_if_split (b : bool) s :
  exists w,
    s = w ++ (if b then buffer_skip_blank s else s) /\ blanks w
    /\ (b = false -> w = []).
Proof.
  destruct b.
  - destruct (buffer_skip_blank_split s) as (w & E & Hw).
    exists w; repeat split; [exact E|exact Hw|discriminate].
  - exists []; repeat split; constructor.
Qed.

Lemma skip_if_app (b : bool) w s :
  blanks w -> (b = false -> w = []) ->
  (b = true -> is_blank (deref s) = false) ->
  (if b then buffer_skip_blank (w ++ s) else w ++ s) = s.
Proof.
  intros Hw Hoff Hs; destruct b.
  - rewrite buffer_skip_blank_app by exact Hw.
    apply buffer_skip_blank_stable; apply Hs; reflexivity.
  - rewrite (Hoff eq_refl); reflexivity.
Qed.

(** check_key finds the value exactly on the lines that consist of the key
    and a delimiter, with blanks around the key when whitespace is
    skipped. *)
Lemma buffer_check_key_iff cfg key line v :
  c_string key ->
  (whitespace_skip cfg = true -> is_blank (deref key) = false) ->
  kv_parse_buffer_check_key cfg line key = Some v <->
  exists w1 w2 c,
    line = w1 ++ key ++ w2 ++ c :: v /\ blanks w1 /\ blanks w2 /\
    (whitespace_skip cfg = false -> w1 = [] /\ w2 = []) /\ is_delim c = true.
Proof.
  intros Hkey Hb; split.
  - unfold kv_parse_buffer_check_key; intros H.
    destruct (skip_if_split (whitespace_skip cfg) line) as (w1 & E1 & Hw1 & O1).
    remember (if whitespace_skip cfg then buffer_skip_blank line else line)
      as s0 eqn:Es0.
    destruct (buffer_key_loop s0 key) as [s2|] eqn:K; [|discriminate].
    destruct (skip_if_split (whitespace_skip cfg) s2) as (w2 & E2 & Hw2 & O2).
    remember (if whitespace_skip cfg then buffer_skip_blank s2 else s2)
      as s3 eqn:Es3.
    destruct (is_delim (deref s3)) eqn:D; simpl in H; [|discriminate].
    inversion H; subst v.
    destruct s3 as [|c s3']; [discriminate D|]; simpl in D; simpl tl.
    destruct (buffer_key_loop_inv key s0 s2 Hkey K) as [E|E].
    + exists w1, w2, c; repeat split; try assumption.
      * rewrite E1, E, E2 at 1; reflexivity.
      * apply O1; assumption.
      * apply O2; assumption.
    + exfalso.
      assert (Hs2 : (if whitespace_skip cfg then buffer_skip_blank s2 else s2)
                    = s2).
      { destruct (whitespace_skip cfg); [|reflexivity].
        apply buffer_skip_blank_stable; rewrite E; reflexivity. }
      rewrite Hs2 in Es3; subst s2; simpl in E; subst c; discriminate D.
  - intros (w1 & w2 & c & -> & Hw1 & Hw2 & Hoff & D).
    assert (Hc : is_blank (deref (c :: v)) = false)
      by (simpl; apply is_delim_not_blank; exact D).
    destruct key as [|k key].
    + apply buffer_check_key_empty.
      exists (w1 ++ w2), c; simpl app; rewrite app_assoc.
      repeat split; [apply Forall_app; split; assumption| |exact D].
      intros W; destruct (Hoff W) as [-> ->]; reflexivity.
    + unfold kv_parse_buffer_check_key.
      rewrite skip_if_app;
        [|exact Hw1|intros W; apply (Hoff W)|exact Hb].
      rewrite buffer_key_loop_app by exact Hkey.
      rewrite skip_if_app;
        [|exact Hw2|intros W; apply (Hoff W)|intros _; exact Hc].
      simpl; rewrite D; reflexivity.
Qed.

(** X6 (check_key, both engines): check_key accepts a line exactly when the
    line is the key followed by [=] or [:], with blanks allowed in front of
    the key and in front of the delimiter when whitespace is skipped; what
    it returns is the text right behind the delimiter.  With whitespace
    skipping the key must not start with a blank. *)
Theorem check_key_accepts_exactly_key_lines :
  forall (cfg : config) (key line v : list Z) (f : FILE),
    c_string key ->
    (whitespace_skip cfg = true -> is_blank (deref key) = false) ->
    (kv_parse_buffer_check_key cfg line key = Some v <->
     exists w1 w2 c,
       line = w1 ++ key ++ w2 ++ c :: v /\ blanks w1 /\ blanks w2 /\
       (whitespace_skip cfg = false -> w1 = [] /\ w2 = []) /\
       is_delim c = true)
    /\ (text_bytes (ahead f) ->
        ((exists f', kv_parse_check_key cfg f key = Some (true, f')) <->
         exists w1 w2 c rest,
           as_buffer (ahead f) = w1 ++ key ++ w2 ++ c :: rest /\
           blanks w1 /\ blanks w2 /\
           (whitespace_skip cfg = false -> w1 = [] /\ w2 = []) /\
           is_delim c = true)).
Proof.
  intros cfg key line v f Hkey Hb.
  split; [apply buffer_check_key_iff; assumption|].
  destruct f as [dt p l]; cbn [ahead]; intros Hl.
  pose proof (sim_check_key cfg key dt p l Hl) as S.
  destruct (kv_parse_buffer_check_key cfg (as_buffer l) key) as [v0|] eqn:B.
  - destruct S as (pre & l' & _ & _ & Ef).
    split; [intros _|intros _; eexists; exact Ef].
    apply (buffer_check_key_iff cfg key (as_buffer l) v0 Hkey Hb) in B.
    destruct B as (w1 & w2 & c & B); exists w1, w2, c, v0; exact B.
  - destruct S as (f' & Ef).
    split.
    + intros (f'' & E); rewrite Ef in E; discriminate E.
    + intros (w1 & w2 & c & rest & H).
      assert (B' : kv_parse_buffer_check_key cfg (as_buffer l) key = Some rest)
        by (apply buffer_check_key_iff; [assumption|assumption|];
            exists w1, w2, c; exact H).
      rewrite B in B'; discriminate B'.
Qed.

Lemma check_key_accepts_witness :
  kv_parse_buffer_check_key (Config true true) (txt "  name : Bob") (txt "name")
  = Some (txt " Bob").
Proof.
  destruct (check_key_accepts_exactly_key_lines (Config true true) (txt "name")
              (txt "  name : Bob") (txt " Bob") (fopen [])) as [[_ H] _].
  - repeat (constructor; [discriminate|]); constructor.
  - intros _; reflexivity.
  - apply H; exists (txt "  "), (txt " "), 58.
    split; [reflexivity|].
    split; [repeat constructor|].
    split; [repeat constructor|].
    split; [intros W; discriminate W|reflexivity].
Defined.

(** ** Moving to the next line *)

Lemma buffer_next_line_loop_iff :
  forall str X,
    buffer_next_line_loop str = Some X <->
    exists l, str = l ++ newline :: X /\ line_body l /\ deref X <> 0.
Proof.
  induction str as [|c s IH]; intros X; simpl.
  - split; [discriminate|intros ([|y l] & E & _); discriminate E].
  - destruct (c =? 0) eqn:Z0.
    + apply Z.eqb_eq in Z0; subst c.
      split; [discriminate|intros ([|y l] & E & Hl & _)].
      * discriminate E.
      * inversion E; subst; inversion Hl as [|? ? [Hy _] _]; congruence.
    + apply Z.eqb_neq in Z0. destruct (c =? newline) eqn:N.
      * apply Z.eqb_eq in N; subst c.
        destruct (deref s =? 0) eqn:D.
        -- apply Z.eqb_eq in D.
           split; [discriminate|intros ([|y l] & E & Hl & HX)].
           ++ inversion E; subst; congruence.
           ++ inversion E; subst; inversion Hl as [|? ? [_ Hy] _]; congruence.
        -- apply Z.eqb_neq in D. split.
           ++ intros H; inversion H; subst.
              exists []; repeat split; [constructor|exact D].
           ++ intros ([|y l] & E & Hl & HX).
              ** inversion E; reflexivity.
              ** inversion E; subst; inversion Hl as [|? ? [_ Hy] _]; congruence.
      * apply Z.eqb_neq in N. rewrite IH. split.
        -- intros (l & E & Hl & HX); exists (c :: l); subst s.
           repeat split; [constructor; [split|]; assumption|exact HX].
        -- intros ([|y l] & E & Hl & HX).
           ++ inversion E; congruence.
           ++ inversion E; subst; inversion Hl; subst.
              exists l; repeat split; assumption.
Qed.

Lemma to_char_byte b :
  byte b ->
  (to_char b = b /\ b < 128) \/ (to_char b = b - 256 /\ 128 <= b).
Proof.
  unfold byte, to_char; intros Hb.
  destruct (Z_lt_ge_dec b 128) as [Hlt|Hge].
  - left; split; [|exact Hlt]. rewrite Z.mod_small; lia.
  - right; split; [|lia].
    replace (b + 128) with (b - 128 + 1 * 256) by lia.
    rewrite Z_mod_plus_full, Z.mod_small; lia.
Qed.

Lemma to_char_byte_eof b : byte b -> (to_char b =? EOF) = (b =? 255).
Proof.
  intros Hb; unfold EOF.
  destruct (to_char_byte b Hb) as [[E H]|[E H]]; rewrite E; unfold byte in Hb.
  - transitivity false; [|symmetry]; apply Z.eqb_neq; lia.
  - destruct (b =? 255) eqn:B.
    + apply Z.eqb_eq in B; apply Z.eqb_eq; lia.
    + apply Z.eqb_neq in B; apply Z.eqb_neq; lia.
Qed.

Lemma to_char_byte_newline b : byte b -> (to_char b =? newline) = (b =? newline).
Proof.
  intros Hb; unfold newline.
  destruct (to_char_byte b Hb) as [[E H]|[E H]]; rewrite E; [reflexivity|].
  unfold byte in Hb.
  transitivity false; [|symmetry]; apply Z.eqb_neq; lia.
Qed.

Lemma to_uchar_to_char_byte b : byte b -> to_uchar (to_char b) = b.
Proof.
  intros Hb; unfold to_uchar.
  destruct (to_char_byte b Hb) as [[E H]|[E H]]; rewrite E; unfold byte in Hb.
  - apply Z.mod_small; lia.
  - replace (b - 256) with (b + (-1) * 256) by lia.
    rewrite Z_mod_plus_full; apply Z.mod_small; lia.
Qed.

(** The loop of next_line on the bytes of a file: it succeeds exactly when a
    newline with a byte behind it is met before any byte 255, which the
    conversion to [char] turns into EOF. *)
Lemma file_next_line_loop_iff :
  forall l fuel d p ch f f',
    Forall byte l -> reading d p l = (ch, f) -> (length l + 2 <= fuel)%nat ->
    file_next_line_loop fuel ch f = Some (true, f') <->
    exists pre b r,
      l = pre ++ newline :: b :: r /\
      Forall (fun x => x <> 255 /\ x <> newline) pre /\ b <> 255 /\
      f' = {| data := d; pos := p + Z.of_nat (length pre) + 1;
              ahead := b :: r |}.
Proof.
  induction l as [|x l IH]; intros fuel d p ch f f' Hl R Hf;
    (destruct fuel as [|k]; [simpl in Hf; lia|]);
    simpl in R; inversion R; subst; clear R.
  - simpl; split; [discriminate|intros ([|y pre] & b & r & E & _); discriminate E].
  - inversion Hl as [|? ? Hx Hl']; subst.
    simpl file_next_line_loop.
    rewrite to_char_byte_eof, to_char_byte_newline, getc_char_reading
      by exact Hx.
    destruct (x =? 255) eqn:X255.
    { apply Z.eqb_eq in X255; subst x.
      split; [discriminate|intros ([|y pre] & b & r & E & Hpre & _)].
      - inversion E.
      - inversion E; subst; inversion Hpre as [|? ? [Hy _] _]; congruence. }
    apply Z.eqb_neq in X255.
    destruct (x =? newline) eqn:N.
    + apply Z.eqb_eq in N; subst x.
      destruct l as [|b r]; simpl reading; cbv iota beta.
      * simpl; split; [discriminate|intros ([|y pre] & b & r & E & Hpre & _)].
        -- inversion E.
        -- inversion E; subst; inversion Hpre as [|? ? [_ Hy] _]; congruence.
      * inversion Hl' as [|? ? Hb _]; subst.
        rewrite to_char_byte_eof by exact Hb.
        destruct (b =? 255) eqn:B255.
        -- apply Z.eqb_eq in B255; subst b.
           split; [discriminate|intros ([|y pre] & b & r' & E & Hpre & Hb' & _)].
           ++ inversion E; subst; congruence.
           ++ inversion E; subst; inversion Hpre as [|? ? [_ Hy] _]; congruence.
        -- apply Z.eqb_neq in B255.
           assert (U : ungetc (to_char b)
                         {| data := d; pos := p + 1 + 1; ahead := r |}
                       = {| data := d; pos := p + Z.of_nat 0 + 1;
                            ahead := b :: r |}).
           { unfold ungetc; rewrite to_char_byte_eof by exact Hb.
             apply Z.eqb_neq in B255; rewrite B255.
             rewrite to_uchar_to_char_byte by exact Hb.
             cbn [data pos ahead]; f_equal; simpl; lia. }
           rewrite U; split.
           ++ intros H; inversion H; subst.
              exists [], b, r; repeat split; [constructor|exact B255].
           ++ intros ([|y pre] & b' & r' & E & Hpre & Hb' & ->).
              ** inversion E; subst; reflexivity.
              ** inversion E; subst; inversion Hpre as [|? ? [_ Hy] _];
                   congruence.
    + apply Z.eqb_neq in N.
      destruct (reading d (p + 1) l) as [ch1 f1] eqn:R1.
      rewrite (IH k d (p + 1) ch1 f1 f' Hl' R1) by (simpl in Hf; lia).
      split.
      * intros (pre & b & r & E & Hpre & Hb & ->).
        exists (x :: pre), b, r; subst l; repeat split;
          [constructor; [split|]; assumption|exact Hb|].
        f_equal; simpl length; rewrite Nat2Z.inj_succ; lia.
      * intros ([|y pre] & b & r & E & Hpre & Hb & ->).
        -- inversion E; congruence.
        -- inversion E; subst; inversion Hpre; subst.
           exists pre, b, r; repeat split; try assumption.
           f_equal; simpl length; rewrite Nat2Z.inj_succ; lia.
Qed.

(** X7 (next_line, both engines): for a line count other than zero,
    next_line succeeds exactly when a newline with something behind it lies
    ahead, and it then stops right behind the first newline.  The buffer
    engine gives up at a NUL; the stream engine reads on over a NUL and
    gives up at a byte 255, which it takes for the end of the file. *)
Theorem next_line_stops_behind_first_newline :
  forall (n : Z) (str X : list Z) (f f' : FILE),
    n <> 0 ->
    (kv_parse_buffer_next_line str n = Some X <->
     exists l, str = l ++ newline :: X /\ line_body l /\ deref X <> 0)
    /\ (Forall byte (ahead f) ->
        (kv_parse_next_line f n = Some (true, f') <->
         exists l b r,
           ahead f = l ++ newline :: b :: r /\
           Forall (fun x => x <> 255 /\ x <> newline) l /\ b <> 255 /\
           f' = {| data := data f; pos := pos f + Z.of_nat (length l) + 1;
                   ahead := b :: r |})).
Proof.
  intros n str X f f' Hn; apply Z.eqb_neq in Hn.
  unfold kv_parse_buffer_next_line, kv_parse_next_line; rewrite Hn.
  split; [apply buffer_next_line_loop_iff|].
  destruct f as [d p l]; cbn [data pos ahead]; intros Hl.
  rewrite getc_char_reading.
  destruct (reading d p l) as [ch f1] eqn:R.
  apply (file_next_line_loop_iff l _ d p ch f1 f' Hl R).
  unfold rounds; cbn [ahead]; lia.
Qed.

Lemma next_line_stops_behind_first_newline_witness :
  kv_parse_buffer_next_line (txt "a=1" ++ newline :: txt "b=2") 1
  = Some (txt "b=2")
  /\ kv_parse_next_line (fopen (txt "a" ++ 0 :: newline :: txt "b=2")) 1
     = Some (true, {| data := txt "a" ++ 0 :: newline :: txt "b=2"; pos := 3;
                      ahead := txt "b=2" |}).
Proof.
  split.
  - destruct (next_line_stops_behind_first_newline 1
                (txt "a=1" ++ newline :: txt "b=2") (txt "b=2") (fopen []) (fopen []))
      as [[_ H] _]; [lia|].
    apply H; exists (txt "a=1"); split; [reflexivity|].
    split; [|discriminate].
    repeat (constructor; [split; discriminate|]); constructor.
  - destruct (next_line_stops_behind_first_newline 1 [] []
                (fopen (txt "a" ++ 0 :: newline :: txt "b=2"))
                {| data := txt "a" ++ 0 :: newline :: txt "b=2"; pos := 3;
                   ahead := txt "b=2" |}) as [_ H]; [lia|].
    apply H.
    + repeat (constructor; [unfold byte, newline; simpl; lia|]); constructor.
    + exists (txt "a" ++ [0]), 98, (txt "=2").
      split; [reflexivity|].
      split; [repeat (constructor; [split; discriminate|]); constructor|].
      split; [discriminate|reflexivity].
Defined.

(** ** The caller loops: termination and the missing key *)

Lemma buffer_next_line_loop_shorter str X :
  buffer_next_line_loop str = Some X ->
  exists pre, str = pre ++ X /\ (length X < length str)%nat.
Proof.
  intros H; apply buffer_next_line_loop_iff in H.
  destruct H as (l & -> & _ & _).
  exists (l ++ [newline]); rewrite <- app_assoc; split; [reflexivity|].
  rewrite length_app; simpl; lia.
Qed.

Lemma line_body_has_no_next_line l :
  line_body l -> buffer_next_line_loop l = None.
Proof.
  intros Hl; destruct (buffer_next_line_loop l) as [X|] eqn:E; [|reflexivity].
  apply buffer_next_line_loop_iff in E; destruct E as (l' & -> & _ & _).
  apply Forall_app in Hl; destruct Hl as [_ Hl].
  inversion Hl as [|? ? [_ Hn] _]; congruence.
Qed.

(** The loop of the buffer caller: with a round for every byte of the input
    it returns, and what it returns is either zero with the destination as
    it was, or the result of get_value behind a line that check_key
    accepted. *)
Lemma kv_parse_buffer_lines_returns cfg key d C :
  forall fuel input line,
    0 <= line ->
    (length input + (if (line =? 0)%Z then 2 else 1) <= fuel)%nat ->
    exists r,
      kv_parse_buffer_lines fuel cfg input line key d C = Some r
      /\ (r = (0, d)
          \/ exists pre matched v,
               input = pre ++ matched
               /\ kv_parse_buffer_check_key cfg matched key = Some v
               /\ r = (let '(_, n, d') := kv_parse_buffer_get_value cfg v d C
                       in (to_int n, d'))).
Proof.
  induction fuel as [|k IH]; intros input line Hline Hfuel.
  { destruct (line =? 0); lia. }
  rewrite kv_parse_buffer_lines_eq; unfold kv_parse_buffer_next_line.
  assert (L1 : (line + 1 =? 0) = false) by (apply Z.eqb_neq; lia).
  destruct (line =? 0) eqn:L0.
  - destruct (kv_parse_buffer_check_key cfg input key) as [v|] eqn:K.
    + destruct (kv_parse_buffer_get_value cfg v d C) as [[e n] d'] eqn:G.
      eexists; split; [reflexivity|right].
      exists [], input, v; rewrite G; repeat split; exact K.
    + apply IH; [lia|rewrite L1; lia].
  - destruct (buffer_next_line_loop input) as [X|] eqn:N;
      [|eexists; split; [reflexivity|left; reflexivity]].
    destruct (buffer_next_line_loop_shorter input X N) as (pre & E & Hlen).
    destruct (kv_parse_buffer_check_key cfg X key) as [v|] eqn:K.
    + destruct (kv_parse_buffer_get_value cfg v d C) as [[e n] d'] eqn:G.
      eexists; split; [reflexivity|right].
      exists pre, X, v; rewrite G; repeat split; [exact E|exact K].
    + destruct (IH X (line + 1)) as (r & Er & Hr); [lia|rewrite L1; lia|].
      exists r; split; [exact Er|].
      destruct Hr as [Hr|(pre2 & m & v & E2 & Km & Hr)]; [left; exact Hr|right].
      exists (pre ++ pre2), m, v; rewrite <- app_assoc, <- E2.
      repeat split; assumption.
Qed.

(** X8 (kv_parse_buffer of test.c): the lookup loop over a buffer returns on
    every input; it returns either zero, with the destination untouched, or
    what get_value gives behind a line of the input that check_key
    accepted. *)
Theorem kv_parse_buffer_returns :
  forall (cfg : config) (input key : list Z) (d : dest) (C : Z),
    exists r,
      kv_parse_buffer cfg input key d C = Some r
      /\ (r = (0, d)
          \/ exists pre matched v,
               input = pre ++ matched
               /\ kv_parse_buffer_check_key cfg matched key = Some v
               /\ r = (let '(_, n, d') := kv_parse_buffer_get_value cfg v d C
                       in (to_int n, d'))).
Proof.
  intros cfg input key d C; unfold kv_parse_buffer.
  apply kv_parse_buffer_lines_returns; [lia|].
  rewrite Z.eqb_refl; lia.
Qed.

Lemma kv_parse_buffer_lines_no_match cfg key d C :
  forall ls last fuel l0 line,
    line_body l0 -> Forall line_body ls -> line_body last ->
    no_match cfg key ls last ->
    kv_parse_buffer_check_key cfg last key = None ->
    0 < line -> (length ls + 2 <= fuel)%nat ->
    kv_parse_buffer_lines fuel cfg (l0 ++ newline :: lines_before ls last)
      line key d C
    = Some (0, d).
Proof.
  induction ls as [|l ls IH]; intros last fuel l0 line Hl0 Hls Hlast Hno Hk
    Hline Hfuel;
    (destruct fuel as [|k]; [simpl in Hfuel; lia|]);
    rewrite kv_parse_buffer_lines_eq; unfold kv_parse_buffer_next_line;
    assert (Hz : (line =? 0) = false) by (apply Z.eqb_neq; lia);
    rewrite Hz, (buffer_next_line_loop_body l0 _ Hl0);
    (destruct (deref _ =? 0); [reflexivity|]).
  - simpl lines_before; rewrite Hk.
    destruct k as [|k']; [simpl in Hfuel; lia|].
    rewrite kv_parse_buffer_lines_eq; unfold kv_parse_buffer_next_line.
    assert (Hz1 : (line + 1 =? 0) = false) by (apply Z.eqb_neq; lia).
    rewrite Hz1, (line_body_has_no_next_line last Hlast); reflexivity.
  - destruct Hno as [Hn Hno]; simpl lines_before; rewrite Hn.
    inversion Hls; subst.
    apply IH; try assumption; [lia|simpl in Hfuel; lia].
Qed.

(** X9 (kv_parse_buffer and kv_parse of test.c): when no line of the input
    is accepted by check_key, the lookup returns zero and leaves the
    destination exactly as it was - it is neither written nor read. *)
Theorem missing_key_leaves_destination_untouched :
  forall (cfg : config) (key : list Z) (ls : list (list Z)) (last : list Z)
         (d : dest) (C : Z),
    Forall line_body ls -> line_body last ->
    no_match cfg key ls last ->
    kv_parse_buffer_check_key cfg last key = None ->
    kv_parse_buffer cfg (lines_before ls last) key d C = Some (0, d)
    /\ (forall bytes : list Z,
          text_bytes bytes -> as_buffer bytes = lines_before ls last ->
          kv_parse cfg (fopen bytes) key d C = Some (0, d)).
Proof.
  intros cfg key ls last d C Hls Hlast Hno Hk.
  assert (Hbuf : kv_parse_buffer cfg (lines_before ls last) key d C
                 = Some (0, d)).
  { unfold kv_parse_buffer.
    rewrite kv_parse_buffer_lines_eq; unfold kv_parse_buffer_next_line.
    rewrite Z.eqb_refl.
    destruct ls as [|l ls].
    - simpl lines_before; rewrite Hk.
      rewrite kv_parse_buffer_lines_eq; unfold kv_parse_buffer_next_line.
      change (0 + 1 =? 0) with false; cbv iota.
      rewrite (line_body_has_no_next_line last Hlast); reflexivity.
    - destruct Hno as [Hn Hno]; simpl lines_before; rewrite Hn.
      inversion Hls; subst.
      apply kv_parse_buffer_lines_no_match; try assumption; [lia|].
      pose proof (length_lines_before ls last).
      rewrite length_app; simpl; lia. }
  split; [exact Hbuf|].
  intros bytes Ht Eb.
  rewrite (kv_parse_agrees_on_text cfg bytes key d C Ht), Eb; exact Hbuf.
Qed.

Lemma missing_key_witness :
  kv_parse_buffer (Config true true)
    (lines_before [txt "user=admin"; txt "port : 22"] (txt "host=example"))
    (txt "password") (fresh (fun _ => 65)) 100
  = Some (0, fresh (fun _ => 65)).
Proof.
  destruct (missing_key_leaves_destination_untouched (Config true true)
              (txt "password") [txt "user=admin"; txt "port : 22"]
              (txt "host=example") (fresh (fun _ => 65)) 100) as [H _].
  - repeat constructor; discriminate.
  - repeat constructor; discriminate.
  - repeat split.
  - reflexivity.
  - exact H.
Defined.

(** A successful next_line leaves a stream that was only read and sought in
    the same state, further on in the file. *)
Lemma kv_parse_next_line_advances f n f' :
  n <> 0 -> coherent f -> Forall byte (ahead f) ->
  kv_parse_next_line f n = Some (true, f') ->
  coherent f' /\ Forall byte (ahead f')
  /\ (length (ahead f') < length (ahead f))%nat.
Proof.
  intros Hn Hc Hb; apply Z.eqb_neq in Hn.
  unfold kv_parse_next_line; rewrite Hn.
  destruct f as [d p l]; cbn [ahead] in *.
  rewrite getc_char_reading.
  destruct (reading d p l) as [ch f1] eqn:R; intros H.
  apply (file_next_line_loop_iff l _ d p ch f1 f' Hb R) in H;
    [|unfold rounds; cbn [ahead]; lia].
  destruct H as (pre & b & r & E & _ & _ & ->); cbn [ahead]; subst l.
  split; [|split].
  - replace (p + Z.of_nat (length pre) + 1)
      with (p + Z.of_nat (length (pre ++ [newline])))
      by (rewrite length_app; simpl; lia).
    apply coherent_advance; rewrite <- app_assoc; exact Hc.
  - apply Forall_app in Hb; destruct Hb as [_ Hb]; inversion Hb; assumption.
  - rewrite length_app; simpl; lia.
Qed.

Lemma kv_parse_lines_returns cfg key d C :
  forall fuel f line,
    coherent f -> Forall byte (ahead f) -> 0 <= line ->
    (length (ahead f) + (if (line =? 0)%Z then 2 else 1) <= fuel)%nat ->
    exists r, kv_parse_lines fuel cfg f line key d C = Some r.
Proof.
  induction fuel as [|k IH]; intros f line Hc Hb Hline Hfuel.
  { destruct (line =? 0); lia. }
  rewrite kv_parse_lines_eq.
  destruct (kv_parse_next_line_total f line) as [[[|] f1] N]; rewrite N;
    [|eexists; reflexivity].
  assert (H1 : coherent f1 /\ Forall byte (ahead f1)
               /\ (length (ahead f1) + 1 <= k)%nat).
  { destruct (line =? 0) eqn:L0.
    - unfold kv_parse_next_line in N; rewrite L0 in N; inversion N; subst f1.
      repeat split; try assumption; try apply Hc; lia.
    - apply Z.eqb_neq in L0.
      destruct (kv_parse_next_line_advances f line f1 L0 Hc Hb N)
        as (Hc1 & Hb1 & Hlen).
      repeat split; try assumption; try apply Hc1; lia. }
  destruct H1 as (Hc1 & Hb1 & Hlen).
  destruct (kv_parse_check_key_total cfg f1 key) as [[[|] f2] K]; rewrite K.
  - destruct (kv_parse_get_value_total cfg f2 d C) as [[[[e n] f3] d'] G].
    rewrite G; eexists; reflexivity.
  - apply kv_parse_check_key_no_match in K; [subst f2|exact Hc1].
    apply IH; try assumption; [lia|].
    assert (L1 : (line + 1 =? 0) = false) by (apply Z.eqb_neq; lia).
    rewrite L1; lia.
Qed.

(** X10 (kv_parse of test.c): the lookup loop over a stream returns on
    every file, whatever its bytes are and wherever the stream stood: one
    round for every byte of the file, and two more, are enough. *)
Theorem kv_parse_returns :
  forall (cfg : config) (f : FILE) (key : list Z) (d : dest) (C : Z),
    Forall byte (data f) ->
    exists r, kv_parse cfg f key d C = Some r.
Proof.
  intros cfg f key d C Hb; unfold kv_parse.
  assert (E : rewind f = fopen (data f)) by reflexivity.
  rewrite E; cbn [fopen data].
  apply kv_parse_lines_returns.
  - apply (fopen_coherent (data f)).
  - exact Hb.
  - lia.
  - simpl; lia.
Qed.

Lemma kv_parse_returns_witness :
  exists r,
    kv_parse (Config true true)
      {| data := txt "a=1" ++ [newline; 0; 255; newline] ++ txt "b=2";
         pos := 5; ahead := [] |}
      (txt "b") zeroed 100
    = Some r.
Proof.
  apply kv_parse_returns.
  repeat (constructor; [unfold byte, newline; simpl; lia|]); constructor.
Defined.

(** ** Where get_value leaves the stream *)

(** Every exit of the copy loop seeks back to the start of the value; the
    end-of-line exit pushes a newline back in front of it when the line
    ended in one. *)
Lemma file_value_loop_stream cfg C start :
  forall fuel ch f i q p d e n f' d',
    file_value_loop fuel cfg C start ch f i q p d = Some (e, n, f', d') ->
    exists g,
      data g = data f
      /\ (f' = fseek g start
          \/ (e = EndOfLine /\ f' = ungetc newline (fseek g start)
              /\ (ch =? EOF) = false)).
Proof.
  induction fuel as [|k IH]; intros ch f i q p d e n f' d'; simpl;
    [discriminate|].
  destruct (negb (to_size i <? to_size (C - 1))).
  { intros H; inversion H; subst; exists f; split; [reflexivity|left; reflexivity]. }
  destruct (is_eol_file ch) eqn:El.
  { unfold file_value_end_of_line.
    pose proof (value_end_of_line_exit cfg i d) as E.
    destruct (value_end_of_line cfg i d) as [[e0 n0] d0]; simpl in E; subst e0.
    intros H; inversion H; subst; exists f; split; [reflexivity|].
    destruct (ch =? newline) eqn:N; [right|left; reflexivity].
    apply Z.eqb_eq in N; subst ch; repeat split. }
  apply not_eol_file_not_eof in El.
  destruct (getc_char f) as [ch1 f1] eqn:G.
  pose proof (getc_char_data _ _ _ G) as D.
  assert (Step : forall i q p d,
             file_value_loop k cfg C start ch1 f1 i q p d
               = Some (e, n, f', d') ->
             exists g,
               data g = data f
               /\ (f' = fseek g start
                   \/ (e = EndOfLine /\ f' = ungetc newline (fseek g start)
                       /\ (ch =? EOF) = false))).
  { intros i0 q0 p0 d0 H; apply IH in H.
    destruct H as (g & Hg & [Hf|(He & Hf & _)]);
      exists g; (split; [congruence|]); [left; exact Hf|right].
    repeat split; assumption. }
  destruct (quoted_strings cfg && (q =? EOF) && is_quote ch); [apply Step|].
  destruct (quoted_strings cfg && negb (q =? EOF)
            && negb (p =? backslash) && (ch =? q)).
  { intros H; inversion H; subst; exists f; split; [reflexivity|left; reflexivity]. }
  destruct (quoted_strings cfg && negb (q =? EOF)
            && (p =? backslash) && (ch =? q)); apply Step.
Qed.

Lemma file_skip_if_eof (b : bool) fuel f ch' f' :
  (if b then file_skip_blank fuel EOF f else Some (EOF, f)) = Some (ch', f') ->
  ch' = EOF.
Proof.
  destruct b; [destruct fuel; simpl|]; intros H; inversion H; reflexivity.
Qed.

Lemma kv_parse_get_value_stream cfg f d C e n f' d' :
  coherent f ->
  kv_parse_get_value cfg f d C = Some (e, n, f', d') ->
  f' = f
  \/ (e = EndOfLine /\ f' = ungetc newline f
      /\ exists b r, ahead f = b :: r /\ (to_char b =? EOF) = false).
Proof.
  intros Hc; unfold kv_parse_get_value, ftell.
  destruct (getc_char f) as [ch f1] eqn:G.
  pose proof (getc_char_data _ _ _ G) as D1.
  destruct (if whitespace_skip cfg then file_skip_blank (rounds f) ch f1
            else Some (ch, f1)) as [[ch2 f2]|] eqn:S; [|discriminate].
  pose proof (file_skip_if_data _ _ _ _ _ _ S) as D2.
  intros H; apply file_value_loop_stream in H.
  destruct H as (g & Hg & [Hf|(He & Hf & Hch)]).
  - left; subst f'; apply fseek_restores; [exact Hc|congruence].
  - right; split; [exact He|].
    assert (Eg : fseek g (pos f) = f)
      by (apply fseek_restores; [exact Hc|congruence]).
    rewrite Eg in Hf; split; [exact Hf|].
    assert (Hch0 : (ch =? EOF) = false).
    { destruct (ch =? EOF) eqn:E0; [|reflexivity].
      apply Z.eqb_eq in E0; subst ch.
      apply file_skip_if_eof in S; subst ch2; discriminate Hch. }
    unfold getc_char, getc in G.
    destruct (ahead f) as [|b r]; inversion G; subst.
    + discriminate Hch0.
    + exists b, r; split; [reflexivity|exact Hch0].
Qed.

Lemma getc_char_line_end f ch f1 :
  getc_char f = (ch, f1) -> line_end_from ch (ahead f1) = line_end (ahead f).
Proof.
  unfold getc_char, getc; destruct (ahead f) as [|b r] eqn:A;
    intros H; inversion H; subst; cbn [ahead]; [rewrite A|]; reflexivity.
Qed.

Lemma file_skip_if_line_end (b : bool) fuel ch f ch' f' :
  (if b then file_skip_blank fuel ch f else Some (ch, f)) = Some (ch', f') ->
  line_end_from ch' (ahead f') = line_end_from ch (ahead f).
Proof.
  destruct b; [|intros H; inversion H; reflexivity].
  revert ch f; induction fuel as [|k IH]; intros ch f; simpl; [discriminate|].
  destruct (is_blank ch) eqn:B; [|intros H; inversion H; reflexivity].
  destruct (getc_char f) as [ch1 f1] eqn:G.
  intros H; rewrite (IH _ _ H), (getc_char_line_end _ _ _ G).
  unfold line_end_from.
  assert (E : is_eol_file ch = false); [|rewrite E; reflexivity].
  unfold is_blank in B; apply orb_true_iff in B.
  destruct B as [B|B]; apply Z.eqb_eq in B; subst; reflexivity.
Qed.

(** The copy loop pushes the newline back exactly when it leaves through
    the end-of-line exit and the line ends in a newline. *)
Lemma file_value_loop_pushback cfg C start :
  forall fuel ch f i q p d e n f' d',
    file_value_loop fuel cfg C start ch f i q p d = Some (e, n, f', d') ->
    exists g,
      data g = data f
      /\ ((e = EndOfLine /\ line_end_from ch (ahead f) = newline
           /\ f' = ungetc newline (fseek g start))
          \/ ((e <> EndOfLine \/ line_end_from ch (ahead f) <> newline)
              /\ f' = fseek g start)).
Proof.
  induction fuel as [|k IH]; intros ch f i q p d e n f' d'; simpl;
    [discriminate|].
  destruct (negb (to_size i <? to_size (C - 1))).
  { intros H; inversion H; subst; exists f; split; [reflexivity|right].
    split; [left; discriminate|reflexivity]. }
  destruct (is_eol_file ch) eqn:El.
  { unfold file_value_end_of_line.
    pose proof (value_end_of_line_exit cfg i d) as E.
    destruct (value_end_of_line cfg i d) as [[e0 n0] d0]; simpl in E; subst e0.
    intros H; inversion H; subst; exists f; split; [reflexivity|].
    unfold line_end_from; rewrite El.
    destruct (ch =? newline) eqn:N.
    - apply Z.eqb_eq in N; left; repeat split; exact N.
    - apply Z.eqb_neq in N; right; split; [right; exact N|reflexivity]. }
  destruct (getc_char f) as [ch1 f1] eqn:G.
  pose proof (getc_char_data _ _ _ G) as D.
  assert (L : line_end_from ch (ahead f) = line_end_from ch1 (ahead f1)).
  { rewrite (getc_char_line_end _ _ _ G); unfold line_end_from at 1.
    rewrite El; reflexivity. }
  rewrite L.
  assert (Step : forall i q p d,
             file_value_loop k cfg C start ch1 f1 i q p d
               = Some (e, n, f', d') ->
             exists g,
               data g = data f
               /\ ((e = EndOfLine /\ line_end_from ch1 (ahead f1) = newline
                    /\ f' = ungetc newline (fseek g start))
                   \/ ((e <> EndOfLine
                        \/ line_end_from ch1 (ahead f1) <> newline)
                       /\ f' = fseek g start))).
  { intros i0 q0 p0 d0 H; apply IH in H.
    destruct H as (g & Hg & H); exists g; split; [congruence|exact H]. }
  destruct (quoted_strings cfg && (q =? EOF) && is_quote ch); [apply Step|].
  destruct (quoted_strings cfg && negb (q =? EOF)
            && negb (p =? backslash) && (ch =? q)).
  { intros H; inversion H; subst; exists f; split; [reflexivity|right].
    split; [left; discriminate|reflexivity]. }
  destruct (quoted_strings cfg && negb (q =? EOF)
            && (p =? backslash) && (ch =? q)); apply Step.
Qed.

Lemma kv_parse_get_value_pushback cfg f d C e n f' d' :
  coherent f ->
  kv_parse_get_value cfg f d C = Some (e, n, f', d') ->
  (e = EndOfLine /\ line_end (ahead f) = newline /\ f' = ungetc newline f)
  \/ ((e <> EndOfLine \/ line_end (ahead f) <> newline) /\ f' = f).
Proof.
  intros Hc; unfold kv_parse_get_value, ftell.
  destruct (getc_char f) as [ch f1] eqn:G.
  pose proof (getc_char_data _ _ _ G) as D1.
  destruct (if whitespace_skip cfg then file_skip_blank (rounds f) ch f1
            else Some (ch, f1)) as [[ch2 f2]|] eqn:S; [|discriminate].
  pose proof (file_skip_if_data _ _ _ _ _ _ S) as D2.
  pose proof (file_skip_if_line_end _ _ _ _ _ _ S) as L2.
  rewrite (getc_char_line_end _ _ _ G) in L2.
  intros H; apply file_value_loop_pushback in H.
  destruct H as (g & Hg & H); rewrite L2 in H.
  assert (Eg : fseek g (pos f) = f)
    by (apply fseek_restores; [exact Hc|congruence]).
  rewrite Eg in H; exact H.
Qed.

Lemma ungetc_newline_changes f : ungetc newline f <> f.
Proof.
  intros H; apply (f_equal pos) in H.
  unfold ungetc in H; change (newline =? EOF) with false in H.
  cbn [pos] in H; lia.
Qed.

(** X11 (get_value of the stream engine): whichever way get_value leaves,
    it leaves a stream that was only read and sought at the start of the
    value.  When it leaves through the end-of-line exit and the line ahead
    ends in a newline, that newline is pushed back in front of the value,
    and the stream is no longer the one the call found; in every other
    case - another exit, or a line that a carriage return, the end of the
    file or a byte 255 ends - the stream is exactly as the call found it. *)
Theorem get_value_returns_to_start_of_value :
  forall (cfg : config) (f f' : FILE) (d d' : dest) (C n : Z) (e : value_exit),
    coherent f ->
    kv_parse_get_value cfg f d C = Some (e, n, f', d') ->
    (e = EndOfLine -> line_end (ahead f) = newline ->
     f' = ungetc newline f /\ f' <> f)
    /\ (e <> EndOfLine \/ line_end (ahead f) <> newline -> f' = f).
Proof.
  intros cfg f f' d d' C n e Hc H.
  destruct (kv_parse_get_value_pushback cfg f d C e n f' d' Hc H)
    as [(He & Hl & Hf)|(Hn & Hf)].
  - split.
    + intros _ _; split; [exact Hf|].
      rewrite Hf; apply ungetc_newline_changes.
    + intros [Hne|Hne]; contradiction.
  - split; [|intros _; exact Hf].
    intros He Hl; destruct Hn as [Hn|Hn]; contradiction.
Qed.

Lemma get_value_returns_to_start_of_value_witness :
  coherent stream_at_value
  /\ line_end (ahead stream_at_value) = newline
  /\ exists d',
       kv_parse_get_value (Config true true) stream_at_value zeroed 100
       = Some (EndOfLine, 1, stream_after_value, d')
       /\ stream_after_value = ungetc newline stream_at_value
       /\ stream_after_value <> stream_at_value.
Proof.
  assert (Hc : coherent stream_at_value) by (split; [simpl; lia|reflexivity]).
  split; [exact Hc|]; split; [reflexivity|].
  eexists; split; [reflexivity|].
  refine (proj1 (get_value_returns_to_start_of_value (Config true true)
                   stream_at_value stream_after_value zeroed _ 100 1
                   EndOfLine Hc _) eq_refl eq_refl).
  reflexivity.
Defined.

Lemma next_line_after_pushback f n b r :
  n <> 0 -> ahead f = b :: r -> byte b -> (to_char b =? EOF) = false ->
  kv_parse_next_line (ungetc newline f) n = Some (true, f).
Proof.
  intros Hn Ha Hb He; apply Z.eqb_neq in Hn.
  destruct f as [d p l]; cbn [ahead] in Ha; subst l.
  unfold kv_parse_next_line; rewrite Hn.
  unfold ungetc at 1; change (newline =? EOF) with false; cbv iota.
  cbn [data pos ahead]; change (to_uchar newline) with newline.
  rewrite getc_char_reading; cbn [reading]; change (to_char newline) with newline.
  unfold rounds; cbn [ahead length file_next_line_loop].
  change (newline =? EOF) with false; rewrite Z.eqb_refl; cbv iota.
  rewrite getc_char_reading; cbn [reading]; rewrite He.
  unfold ungetc; rewrite He, to_uchar_to_char_byte by exact Hb.
  cbn [data pos ahead]; do 3 f_equal; lia.
Qed.

(** X12 (get_value followed by next_line, stream engine): when get_value has
    pushed the newline back, the next call of next_line uses it up: it
    returns true with the stream at the start of the value that was just
    read, not at the start of the following line. *)
Theorem next_line_after_value_stays_at_value :
  forall (cfg : config) (f f' : FILE) (d d' : dest) (C n m : Z)
         (e : value_exit),
    coherent f -> Forall byte (ahead f) ->
    kv_parse_get_value cfg f d C = Some (e, n, f', d') ->
    f' <> f -> m <> 0 ->
    kv_parse_next_line f' m = Some (true, f).
Proof.
  intros cfg f f' d d' C n m e Hc Hb H Hne Hm.
  destruct (kv_parse_get_value_stream cfg f d C e n f' d' Hc H)
    as [Hf|(_ & Hf & b & r & Ha & Hch)]; [contradiction|].
  subst f'; apply (next_line_after_pushback f m b r Hm Ha); [|exact Hch].
  rewrite Ha in Hb; inversion Hb; assumption.
Qed.

Lemma next_line_after_value_witness :
  kv_parse_next_line stream_after_value 1 = Some (true, stream_at_value).
Proof.
  assert (Hc : coherent stream_at_value) by (split; [simpl; lia|reflexivity]).
  refine (next_line_after_value_stays_at_value (Config true true)
            stream_at_value stream_after_value zeroed _ 100 1 1 EndOfLine
            Hc _ _ _ _).
  - repeat (constructor; [unfold byte, newline; simpl; lia|]); constructor.
  - reflexivity.
  - discriminate.
  - lia.
Defined.

(** ** Only the current line is read *)

Lemma buffer_skip_blank_line_of str :
  buffer_skip_blank (line_of str) = line_of (buffer_skip_blank str).
Proof.
  induction str as [|c s IH]; [reflexivity|].
  simpl line_of at 1; destruct (is_eol c) eqn:E.
  - simpl; rewrite (is_eol_not_blank c E); simpl; rewrite E; reflexivity.
  - simpl; destruct (is_blank c); [exact IH|].
    simpl; rewrite E; reflexivity.
Qed.

Lemma buffer_value_loop_line_of cfg C :
  forall str i q p d,
    buffer_value_loop cfg C (line_of str) i q p d
    = buffer_value_loop cfg C str i q p d.
Proof.
  induction str as [|c s IH]; intros i q p d; [reflexivity|].
  simpl line_of; rewrite (buffer_value_loop_eq cfg C (c :: s)).
  destruct (is_eol c) eqn:E.
  - rewrite buffer_value_loop_eq; reflexivity.
  - rewrite buffer_value_loop_eq, E, !IH; reflexivity.
Qed.

Lemma buffer_section_loop_line_of C :
  forall str i d,
    buffer_section_loop C (line_of str) i d = buffer_section_loop C str i d.
Proof.
  induction str as [|c s IH]; intros i d; [reflexivity|].
  simpl line_of; rewrite (buffer_section_loop_eq C (c :: s)).
  destruct (is_eol c) eqn:E.
  - rewrite buffer_section_loop_eq; reflexivity.
  - rewrite buffer_section_loop_eq, E, IH; reflexivity.
Qed.

(** X13 (get_value and check_section of the buffer engine): both read the
    current line only.  What they return, what they leave in the
    destination and which of its bytes they touch is the same when
    everything from the first NUL, carriage return or newline on is cut
    off. *)
Theorem extraction_reads_current_line_only :
  forall (cfg : config) (str : list Z) (d : dest) (C : Z),
    kv_parse_buffer_get_value cfg str d C
    = kv_parse_buffer_get_value cfg (line_of str) d C
    /\ kv_parse_buffer_check_section str d C
       = kv_parse_buffer_check_section (line_of str) d C.
Proof.
  intros cfg str d C; split.
  - unfold kv_parse_buffer_get_value.
    destruct (whitespace_skip cfg).
    + rewrite buffer_skip_blank_line_of, buffer_value_loop_line_of; reflexivity.
    + rewrite buffer_value_loop_line_of; reflexivity.
  - unfold kv_parse_buffer_check_section.
    destruct str as [|c s]; [reflexivity|].
    simpl line_of; destruct (is_eol c) eqn:E.
    + assert (Hc : (c =? open_bracket) = false).
      { unfold is_eol in E; apply Z.eqb_neq; intros ->; discriminate E. }
      cbn [deref hd]; rewrite Hc; reflexivity.
    + cbn [deref hd tl]; rewrite buffer_section_loop_line_of; reflexivity.
Qed.

(** ** The returned length is the length of the stored string *)

Lemma trim_loop_string :
  forall fuel i d,
    0 <= i -> string_of_length d i ->
    string_of_length (snd (trim_loop fuel i d)) (fst (trim_loop fuel i d))
    /\ 0 <= fst (trim_loop fuel i d) <= i.
Proof.
  induction fuel as [|k IH]; intros i d Hi [H0 Hs]; simpl.
  - split; [split; assumption|lia].
  - destruct (0 <? i) eqn:P; [|simpl; split; [split; assumption|lia]].
    apply Z.ltb_lt in P.
    destruct (is_blank (cells d (i - 1))).
    + destruct (IH (i - 1)
                  (store {| cells := cells d; trace := Rd (i - 1) :: trace d |}
                     (i - 1) 0)) as (H1 & H2); [lia| |split; [exact H1|lia]].
      split; [apply cells_store_same|].
      intros j Hj; rewrite cells_store_other by lia; apply Hs; lia.
    + simpl; split; [split; assumption|lia].
Qed.

Lemma value_end_of_line_string cfg C i d :
  1 <= C < size_modulus -> 0 <= i <= C - 2 ->
  (forall k, 0 <= k < i -> is_eol (cells d k) = false) ->
  string_of_length (snd (value_end_of_line cfg i d))
    (snd (fst (value_end_of_line cfg i d))).
Proof.
  intros HC Hi Hs; unfold value_end_of_line.
  assert (H1 : string_of_length (store d i 0) i).
  { split; [apply cells_store_same|].
    intros k Hk; rewrite cells_store_other by lia; apply Hs; exact Hk. }
  destruct (whitespace_skip cfg).
  - unfold trim.
    destruct (trim_loop_string (Z.to_nat i) i (store d i 0)) as (H2 & H3);
      [lia|exact H1|].
    destruct (trim_loop (Z.to_nat i) i (store d i 0)) as [i' d2];
      cbn [fst snd] in *.
    rewrite to_size_small by lia; exact H2.
  - cbn [fst snd]; rewrite to_size_small by lia; exact H1.
Qed.

Lemma buffer_value_loop_string cfg C :
  1 <= C < size_modulus ->
  forall str i q p d,
    0 <= i <= C - 1 ->
    (quoted_strings cfg = true -> p = backslash -> 1 <= i) ->
    (forall k, 0 <= k < i -> is_eol (cells d k) = false) ->
    string_of_length (snd (buffer_value_loop cfg C str i q p d))
      (snd (fst (buffer_value_loop cfg C str i q p d))).
Proof.
  intros HC; induction str as [|c str IH]; intros i q p d Hi Hp Hs;
    rewrite buffer_value_loop_eq;
    destruct (negb (to_size i <? to_size (C - 1))) eqn:G;
    try (unfold value_too_large; cbn [fst snd];
         split; [apply cells_store_same|intros k Hk; lia]);
    apply (guard_passed C HC) in G; try assumption.
  - apply (value_end_of_line_string cfg C); [exact HC|lia|exact Hs].
  - destruct (is_eol c) eqn:E.
    { apply (value_end_of_line_string cfg C); [exact HC|lia|exact Hs]. }
    assert (Hstore : forall j, 0 <= j <= i ->
               forall k, 0 <= k < j + 1 ->
                 is_eol (cells (store d j (if c =? 0 then 0 else c)) k) = false).
    { intros j Hj k Hk; rewrite nul_guard.
      destruct (Z.eq_dec k j) as [->|Hne];
        [rewrite cells_store_same; exact E|].
      rewrite cells_store_other by exact Hne; apply Hs; lia. }
    destruct (quoted_strings cfg && (q =? 0) && is_quote c).
    { apply IH; assumption. }
    destruct (quoted_strings cfg && negb (q =? 0)
              && negb (p =? backslash) && (c =? q)).
    { cbn [fst snd]; rewrite to_size_small by lia.
      split; [apply cells_store_same|].
      intros k Hk; rewrite cells_store_other by lia; apply Hs; exact Hk. }
    destruct (quoted_strings cfg && negb (q =? 0)
              && (p =? backslash) && (c =? q)) eqn:B.
    { apply escape_branch in B; destruct B as [Eq Ep].
      specialize (Hp Eq Ep).
      apply IH; [lia|intros _ _; exact Hp|].
      intros k Hk; apply (Hstore (i - 1)); lia. }
    apply IH; [lia|intros _ _; lia|].
    intros k Hk; apply (Hstore i); lia.
Qed.

(** X14 (get_value, both engines): for a capacity of at least one byte that
    an [int] can index, the length that get_value returns is the length of
    the C string it leaves in the destination: a NUL stands at that index
    and no NUL, carriage return or newline in front of it.  This holds in
    every exit, the failing one included, where the length is zero. *)
Theorem returned_length_is_string_length :
  forall (cfg : config) (str : list Z) (d : dest) (C : Z),
    1 <= C <= int_max + 1 ->
    string_of_length (snd (kv_parse_buffer_get_value cfg str d C))
      (snd (fst (kv_parse_buffer_get_value cfg str d C)))
    /\ (forall f : FILE,
          text_bytes (ahead f) ->
          exists e n f' d',
            kv_parse_get_value cfg f d C = Some (e, n, f', d')
            /\ string_of_length d' n).
Proof.
  intros cfg str d C HC.
  assert (HC' : 1 <= C < size_modulus)
    by (unfold int_max, size_modulus in *; lia).
  assert (Hb : forall s,
             string_of_length (snd (kv_parse_buffer_get_value cfg s d C))
               (snd (fst (kv_parse_buffer_get_value cfg s d C)))).
  { intros s; unfold kv_parse_buffer_get_value.
    apply (buffer_value_loop_string cfg C HC'); [lia|intros _ Hp|intros k Hk; lia].
    discriminate Hp. }
  split; [apply Hb|].
  intros [dt p l] Hl; cbn [ahead] in Hl.
  destruct (sim_get_value cfg dt p l d C Hl) as (f' & Ef).
  specialize (Hb (as_buffer l)).
  destruct (kv_parse_buffer_get_value cfg (as_buffer l) d C) as [[e n] d'].
  exists e, n, f', d'; split; [exact Ef|exact Hb].
Qed.

Lemma returned_length_is_string_length_witness :
  string_of_length
    (snd (kv_parse_buffer_get_value (Config true true)
            (txt " 'it''s' " ++ newline :: txt "k=v") zeroed 8))
    (snd (fst (kv_parse_buffer_get_value (Config true true)
                 (txt " 'it''s' " ++ newline :: txt "k=v") zeroed 8))).
Proof.
  apply (returned_length_is_string_length (Config true true)
           (txt " 'it''s' " ++ newline :: txt "k=v") zeroed 8).
  unfold int_max; lia.
Defined.

(** ** The two engines on the same text, and the whole lookup *)

Lemma engines_agree_on_text_witness :
  exists f',
    kv_parse_get_value (Config true true)
      {| data := txt "k= v 1"; pos := 2; ahead := txt " v 1" |} zeroed 100
    = Some (let '(e, n, d') :=
              kv_parse_buffer_get_value (Config true true)
                (as_buffer (txt " v 1")) zeroed 100 in
            (e, n, f', d')).
Proof.
  destruct (engines_agree_on_text (Config true true) (txt "k= v 1") 2
              (txt " v 1") [] zeroed 100 0) as (_ & _ & H & _).
  - repeat (constructor; [unfold text_byte; simpl; lia|]); constructor.
  - exact H.
Defined.

(** X16 (kv_parse and kv_parse_buffer of test.c): on a file without NUL and
    without the byte 255 the lookup over the stream, wherever the stream
    stands when it is called, and the lookup over the same text in a buffer
    both return, and they return the same length and the same
    destination. *)
Theorem lookups_agree_on_text :
  forall (cfg : config) (f : FILE) (key : list Z) (d : dest) (C : Z),
    text_bytes (data f) ->
    exists r,
      kv_parse cfg f key d C = Some r
      /\ kv_parse_buffer cfg (as_buffer (data f)) key d C = Some r.
Proof.
  intros cfg f key d C Ht.
  change (kv_parse cfg f key d C) with (kv_parse cfg (fopen (data f)) key d C).
  destruct (kv_parse_buffer_lines_returns cfg key d C
              (S (S (length (as_buffer (data f))))) (as_buffer (data f)) 0)
    as (r & Er & _); [lia|simpl; lia|].
  exists r; split; [|exact Er].
  rewrite (kv_parse_agrees_on_text cfg (data f) key d C Ht); exact Er.
Qed.

Lemma lookups_agree_on_text_witness :
  exists r,
    kv_parse (Config true true)
      {| data := txt "a=1" ++ newline :: txt "b = two";
         pos := 6; ahead := txt "= two" |} (txt "b") zeroed 100 = Some r
    /\ kv_parse_buffer (Config true true)
         (as_buffer (txt "a=1" ++ newline :: txt "b = two")) (txt "b")
         zeroed 100 = Some r.
Proof.
  apply (lookups_agree_on_text (Config true true)
           {| data := txt "a=1" ++ newline :: txt "b = two";
              pos := 6; ahead := txt "= two" |} (txt "b") zeroed 100).
  repeat (constructor; [unfold text_byte, newline; simpl; lia|]); constructor.
Defined.

Lemma kv_parse_buffer_first_match cfg key earlier rest v d C :
  Forall line_body earlier -> no_match cfg key earlier rest ->
  kv_parse_buffer_check_key cfg rest key = Some v ->
  kv_parse_buffer cfg (lines_before earlier rest) key d C
  = Some (let '(_, n, d') := kv_parse_buffer_get_value cfg v d C in
          (to_int n, d')).
Proof.
  intros Hls Hno Hv; unfold kv_parse_buffer.
  rewrite kv_parse_buffer_lines_eq; unfold kv_parse_buffer_next_line.
  rewrite Z.eqb_refl.
  destruct earlier as [|l ls].
  - simpl lines_before; rewrite Hv.
    destruct (kv_parse_buffer_get_value cfg v d C) as [[e n] d']; reflexivity.
  - destruct Hno as [Hn Hno]; simpl lines_before; rewrite Hn.
    inversion Hls; subst.
    apply kv_parse_buffer_lines_first_match; try assumption; [lia|].
    pose proof (length_lines_before ls rest).
    rewrite length_app; simpl; lia.
Qed.

(** X17 (the lookup of test.c, both engines): when the lines in front of it
    do not match, a line made of the key, a delimiter and an unquoted value
    that fits gives that value: the lookup returns its length and the
    destination holds it as a C string, with the blanks around key,
    delimiter and value dropped when whitespace is skipped.  Delimiters
    inside the value belong to the value. *)
Theorem lookup_returns_the_value_of_the_key :
  forall (cfg : config) (key : list Z) (earlier : list (list Z))
         (w1 w2 w3 s t : list Z) (c : Z) (d : dest) (C : Z),
    1 <= C <= int_max + 1 ->
    c_string key ->
    (whitespace_skip cfg = true -> is_blank (deref key) = false) ->
    blanks w1 -> blanks w2 -> blanks w3 ->
    (whitespace_skip cfg = false -> w1 = [] /\ w2 = [] /\ w3 = []) ->
    is_delim c = true ->
    plain cfg s -> is_eol (deref t) = true ->
    Z.of_nat (length s) <= C - 2 ->
    Forall line_body earlier ->
    no_match cfg key earlier (w1 ++ key ++ w2 ++ c :: w3 ++ s ++ t) ->
    let v := if whitespace_skip cfg then without_trailing_blanks s else s in
    exists d',
      holds_string d' v
      /\ kv_parse_buffer cfg
           (lines_before earlier (w1 ++ key ++ w2 ++ c :: w3 ++ s ++ t))
           key d C
         = Some (Z.of_nat (length v), d')
      /\ (forall bytes : list Z,
            text_bytes bytes ->
            as_buffer bytes
            = lines_before earlier (w1 ++ key ++ w2 ++ c :: w3 ++ s ++ t) ->
            kv_parse cfg (fopen bytes) key d C
            = Some (Z.of_nat (length v), d')).
Proof.
  intros cfg key earlier w1 w2 w3 s t c d C HC Hkey Hkb Hw1 Hw2 Hw3 Hoff Hc
    Hs Ht Hlen Hls Hno v.
  assert (HC' : 1 <= C < size_modulus)
    by (unfold int_max, size_modulus in *; lia).
  assert (Hk : kv_parse_buffer_check_key cfg
                 (w1 ++ key ++ w2 ++ c :: w3 ++ s ++ t) key
               = Some (w3 ++ s ++ t)).
  { apply buffer_check_key_iff; [exact Hkey|exact Hkb|].
    exists w1, w2, c; repeat split; try assumption;
      apply (Hoff H). }
  destruct (buffer_get_value_plain cfg C w3 s t d HC' Hw3) as (d' & E & Hh);
    [intros W; apply (Hoff W)|exact Hs|exact Ht|exact Hlen|].
  fold v in E, Hh.
  assert (Hv : (length v <= length s)%nat).
  { unfold v; destruct (whitespace_skip cfg);
      [apply length_without_trailing_blanks|lia]. }
  assert (Hint : to_int (Z.of_nat (length v)) = Z.of_nat (length v)).
  { unfold to_int, int_max in *.
    rewrite Z.mod_small by lia; lia. }
  pose proof (kv_parse_buffer_first_match cfg key earlier _ _ d C Hls Hno Hk)
    as Hbuf.
  rewrite E, Hint in Hbuf.
  exists d'; split; [exact Hh|]; split; [exact Hbuf|].
  intros bytes Hb Eb.
  rewrite (kv_parse_agrees_on_text cfg bytes key d C Hb), Eb; exact Hbuf.
Qed.

Lemma lookup_returns_the_value_witness :
  exists d',
    holds_string d' (txt "a=b  c")
    /\ kv_parse_buffer (Config true true)
         (lines_before [txt "# settings"; txt "keys = 1"]
            (txt " key :  a=b  c  " ++ 13 :: newline :: txt "key=2"))
         (txt "key") zeroed 100
       = Some (6, d').
Proof.
  destruct (lookup_returns_the_value_of_the_key (Config true true) (txt "key")
              [txt "# settings"; txt "keys = 1"]
              (txt " ") (txt " ") (txt "  ") (txt "a=b  c  ")
              (13 :: newline :: txt "key=2") 58 zeroed 100)
    as (d' & Hh & Hb & _).
  - unfold int_max; lia.
  - repeat (constructor; [discriminate|]); constructor.
  - intros _; reflexivity.
  - repeat constructor.
  - repeat constructor.
  - repeat constructor.
  - intros W; discriminate W.
  - reflexivity.
  - split; [|intros _; reflexivity].
    repeat (constructor; [split; [reflexivity|intros _; reflexivity]|]).
    constructor.
  - reflexivity.
  - simpl; lia.
  - repeat constructor; discriminate.
  - repeat split.
  - exists d'; split; [exact Hh|exact Hb].
Defined.

(** ** The capacity boundary of check_section *)

Lemma buffer_section_loop_overflow C :
  1 <= C < size_modulus ->
  forall s rest i d,
    no_eol s -> 0 <= i -> i + Z.of_nat (length s) = C - 1 ->
    fst (fst (buffer_section_loop C (s ++ rest) i d)) = SectionTooLarge.
Proof.
  intros HC; induction s as [|c s IH]; intros rest i d Hs Hi Hlen;
    rewrite buffer_section_loop_eq, loop_guard by (assumption || lia);
    simpl length in Hlen.
  - assert (G : (i <? C - 1) = false) by (apply Z.ltb_ge; lia).
    rewrite G; reflexivity.
  - assert (G : (i <? C - 1) = true) by (apply Z.ltb_lt; lia).
    inversion Hs as [|? ? Hc Hs']; subst.
    simpl app; rewrite G, Hc; simpl negb; cbv iota.
    apply IH; [exact Hs'|lia|lia].
Qed.

Lemma buffer_check_section_boundary C body t d :
  1 <= C < size_modulus -> no_eol body -> is_eol (deref t) = true ->
  fst (fst (kv_parse_buffer_check_section (open_bracket :: body ++ t) d C))
  = SectionTooLarge
  <-> C - 1 <= Z.of_nat (length body).
Proof.
  intros HC Hs Ht.
  unfold kv_parse_buffer_check_section; cbn [deref hd tl].
  rewrite Z.eqb_refl; simpl negb; cbv iota.
  destruct (Z_le_gt_dec (C - 1) (Z.of_nat (length body))) as [Hge|Hlt].
  - split; [intros _; exact Hge|intros _].
    rewrite <- (firstn_skipn (Z.to_nat (C - 1)) body), <- app_assoc.
    apply (buffer_section_loop_overflow C HC); [|lia|].
    + rewrite <- (firstn_skipn (Z.to_nat (C - 1)) body) in Hs.
      apply Forall_app in Hs; apply Hs.
    + rewrite length_firstn; lia.
  - split; [intros H; exfalso|lia].
    destruct (buffer_section_loop_copies C HC body [] t d Hs Ht (stored_nil d))
      as (d1 & E & _); [simpl; lia|].
    simpl length in E; simpl app in E; change (Z.of_nat 0) with 0 in E.
    rewrite E in H.
    destruct (section_end_of_line (Z.of_nat (length body)) d1)
      as [[e n] d'] eqn:S.
    destruct (section_end_of_line_outcome _ _ _ _ _ S) as [(He & _)|He];
      cbn [fst] in H; congruence.
Qed.

(** X18 (check_section, both engines): on a line that starts with an
    opening bracket, check_section gives up for lack of room exactly when
    the rest of the line - name, closing bracket and blanks behind it - has
    capacity - 1 bytes or more.  A header whose name and terminating NUL
    would fill the destination is therefore refused. *)
Theorem check_section_capacity_boundary :
  forall (C : Z) (body t : list Z) (d : dest),
    1 <= C <= int_max + 1 -> no_eol body -> is_eol (deref t) = true ->
    (fst (fst (kv_parse_buffer_check_section (open_bracket :: body ++ t) d C))
     = SectionTooLarge
     <-> C - 1 <= Z.of_nat (length body))
    /\ (forall f : FILE,
          text_bytes (ahead f) ->
          as_buffer (ahead f) = open_bracket :: body ++ t ->
          exists e n f' d',
            kv_parse_check_section f d C = Some (e, n, f', d')
            /\ (e = SectionTooLarge <-> C - 1 <= Z.of_nat (length body))).
Proof.
  intros C body t d HC Hs Ht.
  assert (HC' : 1 <= C < size_modulus)
    by (unfold int_max, size_modulus in *; lia).
  pose proof (buffer_check_section_boundary C body t d HC' Hs Ht) as Hb.
  split; [exact Hb|].
  intros [dt p l] Hl Eb; cbn [ahead] in Hl, Eb.
  destruct (sim_check_section dt p l d C Hl) as (f' & Ef).
  rewrite Eb in Ef.
  destruct (kv_parse_buffer_check_section (open_bracket :: body ++ t) d C)
    as [[e n] d'].
  exists e, n, f', d'; split; [exact Ef|exact Hb].
Qed.

Lemma check_section_capacity_boundary_witness :
  fst (fst (kv_parse_buffer_check_section (txt "[abc]") zeroed 5))
  = SectionTooLarge.
Proof.
  destruct (check_section_capacity_boundary 5 (txt "abc]") [] zeroed)
    as [[_ H] _].
  - unfold int_max; lia.
  - repeat constructor.
  - reflexivity.
  - rewrite app_nil_r in H; apply H; simpl; lia.
Defined.
